(** * Fieldscope: the Sankey graph builder and the drag repacking

    A shallow embedding of [buildGraph], of the guards of [renderSankey] and
    [renderAll], and of the three handlers of the vertical node drag, with
    the properties the specification states about them.

    Conventions of the embedding.
    - A JavaScript string is a [string]; its characters are the code units
      U+0000 to U+00FF.
    - A [Map] is an association list in insertion order ([JsMap]): iteration
      order is observable in the source, so order is part of the model.
    - A row is an object whose properties hold scalars; a property that is
      absent reads as [SUndefined].
    - Counts, row positions and array indices are [nat]. A vertical
      coordinate is a JavaScript number, an IEEE 754 binary64 value: the
      [spec_float] of the Standard Library, whose sums and differences
      round as the source's do. The pixel sizes of the container are
      integers, kept in [Q].
    - The node objects of the laid out graph are shared between
      [graph.nodes], the cached peer list and the dragged datum: they live
      in a store (a list) and are referred to by their index. *)

From Stdlib Require Import String Ascii List Bool Arith ZArith QArith Lia Lqa.
From Stdlib Require Import DecimalString FinFun Sorting.Sorted Sorting.Permutation.
From Stdlib Require Import SpecFloat.
Import ListNotations.

#[local] Open Scope string_scope.
#[local] Open Scope list_scope.
#[local] Open Scope nat_scope.

(* ================================================================= *)
(** ** JavaScript primitives used by the module *)

(** White space and line terminators removed by [String.prototype.trim],
    among the code units below U+0100. *)
Definition isWhiteSpace (c : ascii) : bool :=
  let n := nat_of_ascii c in
  (n =? 9) || (n =? 10) || (n =? 11) || (n =? 12) || (n =? 13)
  || (n =? 32) || (n =? 160).

Fixpoint trimStart (s : string) : string :=
  match s with
  | EmptyString => EmptyString
  | String c r => if isWhiteSpace c then trimStart r else s
  end.

Fixpoint trimEnd (s : string) : string :=
  match s with
  | EmptyString => EmptyString
  | String c r =>
      match trimEnd r with
      | EmptyString => if isWhiteSpace c then EmptyString else String c EmptyString
      | r' => String c r'
      end
  end.

Definition trim (s : string) : string := trimEnd (trimStart s).

(** Scalars a row can hold. [SNumber] stands for an integer-valued number
    of magnitude below 10^21, which [String] prints in plain decimal. *)
Inductive scalar : Type :=
  | SUndefined
  | SNull
  | SString (s : string)
  | SNumber (z : Z)
  | SBoolean (b : bool).

(** [String(v)]. *)
Definition toString (v : scalar) : string :=
  match v with
  | SUndefined => "undefined"
  | SNull => "null"
  | SString s => s
  | SNumber z => NilZero.string_of_int (Z.to_int z)
  | SBoolean b => if b then "true" else "false"
  end.

(** [str.split(sep)] for a string separator: the occurrences of [sep] are
    found left to right and do not overlap. [skip] counts the code units of
    a separator just matched that are still to be passed over; [piece] is
    the substring read since the last separator. *)
Fixpoint splitFrom (sep : string) (skip : nat) (piece : string) (s : string)
  : list string :=
  match s with
  | EmptyString => [piece]
  | String c r =>
      match skip with
      | S k => splitFrom sep k piece r
      | O =>
          if prefix sep s
          then piece :: splitFrom sep (String.length sep - 1) EmptyString r
          else splitFrom sep 0 (piece ++ String c EmptyString) r
      end
  end.

Definition split (sep s : string) : list string :=
  if (sep =? EmptyString)%string
  then map (fun c => String c EmptyString) (list_ascii_of_string s)
  else splitFrom sep 0 EmptyString s.

(** [a || b] where [a] is [undefined] when absent. *)
Definition orElse {A : Type} (o : option A) (d : A) : A :=
  match o with Some a => a | None => d end.

(** How a statement list completes: normally with a value, or by a throw. *)
Inductive completion (A : Type) : Type :=
  | Normal (a : A)
  | Throw (e : string).
Arguments Normal {A} a.
Arguments Throw {A} e.

Definition TypeError : string := "TypeError".

(* ================================================================= *)
(** ** [Map]: keyed by strings, iterated in insertion order *)

Module JsMap.
Section WithValue.
Context {V : Type}.

Definition t : Type := list (string * V).

Definition empty : t := [].

Fixpoint get (m : t) (k : string) : option V :=
  match m with
  | [] => None
  | (k', v) :: r => if (k' =? k)%string then Some v else get r k
  end.

Definition has (m : t) (k : string) : bool :=
  match get m k with Some _ => true | None => false end.

(** [m.set(k, v)]: an existing key keeps its place, a new key goes last. *)
Fixpoint set (m : t) (k : string) (v : V) : t :=
  match m with
  | [] => [(k, v)]
  | (k', v') :: r =>
      if (k' =? k)%string then (k', v) :: r else (k', v') :: set r k v
  end.

Definition keys (m : t) : list string := map fst m.
Definition values (m : t) : list V := map snd m.
Definition entries (m : t) : list (string * V) := m.

(** [new Map(pairs)]. *)
Definition ofList (l : list (string * V)) : t :=
  fold_left (fun m kv => set m (fst kv) (snd kv)) l empty.
End WithValue.
Arguments t V : clear implicits.
End JsMap.

(* ================================================================= *)
(** ** Data of the graph *)

Inductive Side : Type := left | right.

Definition Side_eqb (a b : Side) : bool :=
  match a, b with
  | left, left | right, right => true
  | _, _ => false
  end.

Record Node : Type := mkNode { id : string; name : string; side : Side }.

(** A value of [byLinkKey]: [{ count, refIds }]. *)
Record Entry : Type := mkEntry { count : nat; refIds : list nat }.

Record Link : Type := mkLink { source : string; target : string; value : nat }.

Record Graph : Type := mkGraph { nodes : list Node; links : list Link }.

Record BuildResult : Type := mkBuildResult {
  graph : Graph;
  byLinkKey : JsMap.t Entry;
  refCountMax : nat
}.

(** A row object. *)
Definition Row : Type := list (string * scalar).

(** [row[col]] on a plain data object: an own property, or [undefined].
    The names every object inherits from [Object.prototype] are not
    modelled. *)
Fixpoint prop (row : Row) (col : string) : scalar :=
  match row with
  | [] => SUndefined
  | (k, v) :: r => if (k =? col)%string then v else prop r col
  end.

(** [rows.forEach((row, idx) => ...)], the callback made a function of the
    variables it updates. *)
Fixpoint forEach {A St : Type} (f : St -> A -> nat -> St) (l : list A)
  (idx : nat) (st : St) : St :=
  match l with
  | [] => st
  | x :: r => forEach f r (S idx) (f st x idx)
  end.

(** [d3.max(array, accessor)]: [undefined] on an empty array. *)
Definition d3_max {A : Type} (l : list A) (f : A -> nat) : option nat :=
  match l with
  | [] => None
  | x :: r => Some (fold_left (fun m y => Nat.max m (f y)) r (f x))
  end.

(** [[s, t] = parts] read inside a template literal: a missing element
    prints as [undefined]. *)
Definition element (parts : list string) (i : nat) : string :=
  nth i parts "undefined".

(** The three maps the loop of [buildGraph] fills. *)
Record Maps : Type := mkMaps {
  sources : JsMap.t Node;
  targets : JsMap.t Node;
  linkMap : JsMap.t Entry
}.

(* ================================================================= *)
(** ** The current rendering module (sankeyGraph.js) *)

Definition dquote : string := String (ascii_of_nat 34) EmptyString.

Definition placeholder (text : string) : string :=
  "<div style=" ++ dquote ++ "display:grid;place-items:center;height:100%;color:#94a3b8"
  ++ dquote ++ ">" ++ text ++ "</div>".

Definition safeStr (v : scalar) : string :=
  match v with
  | SNull | SUndefined => EmptyString
  | _ => trim (toString v)
  end.

Definition getVal (row : Row) (col : string) : string := safeStr (prop row col).

(** The key of [byLinkKey]. *)
Definition linkKey (s t : string) : string := s ++ "|||" ++ t.

(** The callback of [rows.forEach] in [buildGraph]. *)
Definition eachRow (sourceCol targetCol : string) (m : Maps) (row : Row)
  (idx : nat) : Maps :=
  let s := getVal row sourceCol in
  let t := getVal row targetCol in
  if (s =? EmptyString)%string || (t =? EmptyString)%string then m
  else
    let sources' :=
      if JsMap.has (sources m) s then sources m
      else JsMap.set (sources m) s (mkNode ("S:" ++ s) s left) in
    let targets' :=
      if JsMap.has (targets m) t then targets m
      else JsMap.set (targets m) t (mkNode ("T:" ++ t) t right) in
    let key := linkKey s t in
    let entry := orElse (JsMap.get (linkMap m) key) (mkEntry 0 []) in
    let entry' := mkEntry (count entry + 1) (refIds entry ++ [idx + 1]) in
    mkMaps sources' targets' (JsMap.set (linkMap m) key entry').

(** The body of the [for ... of byLinkKey.entries()] loop. *)
Definition linkOf (kv : string * Entry) : Link :=
  let parts := split "|||" (fst kv) in
  let s := element parts 0 in
  let t := element parts 1 in
  mkLink ("S:" ++ s) ("T:" ++ t) (count (snd kv)).

(** [buildGraph(rows, sourceCol, targetCol)]. [d3g] tells whether the D3
    global was found when the module was loaded: the last statement calls
    [d3g.max], which throws on [undefined]. *)
Definition buildGraph (d3g : bool) (rows : list Row) (sourceCol targetCol : string)
  : completion BuildResult :=
  let m := forEach (eachRow sourceCol targetCol) rows 0
             (mkMaps JsMap.empty JsMap.empty JsMap.empty) in
  let nodes := JsMap.values (sources m) ++ JsMap.values (targets m) in
  let links := map linkOf (JsMap.entries (linkMap m)) in
  let graph := mkGraph nodes links in
  if d3g then
    let refCountMax :=
      match d3_max links value with
      | Some 0 | None => 1
      | Some n => n
      end in
    Normal (mkBuildResult graph (linkMap m) refCountMax)
  else Throw TypeError.

(** [config] of [renderSankey]: a selection is a string, or absent. *)
Record Config : Type := mkConfig {
  cfgSourceCol : option string;
  cfgTargetCol : option string;
  showRefNums : bool
}.

(** [!col] for a column selection. *)
Definition unset (col : option string) : bool :=
  match col with
  | None => true
  | Some c => (c =? EmptyString)%string
  end.

(** Where [renderSankey] stands once its two guards are passed: it has
    written a placeholder into the container and returned, or it goes on to
    draw the graph with D3 (the drawing itself is not followed here). *)
Inductive Rendering : Type :=
  | Placeholder (innerHTML : string)
  | Drawing (width height : Q) (built : BuildResult).

Definition msgSelect : string := "Select source and target columns to render.".
Definition msgNoLinks : string :=
  "No connections found. Check the selected columns for empty values.".

(** [x || dflt] for a client size. *)
Definition sizeOr (x dflt : Q) : Q := if Qeq_bool x 0 then dflt else x.

(** [renderSankey(containerEl, rows, config)] up to the drawing. *)
Definition renderSankey (d3g : bool) (clientWidth clientHeight : Q)
  (rows : list Row) (config : Config) : completion Rendering :=
  if unset (cfgSourceCol config) || unset (cfgTargetCol config)
  then Normal (Placeholder (placeholder msgSelect))
  else
    let sourceCol := orElse (cfgSourceCol config) EmptyString in
    let targetCol := orElse (cfgTargetCol config) EmptyString in
    let width := sizeOr clientWidth 800 in
    let height := sizeOr clientHeight 480 in
    match buildGraph d3g rows sourceCol targetCol with
    | Throw e => Throw e
    | Normal built =>
        match links (graph built) with
        | [] => Normal (Placeholder (placeholder msgNoLinks))
        | _ :: _ => Normal (Drawing width height built)
        end
    end.

(** The [state] of main.js and its [renderAll]. *)
Record State : Type := mkState {
  stRows : list Row;
  stSourceCol : option string;
  stTargetCol : option string;
  stShowRefNums : bool
}.

Definition msgVisualize : string := "Select source and target columns to visualize.".

Definition renderAll (d3g : bool) (clientWidth clientHeight : Q) (state : State)
  : completion Rendering :=
  if (length (stRows state) =? 0) || unset (stSourceCol state)
     || unset (stTargetCol state)
  then Normal (Placeholder (placeholder msgVisualize))
  else renderSankey d3g clientWidth clientHeight (stRows state)
         (mkConfig (stSourceCol state) (stTargetCol state) (stShowRefNums state)).

(* ================================================================= *)
(** ** The older rendering module *)

Module Older.

Definition safeStr (v : scalar) : string :=
  match v with
  | SNull | SUndefined => EmptyString
  | _ => trim (toString v)
  end.

Definition eachRow (sourceCol targetCol : string) (m : Maps) (row : Row)
  (idx : nat) : Maps :=
  let getVal := fun (row : Row) (col : string) => safeStr (prop row col) in
  let s := getVal row sourceCol in
  let t := getVal row targetCol in
  if (s =? EmptyString)%string || (t =? EmptyString)%string then m
  else
    let sources' :=
      if JsMap.has (sources m) s then sources m
      else JsMap.set (sources m) s (mkNode ("S:" ++ s) s left) in
    let targets' :=
      if JsMap.has (targets m) t then targets m
      else JsMap.set (targets m) t (mkNode ("T:" ++ t) t right) in
    let key := (s ++ "|||" ++ t)%string in
    let entry := orElse (JsMap.get (linkMap m) key) (mkEntry 0 []) in
    let entry' := mkEntry (count entry + 1) (refIds entry ++ [idx + 1]) in
    mkMaps sources' targets' (JsMap.set (linkMap m) key entry').

Definition buildGraph (d3g : bool) (rows : list Row)
  (sourceCol targetCol : string) : completion BuildResult :=
  let m := forEach (eachRow sourceCol targetCol) rows 0
             (mkMaps JsMap.empty JsMap.empty JsMap.empty) in
  let nodes := JsMap.values (sources m) ++ JsMap.values (targets m) in
  let links :=
    map (fun kv : string * Entry =>
           let parts := split "|||" (fst kv) in
           mkLink ("S:" ++ element parts 0) ("T:" ++ element parts 1)
             (count (snd kv)))
        (JsMap.entries (linkMap m)) in
  if d3g then
    let refCountMax :=
      match d3_max links value with
      | Some 0 | None => 1
      | Some n => n
      end in
    Normal (mkBuildResult (mkGraph nodes links) (linkMap m) refCountMax)
  else Throw TypeError.

End Older.

(* ================================================================= *)
(** ** Numbers *)

(** A JavaScript number is an IEEE 754 binary64 value: a [spec_float] of
    the Standard Library, with a precision of 53 bits and infinities at
    exponent 1024. Sums, differences and quotients are the library's,
    rounded to nearest, ties to even. *)
Definition prec : Z := 53%Z.
Definition emax : Z := 1024%Z.
Definition number : Type := spec_float.

(** The number an integer literal denotes. *)
Definition num (z : Z) : number := binary_normalize prec emax z 0 false.

(** [a + b], [a - b], [a / b] and [a < b]. *)
Definition jsAdd : number -> number -> number := SFadd prec emax.
Definition jsSub : number -> number -> number := SFsub prec emax.
Definition jsDiv : number -> number -> number := SFdiv prec emax.
Definition jsLt (a b : number) : bool := SFltb a b.

Declare Scope number_scope.
Delimit Scope number_scope with num.
Infix "+" := jsAdd : number_scope.
Infix "-" := jsSub : number_scope.
Infix "/" := jsDiv : number_scope.

(** [Math.max(a, b)] and [Math.min(a, b)]: NaN when an argument is NaN;
    +0 counts as larger than -0. *)
Definition Math_max (a b : number) : number :=
  match SFcompare a b with
  | None => S754_nan
  | Some Lt => b
  | Some Gt => a
  | Some Eq => match a, b with S754_zero true, S754_zero false => b | _, _ => a end
  end.

Definition Math_min (a b : number) : number :=
  match SFcompare a b with
  | None => S754_nan
  | Some Lt => a
  | Some Gt => b
  | Some Eq => match a, b with S754_zero false, S754_zero true => b | _, _ => a end
  end.

(** A number is falsy when it is a zero or NaN. *)
Definition truthyNumber (a : number) : bool :=
  match a with
  | S754_zero _ | S754_nan => false
  | _ => true
  end.

(* ================================================================= *)
(** ** The vertical drag of a node *)

(** A node object after [sankey(graph)]: the builder's fields and the
    vertical extent the layout gave it. *)
Record Placed : Type := mkPlaced { datum : Node; y0 : number; y1 : number }.

Definition nodePad : number := num 14.

(** The object a reference points to; every reference used below is an
    index of [graph.nodes]. *)
Definition obj (store : list Placed) (r : nat) : Placed :=
  nth r store (mkPlaced (mkNode EmptyString EmptyString left) (num 0) (num 0)).

(** [n.y0 = a; n.y1 = b] on the object [r]. *)
Fixpoint assign (store : list Placed) (r : nat) (a b : number) : list Placed :=
  match store, r with
  | [], _ => []
  | n :: rest, O => mkPlaced (datum n) a b :: rest
  | n :: rest, S r' => n :: assign rest r' a b
  end.

(** [array.sort(cmp)] is stable; [before a b] says that [cmp(a, b)] is
    not greater than 0, a NaN counting as 0. With a comparator that orders
    the elements consistently the result is the one sorted arrangement
    that keeps equal elements in their order. With one that does not, as
    with a NaN among the tops compared below, the language leaves the
    order to the implementation: what is proved of the order of the peers
    is proved of finite layouts. *)
Fixpoint insertSorted {A : Type} (before : A -> A -> bool) (x : A) (l : list A)
  : list A :=
  match l with
  | [] => [x]
  | y :: r => if before x y then x :: l else y :: insertSorted before x r
  end.

Definition sortStable {A : Type} (before : A -> A -> bool) (l : list A) : list A :=
  fold_right (insertSorted before) [] l.

(** The properties the handlers keep on the dragged DOM element. *)
Record Element : Type := mkElement {
  __peers : option (list nat);
  __heights : option (JsMap.t number);
  __insertIdx : option nat
}.

(** [heights.get(n.id) || Math.max(8, n.y1 - n.y0)]. *)
Definition heightOf (heights : JsMap.t number) (n : Placed) : number :=
  match JsMap.get heights (id (datum n)) with
  | Some h => if truthyNumber h then h else Math_max (num 8) (y1 n - y0 n)%num
  | None => Math_max (num 8) (y1 n - y0 n)%num
  end.

(** The comparator of "start": [(a, b) => a.y0 - b.y0]. *)
Definition byTop (store : list Placed) (a b : nat) : bool :=
  negb (jsLt (num 0) (y0 (obj store a) - y0 (obj store b))%num).

(** The handler of "start". *)
Definition onStart (store : list Placed) (el : Element) (d : nat) : Element :=
  let dn := obj store d in
  let peers :=
    sortStable (byTop store)
      (filter (fun r => Side_eqb (side (datum (obj store r))) (side (datum dn))
                        && negb (id (datum (obj store r)) =? id (datum dn))%string)
              (seq 0 (length store))) in
  let heights :=
    JsMap.ofList
      (map (fun n => (id (datum n), Math_max (num 8) (y1 n - y0 n)%num)) store) in
  mkElement (Some peers) (Some heights) (__insertIdx el).

(** [while (insertIdx < centers.length && centers[insertIdx] < newCenter)
    insertIdx++], counted from the head of [centers]. *)
Fixpoint insertIndex (centers : list number) (newCenter : number) : nat :=
  match centers with
  | [] => 0
  | c :: rest =>
      if jsLt c newCenter then S (insertIndex rest newCenter) else 0
  end.

(** The packing loop of "drag", from position [i] of [peers] on. *)
Fixpoint packPeers (heights : JsMap.t number) (insertIdx : nat) (nodeHeight : number)
  (peers : list nat) (i : nat) (y : number) (store : list Placed) : list Placed :=
  match peers with
  | [] => store
  | p :: rest =>
      let y := if i =? insertIdx then (y + (nodeHeight + nodePad))%num else y in
      let h := heightOf heights (obj store p) in
      packPeers heights insertIdx nodeHeight rest (S i) (y + (h + nodePad))%num
        (assign store p y (y + h)%num)
  end.

(** The clamped top of the dragged node. *)
Definition clampY (height nodeHeight eventY : number) : number :=
  let minY := num 20 in
  let maxY := (height - num 20 - nodeHeight)%num in
  Math_max minY (Math_min maxY eventY).

(** The handler of "drag"; [eventY] is [event.y]. *)
Definition onDrag (height : number) (store : list Placed) (el : Element) (d : nat)
  (eventY : number) : list Placed * Element :=
  let dn := obj store d in
  let nodeHeight := Math_max (num 8) (y1 dn - y0 dn)%num in
  let newY0 := clampY height nodeHeight eventY in
  let newCenter := (newY0 + nodeHeight / num 2)%num in
  let peers := orElse (__peers el) [] in
  let heights := orElse (__heights el) JsMap.empty in
  let centers :=
    map (fun p => ((y0 (obj store p) + y1 (obj store p)) / num 2)%num) peers in
  let insertIdx := insertIndex centers newCenter in
  let store1 := packPeers heights insertIdx nodeHeight peers 0 (num 20) store in
  let store2 := assign store1 d newY0 (newY0 + nodeHeight)%num in
  (store2, mkElement (__peers el) (__heights el) (Some insertIdx)).

(** [ordered.splice(insertIdx, 0, d)]. *)
Definition splice (l : list nat) (i : nat) (d : nat) : list nat :=
  firstn i l ++ d :: skipn i l.

(** The packing loop of "end". *)
Fixpoint packAll (heights : JsMap.t number) (ordered : list nat) (y : number)
  (store : list Placed) : list Placed :=
  match ordered with
  | [] => store
  | n :: rest =>
      let h := heightOf heights (obj store n) in
      packAll heights rest (y + (h + nodePad))%num (assign store n y (y + h)%num)
  end.

(** The order in which "end" packs the column. *)
Definition finalOrder (el : Element) (d : nat) : list nat :=
  splice (orElse (__peers el) []) (orElse (__insertIdx el) 0) d.

(** The handler of "end". Its [nodeHeight] is computed and never read; it
    is left out. *)
Definition onEnd (store : list Placed) (el : Element) (d : nat) : list Placed :=
  let heights := orElse (__heights el) JsMap.empty in
  packAll heights (finalOrder el d) (num 20) store.

(** The "drag" events of one gesture, in order. *)
Definition moves (height : number) (d : nat) (ys : list number)
  (st : list Placed * Element) : list Placed * Element :=
  fold_left (fun st y => onDrag height (fst st) (snd st) d y) ys st.

(** A whole gesture on the node [d]: "start", the "drag" events at the
    pointer positions [ys], then "end". The result is the store and the
    properties left on the element. *)
Definition gesture (height : number) (store : list Placed) (el : Element) (d : nat)
  (ys : list number) : list Placed * Element :=
  let st := moves height d ys (store, onStart store el d) in
  (onEnd (fst st) (snd st) d, snd st).

(* ================================================================= *)
(** ** Vocabulary of the proofs: numbers *)

Section NumberVocabulary.
#[local] Open Scope Z_scope.

(** The least exponent of a binary64 number. *)
Definition emin64 : Z := -1074.

(** A finite number [m * 2^e] counted in units of [2^emin64], the
    spacing of the smallest numbers: an integer. *)
Definition scaled (m : positive) (e : Z) : Z := Zpos m * 2 ^ (e - emin64).

(** The first value beyond the finite numbers, [2^1024], in those units. *)
Definition top : Z := 2 ^ 2098.

(** The place of a number in the order of the numbers: its value in units
    of [2^emin64], and [top] or its opposite for the infinities. *)
Definition rank (x : spec_float) : Z :=
  match x with
  | S754_zero _ | S754_nan => 0
  | S754_infinity s => cond_Zopp s top
  | S754_finite s m e => cond_Zopp s (scaled m e)
  end.

Definition isNaN (x : number) : bool :=
  match x with S754_nan => true | _ => false end.

(** A number other than NaN, in the representation binary64 gives it. *)
Definition proper (x : spec_float) : bool :=
  valid_binary prec emax x && negb (isNaN x).

(** A number that is neither NaN nor infinite. *)
Definition finite (x : spec_float) : bool :=
  proper x && match x with S754_infinity _ => false | _ => true end.

(** The integer nearest to [m / 2^k], the even one of two equally near. *)
Definition roundAt (m k : Z) : Z :=
  let q := m / 2 ^ k in
  let r := m mod 2 ^ k in
  if (2 ^ k <? 2 * r) || ((2 ^ k =? 2 * r) && Z.odd q) then q + 1 else q.

(** The integer with at most 53 significant bits nearest to [n]. *)
Definition rne (n : Z) : Z :=
  let k := Z.max 0 (Zdigits2 n - prec) in
  roundAt n k * 2 ^ k.

(** Rounding of a signed value, with overflow to infinity. *)
Definition sround (v : Z) : Z := Z.sgn v * Z.min (rne (Z.abs v)) top.

(** Where the bits shifted out of a mantissa put it between two
    neighbours. *)
Definition locOf (k rem : Z) : location :=
  if rem =? 0 then loc_Exact else loc_Inexact (2 * rem ?= 2 ^ k).

(** [st] is what is left of the mantissa [m] after [k] shifts to the right. *)
Definition shrInv (m k : Z) (st : shr_record) : Prop :=
  0 <= shr_m st
  /\ exists rem, m = shr_m st * 2 ^ k + rem /\ 0 <= rem < 2 ^ k
                 /\ loc_of_shr_record st = locOf k rem.

End NumberVocabulary.

(** The order of the numbers, as [<=], [<] and [==] decide it. *)
Definition num_le (a b : number) : Prop := SFleb a b = true.
Definition num_lt (a b : number) : Prop := SFltb a b = true.
Definition num_eq (a b : number) : Prop := SFeqb a b = true.

(** A number above zero, infinity included. *)
Definition isPositive (x : number) : Prop := proper x = true /\ (0 < rank x)%Z.

(* ================================================================= *)
(** ** Vocabulary of the proofs: the drag *)

(** Every extent the layout wrote is a finite number. *)
Definition finiteLayout (store : list Placed) : bool :=
  forallb (fun n => finite (y0 n) && finite (y1 n)) store.

(** Every top the layout wrote is a number, none is NaN. *)
Definition numericTops (store : list Placed) : bool :=
  forallb (fun n => proper (y0 n)) store.

(** The height "start" caches for a node. *)
Definition startHeight (store : list Placed) (r : nat) : number :=
  Math_max (num 8) (y1 (obj store r) - y0 (obj store r))%num.

(** [order] is stacked in [store] from [y] down by the sums of the packing
    loops: a node starts at the running position and ends its height [H]
    below it, and the running position moves on by the height plus the
    padding. *)
Fixpoint stacked (H : nat -> number) (store : list Placed) (y : number)
  (order : list nat) : Prop :=
  match order with
  | [] => True
  | n :: rest =>
      y0 (obj store n) = y
      /\ y1 (obj store n) = (y + H n)%num
      /\ stacked H store (y + (H n + nodePad))%num rest
  end.

(* ================================================================= *)
(** ** Vocabulary of the specification *)

(** The rows that pass the exclusion test, in row order, each with its
    1-based position and its two trimmed values; [idx] is the 0-based
    position of the head of [rows]. *)
Fixpoint included (a b : string) (rows : list Row) (idx : nat)
  : list (nat * (string * string)) :=
  match rows with
  | [] => []
  | row :: rest =>
      if (getVal row a =? EmptyString)%string || (getVal row b =? EmptyString)%string
      then included a b rest (S idx)
      else (idx + 1, (getVal row a, getVal row b)) :: included a b rest (S idx)
  end.

Definition srcOf (p : nat * (string * string)) : string := fst (snd p).
Definition tgtOf (p : nat * (string * string)) : string := snd (snd p).
Definition keyOf (p : nat * (string * string)) : string :=
  linkKey (srcOf p) (tgtOf p).

(** The distinct elements of a list, in the order of their first
    occurrence. *)
Fixpoint firstOccurrences (l : list string) : list string :=
  match l with
  | [] => []
  | x :: r => x :: filter (fun y => negb (y =? x)%string) (firstOccurrences r)
  end.

(** The 1-based positions of the included rows whose pair has the key [k]. *)
Definition positionsOf (a b : string) (rows : list Row) (k : string) : list nat :=
  map fst (filter (fun p => (keyOf p =? k)%string) (included a b rows 0)).

Definition sourceNode (s : string) : Node := mkNode ("S:" ++ s) s left.
Definition targetNode (t : string) : Node := mkNode ("T:" ++ t) t right.

(** A row is excluded when one of its two trimmed values is empty. *)
Definition excluded (a b : string) (row : Row) : Prop :=
  getVal row a = EmptyString \/ getVal row b = EmptyString.

(* ================================================================= *)
(** ** Vocabulary of the proofs *)

Definition fresh (ks : list string) (x : string) : bool :=
  negb (existsb (String.eqb x) ks).

(** What the callback does with an included row, given as its position and
    its two values. *)
Definition addPair (m : Maps) (p : nat * (string * string)) : Maps :=
  let e := orElse (JsMap.get (linkMap m) (keyOf p)) (mkEntry 0 []) in
  mkMaps
    (if JsMap.has (sources m) (srcOf p) then sources m
     else JsMap.set (sources m) (srcOf p) (sourceNode (srcOf p)))
    (if JsMap.has (targets m) (tgtOf p) then targets m
     else JsMap.set (targets m) (tgtOf p) (targetNode (tgtOf p)))
    (JsMap.set (linkMap m) (keyOf p) (mkEntry (count e + 1) (refIds e ++ [fst p]))).

Definition noMaps : Maps := mkMaps JsMap.empty JsMap.empty JsMap.empty.

(** Every value of [sources] and of [targets] is the node made from its key. *)
Definition nodesFromKeys (m : Maps) : Prop :=
  JsMap.values (sources m) = map sourceNode (JsMap.keys (sources m))
  /\ JsMap.values (targets m) = map targetNode (JsMap.keys (targets m)).

(** The positions collected under the key [k] by the pairs of [l]. *)
Definition idsAt (k : string) (l : list (nat * (string * string))) : list nat :=
  map fst (filter (fun p => (keyOf p =? k)%string) l).

(** The state of the three maps when the loop of [buildGraph] ends. *)
Definition loopEnd (a b : string) (rows : list Row) : Maps :=
  forEach (eachRow a b) rows 0 noMaps.

(** The role prefix of a node id. *)
Definition rolePrefix (sd : Side) : string :=
  match sd with left => "S:" | right => "T:" end.

(** The peers [onStart] caches: the other nodes of the dragged node's
    column. *)
Definition isPeer (store : list Placed) (d r : nat) : bool :=
  Side_eqb (side (datum (obj store r))) (side (datum (obj store d)))
  && negb (id (datum (obj store r)) =? id (datum (obj store d)))%string.

(** A column the layout fills to the pixel: [a] is 3 high, below the floor
    of 8, and [b] ends at the bottom of the extent of a container 480
    high. *)
Definition overfull : list Placed :=
  [ mkPlaced (mkNode "S:a" "a" left) (num 20) (num 23);
    mkPlaced (mkNode "S:b" "b" left) (num 37) (num 460);
    mkPlaced (mkNode "T:p" "p" right) (num 20) (num 446) ].

(** Two stores hold the same objects at the references of [refs], all of
    them valid in both. *)
Definition agree (refs : list nat) (s1 s2 : list Placed) : Prop :=
  forall r, In r refs -> r < length s1 /\ r < length s2 /\ obj s1 r = obj s2 r.

(** The same column in two stores: the other column differs. *)
Definition overfullShifted : list Placed :=
  [ mkPlaced (mkNode "S:a" "a" left) (num 20) (num 23);
    mkPlaced (mkNode "S:b" "b" left) (num 37) (num 460);
    mkPlaced (mkNode "T:p" "p" right) (num 34) (num 460) ].

(** The rows of the specification's scenario: columns A and B, the fourth
    row with an empty B. *)
Definition scenarioRows : list Row :=
  [ [("A", SString "x"); ("B", SString "p")];
    [("A", SString "x"); ("B", SString "p")];
    [("A", SString "y"); ("B", SString "p")];
    [("A", SString "x"); ("B", SString EmptyString)] ].

(** A fresh element, and one on which an earlier gesture left its
    properties. *)
Definition freshElement : Element := mkElement None None None.
Definition usedElement : Element := mkElement (Some [7]) None (Some 5).

(** No code unit of [s] is the bar of the key separator. *)
Fixpoint barFree (s : string) : bool :=
  match s with
  | EmptyString => true
  | String c r => negb (Ascii.eqb c "|"%char) && barFree r
  end.

(* ================================================================= *)
(** ** The reference numbers on a link label *)


(* ================================================================= *)
(** ** More vocabulary *)

(** The first, respectively the last, code unit of [s] is white space. *)
Definition startsWithWhiteSpace (s : string) : bool :=
  match s with
  | EmptyString => false
  | String c _ => isWhiteSpace c
  end.

Fixpoint endsWithWhiteSpace (s : string) : bool :=
  match s with
  | EmptyString => false
  | String c EmptyString => isWhiteSpace c
  | String _ r => endsWithWhiteSpace r
  end.

(** [l] is an initial segment of [l']. *)
Definition prefixOf {A : Type} (l l' : list A) : Prop := exists tail, l' = l ++ tail.

(** The decision the loop of [buildGraph] takes on a row. *)
Definition qualifies (a b : string) (row : Row) : bool :=
  negb ((getVal row a =? EmptyString)%string || (getVal row b =? EmptyString)%string).

(** The references of the nodes on the side of [d], in the order of
    [graph.nodes]. *)
Definition columnOf (store : list Placed) (d : nat) : list nat :=
  filter (fun r => Side_eqb (side (datum (obj store r))) (side (datum (obj store d))))
         (seq 0 (length store)).

(** [p] comes before [q] in a stable sort by [y0] of nodes listed in the
    order of their references. *)
Definition sortedBefore (store : list Placed) (p q : nat) : Prop :=
  num_lt (y0 (obj store p)) (y0 (obj store q))
  \/ (num_eq (y0 (obj store p)) (y0 (obj store q)) /\ p < q).

(** Where the sums of "end" put the end of the last of a run of nodes of
    the heights [hs], packed from [y]. *)
Fixpoint bottomFrom (y : number) (hs : list number) : number :=
  match hs with
  | [] => y
  | h :: rest =>
      match rest with
      | [] => (y + h)%num
      | _ :: _ => bottomFrom (y + (h + nodePad))%num rest
      end
  end.


(** The 1-based positions of the included rows whose pair of values is
    [(s, t)]. *)
Definition positionsOfPair (a b : string) (rows : list Row) (s t : string)
  : list nat :=
  map fst (filter (fun p => (srcOf p =? s)%string && (tgtOf p =? t)%string)
                  (included a b rows 0)).

Definition pairEqb (x y : string * string) : bool :=
  (fst x =? fst y)%string && (snd x =? snd y)%string.

(** The distinct pairs of a list, in the order of their first occurrence. *)
Fixpoint firstPairs (l : list (string * string)) : list (string * string) :=
  match l with
  | [] => []
  | x :: r => x :: filter (fun y => negb (pairEqb y x)) (firstPairs r)
  end.

(** The ends of the links of a graph that are the id of no node of it. *)
Definition unresolved (g : Graph) : list string :=
  filter (fun e => negb (existsb (String.eqb e) (map id (nodes g))))
         (flat_map (fun l => [source l; target l]) (links g)).

(** [order], from its position [i] on, is stacked in [store] from [y] down
    like [stacked], except that the node at position [gapAt] starts [gap]
    lower. *)
Fixpoint stackedGap (H : nat -> number) (store : list Placed) (gapAt : nat)
  (gap : number) (i : nat) (y : number) (order : list nat) : Prop :=
  match order with
  | [] => True
  | n :: rest =>
      let y' := if i =? gapAt then (y + gap)%num else y in
      y0 (obj store n) = y'
      /\ y1 (obj store n) = (y' + H n)%num
      /\ stackedGap H store gapAt gap (S i) (y' + (H n + nodePad))%num rest
  end.

(** The nodes of [order] come one after the other in [store], none above
    [y]: each is a pair of positive numbers, ends at or after its start,
    and the next starts at or after its end. *)
Fixpoint ordered (store : list Placed) (y : number) (order : list nat) : Prop :=
  match order with
  | [] => True
  | n :: rest =>
      isPositive (y0 (obj store n)) /\ isPositive (y1 (obj store n))
      /\ num_le y (y0 (obj store n))
      /\ num_le (y0 (obj store n)) (y1 (obj store n))
      /\ ordered store (y1 (obj store n)) rest
  end.

(** The number written with one decimal place, [n / 10]. *)
Definition decimal (n : Z) : number := (num n / num 10)%num.

(* ================================================================= *)
(** ** More JavaScript primitives *)

(** [s.includes(sub)]. *)
Fixpoint includes (s sub : string) : bool :=
  prefix sub s
  || match s with
     | EmptyString => false
     | String _ r => includes r sub
     end.

(** [toLowerCase] on the code units below U+0100: the letters A to Z and
    the capital letters of Latin-1 (U+00C0 to U+00DE, the multiplication
    sign apart) move up by 32. *)
Definition lowerChar (c : ascii) : ascii :=
  let n := nat_of_ascii c in
  if ((65 <=? n) && (n <=? 90))
     || ((192 <=? n) && (n <=? 222) && negb (n =? 215))
  then ascii_of_nat (n + 32) else c.

Fixpoint toLowerCase (s : string) : string :=
  match s with
  | EmptyString => EmptyString
  | String c r => String (lowerChar c) (toLowerCase r)
  end.

(** [\d] and [[A-Za-z]]. *)
Definition isDigit (c : ascii) : bool :=
  let n := nat_of_ascii c in (48 <=? n) && (n <=? 57).

Definition isAsciiLetter (c : ascii) : bool :=
  let n := nat_of_ascii c in
  ((65 <=? n) && (n <=? 90)) || ((97 <=? n) && (n <=? 122)).

Fixpoint allChars (p : ascii -> bool) (s : string) : bool :=
  match s with
  | EmptyString => true
  | String c r => p c && allChars p r
  end.

(** [s.replace(/[^...]+/g, '')]: the code units of the class [p] that are
    kept. *)
Fixpoint keepChars (p : ascii -> bool) (s : string) : string :=
  match s with
  | EmptyString => EmptyString
  | String c r => if p c then String c (keepChars p r) else keepChars p r
  end.

(** [array.findIndex(pred)], the predicate getting the element and its
    index; [None] stands for -1. *)
Fixpoint findIndexFrom {A : Type} (p : A -> nat -> bool) (l : list A) (i : nat)
  : option nat :=
  match l with
  | [] => None
  | x :: r => if p x i then Some i else findIndexFrom p r (S i)
  end.

Definition findIndex {A : Type} (p : A -> nat -> bool) (l : list A) : option nat :=
  findIndexFrom p l 0.

(** [x || null] and [x || y] on strings that may be absent: the empty
    string is falsy. *)
Definition truthy (o : option string) : option string :=
  match o with
  | Some EmptyString => None
  | _ => o
  end.

Definition orThen (o o' : option string) : option string :=
  match truthy o with
  | Some s => Some s
  | None => o'
  end.

(** [Object.keys(row)]: a row lists its own properties in the order in
    which [Object.keys] and [Object.entries] enumerate them. *)
Definition keysOf (row : Row) : list string := map fst row.


(* ================================================================= *)
(** ** main.js: columns *)


(** [/^\d{4}$/.test(String(v).trim())] on a string. *)
Definition isYearStr (v : string) : bool :=
  let t := trim v in (String.length t =? 4) && allChars isDigit t.

(** [isMeaningful(v)] on a string. *)
Definition isMeaningful (v : string) : bool :=
  let t := trim v in
  if (t =? EmptyString)%string then false
  else if allChars isDigit t then false
  else 2 <=? String.length (keepChars isAsciiLetter t).

Definition inferColumns (rows : list Row) : list string :=
  match rows with
  | [] => []
  | row :: _ => keysOf row
  end.

Definition bads : list string :=
  [ "article number"; "articlenumber"; "article no"; "article #"; "article id";
    "reference number"; "ref number"; "refno"; "ref id"; "reference id";
    "id"; "number"; "index"; "row"; "row id"; "rowid"; "paper id" ].

Definition isArticleNumberColumn (name : string) : bool :=
  let n := trim (toLowerCase name) in
  existsb (fun b => (n =? b)%string || includes n b) bads.

Definition filterSelectableColumns (columns : list string) : list string :=
  filter (fun c => negb (isArticleNumberColumn c)) columns.

(** [i !== idx] for an index that may be -1. *)
Definition differs (i : nat) (idx : option nat) : bool :=
  match idx with
  | Some j => negb (i =? j)
  | None => true
  end.

Definition isStageColumn (k : string) : bool :=
  includes k "stage" && includes k "gastrulation".

Definition isDimensionColumn (k : string) : bool :=
  existsb (includes k) ["1d"; "2d"; "3d"; "dimensional"; "dimension"].

Definition chooseDefaultColumns (columns : list string)
  : option string * option string :=
  match columns with
  | [] => (None, None)
  | _ :: _ =>
      let lowers := map toLowerCase columns in
      let firstTwo := (truthy (nth_error columns 0), truthy (nth_error columns 1)) in
      let srcIdx := findIndex (fun k _ => isStageColumn k) lowers in
      let srcIdx :=
        match srcIdx with
        | None => findIndex (fun k _ => includes k "stage in gastrulation") lowers
        | Some _ => srcIdx
        end in
      let tgtIdx := findIndex (fun k _ => isDimensionColumn k) lowers in
      match srcIdx, tgtIdx with
      | None, None => firstTwo
      | _, _ =>
          let srcIdx :=
            match srcIdx with
            | None => findIndex (fun _ i => differs i tgtIdx) lowers
            | Some _ => srcIdx
            end in
          let tgtIdx :=
            match tgtIdx with
            | None => findIndex (fun _ i => differs i srcIdx) lowers
            | Some _ => tgtIdx
            end in
          match srcIdx, tgtIdx with
          | Some s, Some t =>
              let t :=
                if s =? t
                then match findIndex (fun _ i => differs i (Some s)) lowers with
                     | Some alt => alt
                     | None => t
                     end
                else t in
              (nth_error columns s, nth_error columns t)
          | _, _ => firstTwo
          end
      end
  end.

(** What [onDataLoaded] leaves in [state]; the population of the two
    selects and of the reference list is not part of the state. *)
Definition onDataLoaded (state : State) (rows : list Row) : State :=
  let columns := inferColumns rows in
  let selectable := filterSelectableColumns columns in
  let defaults := chooseDefaultColumns selectable in
  mkState rows
    (orThen (fst defaults) (truthy (nth_error selectable 0)))
    (orThen (snd defaults) (truthy (nth_error selectable 1)))
    (stShowRefNums state).

(* ================================================================= *)
(** ** main.js: the reference list *)

(** The first result of [f] along [l] that is not [undefined]: a [for]
    loop that returns from inside. *)
Fixpoint firstSome {A B : Type} (f : A -> option B) (l : list A) : option B :=
  match l with
  | [] => None
  | x :: r => match f x with Some y => Some y | None => firstSome f r end
  end.

(** The two loops of [preferKey], on the keys of the first row. *)
Definition preferAmong (keys candidates : list string) : option string :=
  let lowerMap := JsMap.ofList (map (fun k => (toLowerCase k, k)) keys) in
  match firstSome (fun c => truthy (JsMap.get lowerMap (toLowerCase c))) candidates with
  | Some k => Some k
  | None =>
      let lowers := map toLowerCase keys in
      firstSome
        (fun c =>
           match findIndex (fun k _ => includes k (toLowerCase c)) lowers with
           | Some idx => nth_error keys idx
           | None => None
           end)
        candidates
  end.

Definition preferKey (rows : list Row) (candidates : list string) : option string :=
  match rows with
  | [] => None
  | row :: _ =>
      match keysOf row with
      | [] => None
      | keys => preferAmong keys candidates
      end
  end.

Definition authorCandidates : list string :=
  ["Authors"; "Author"; "First Author"; "PI"; "Principal Investigator"].








(* ================================================================= *)
(** ** sankeyGraph.js: the highlight of a reference *)

(** The two variables of the closure and the positions of the items of
    [#refList] that carry the class [active-ref]. *)
Record Highlight : Type := mkHighlight {
  selectedRefId : option nat;
  hoverRefId : option nat;
  activeRefs : list nat
}.

(** [updateHighlights()] on a list of [items] items: every class is
    removed, then the active reference, if there is one and the list has an
    item at its position, gets it. *)
Definition updateHighlights (items : nat) (h : Highlight) : Highlight :=
  let active :=
    match hoverRefId h with
    | Some r => Some r
    | None => selectedRefId h
    end in
  mkHighlight (selectedRefId h) (hoverRefId h)
    match active with
    | Some r => if (1 <=? r) && (r <=? items) then [r] else []
    | None => []
    end.

Inductive TokenEvent : Type :=
  | MouseEnter (r : nat)
  | MouseLeave
  | Click (r : nat).

(** The handlers of a reference token, as far as the highlight goes. *)
Definition onToken (items : nat) (h : Highlight) (e : TokenEvent) : Highlight :=
  match e with
  | MouseEnter r =>
      updateHighlights items (mkHighlight None (Some r) (activeRefs h))
  | MouseLeave =>
      updateHighlights items (mkHighlight (selectedRefId h) None (activeRefs h))
  | Click r =>
      updateHighlights items (mkHighlight (Some r) (hoverRefId h) (activeRefs h))
  end.

(* ================================================================= *)
(** ** [renderSankey] from the guards to the layout *)

Definition msgNoD3 : string := "D3 not available. Check script includes.".

(** Where [renderSankey] stands when it reaches [d3g.sankey()]: it has
    written a message and returned, or it lays the graph out. *)
Inductive Setup : Type :=
  | Message (innerHTML : string)
  | Layout (width height : Q) (built : BuildResult).

(** The statements between the two guards and [d3g.sankey()]: the
    container is cleared, [d3g.select(containerEl)] is evaluated, which
    throws on [undefined], and only then is [d3g] tested. *)
Definition setup (d3g : bool) (r : Rendering) : completion Setup :=
  match r with
  | Placeholder html => Normal (Message html)
  | Drawing width height built =>
      if d3g then
        if negb d3g then Normal (Message (placeholder msgNoD3))
        else Normal (Layout width height built)
      else Throw TypeError
  end.

Definition renderSankeyToLayout (d3g : bool) (clientWidth clientHeight : Q)
  (rows : list Row) (config : Config) : completion Setup :=
  match renderSankey d3g clientWidth clientHeight rows config with
  | Throw e => Throw e
  | Normal r => setup d3g r
  end.

(* ================================================================= *)
(** ** Facts about [JsMap] *)

Section JsMapFacts.
Context {V : Type}.
Implicit Types (m : JsMap.t V) (k : string) (v : V).

Lemma get_set m k v k' :
  JsMap.get (JsMap.set m k v) k'
  = if (k =? k')%string then Some v else JsMap.get m k'.
Proof.
  induction m as [|[k0 v0] m IH]; simpl.
  - reflexivity.
  - destruct (String.eqb_spec k0 k) as [->|Hne]; simpl.
    + destruct (String.eqb_spec k k'); reflexivity.
    + rewrite IH. destruct (String.eqb_spec k0 k') as [->|]; [|reflexivity].
      destruct (String.eqb_spec k k'); [congruence|reflexivity].
Qed.

Lemma has_existsb m k :
  JsMap.has m k = existsb (String.eqb k) (JsMap.keys m).
Proof.
  unfold JsMap.has. induction m as [|[k0 v0] m IH]; simpl; [reflexivity|].
  rewrite (String.eqb_sym k k0).
  destruct (k0 =? k)%string; simpl; [reflexivity|exact IH].
Qed.

Lemma set_absent m k v : JsMap.has m k = false -> JsMap.set m k v = m ++ [(k, v)].
Proof.
  unfold JsMap.has. induction m as [|[k0 v0] m IH]; simpl; [reflexivity|].
  destruct (k0 =? k)%string; [discriminate|].
  intros H. now rewrite IH.
Qed.

Lemma keys_set m k v :
  JsMap.keys (JsMap.set m k v)
  = if JsMap.has m k then JsMap.keys m else JsMap.keys m ++ [k].
Proof.
  unfold JsMap.has, JsMap.keys. induction m as [|[k0 v0] m IH]; simpl; [reflexivity|].
  destruct (k0 =? k)%string; simpl; [reflexivity|].
  rewrite IH. now destruct (JsMap.get m k).
Qed.

Lemma get_In m k v : JsMap.get m k = Some v -> In (k, v) m.
Proof.
  induction m as [|[k0 v0] m IH]; simpl; [discriminate|].
  destruct (String.eqb_spec k0 k) as [->|].
  - intros [= ->]. now left.
  - intros H. right. now apply IH.
Qed.

Lemma In_get m k v : NoDup (JsMap.keys m) -> In (k, v) m -> JsMap.get m k = Some v.
Proof.
  induction m as [|[k0 v0] m IH]; simpl; [contradiction|].
  intros Hnd [H|H].
  - injection H as -> ->. now rewrite String.eqb_refl.
  - inversion Hnd as [|? ? Hnin Hnd']; subst.
    destruct (String.eqb_spec k0 k) as [->|].
    + exfalso. apply Hnin. change (In (fst (k, v)) (map fst m)). now apply in_map.
    + now apply IH.
Qed.
End JsMapFacts.

(* ================================================================= *)
(** ** First occurrences and maps grown by a loop *)

Lemma fresh_app ks ks' x : fresh (ks ++ ks') x = fresh ks x && fresh ks' x.
Proof. unfold fresh. now rewrite existsb_app, negb_orb. Qed.

Lemma filter_filter {A : Type} (p q : A -> bool) (l : list A) :
  filter p (filter q l) = filter (fun y => q y && p y) l.
Proof.
  induction l as [|x l IH]; simpl; [reflexivity|].
  destruct (q x); simpl; [destruct (p x)|]; now rewrite IH.
Qed.

Lemma In_firstOccurrences l x : In x (firstOccurrences l) <-> In x l.
Proof.
  induction l as [|y l IH]; simpl; [tauto|].
  rewrite filter_In, IH, negb_true_iff.
  destruct (String.eqb_spec x y) as [->|Hne]; [tauto|].
  split; [tauto|]. intros [H|H]; [now left|right; now split].
Qed.

Lemma NoDup_firstOccurrences l : NoDup (firstOccurrences l).
Proof.
  induction l as [|y l IH]; simpl; constructor.
  - rewrite filter_In, String.eqb_refl. simpl. intros [_ H]. discriminate.
  - now apply NoDup_filter.
Qed.

(** A loop whose every step leaves the keys alone when the step's key is
    present, and appends it otherwise, ends with the keys it started from
    followed by the new keys in the order of their first occurrence. *)
Lemma fold_keys {M X : Type} (ks : M -> list string) (key : X -> string)
  (g : M -> X -> M) :
  (forall m x, ks (g m x)
               = if existsb (String.eqb (key x)) (ks m) then ks m
                 else ks m ++ [key x]) ->
  forall l m,
    ks (fold_left g l m)
    = ks m ++ filter (fresh (ks m)) (firstOccurrences (map key l)).
Proof.
  intros Hstep l. induction l as [|x l IH]; intros m; simpl.
  - now rewrite app_nil_r.
  - rewrite IH, Hstep. unfold fresh at 2.
    destruct (existsb (String.eqb (key x)) (ks m)) eqn:E; simpl.
    + f_equal. rewrite filter_filter. apply filter_ext_in. intros y _.
      destruct (String.eqb_spec y (key x)) as [->|]; simpl; [|reflexivity].
      unfold fresh. now rewrite E.
    + rewrite <- app_assoc. simpl. do 2 f_equal.
      rewrite filter_filter. apply filter_ext. intros y.
      rewrite fresh_app. unfold fresh at 2. simpl. rewrite orb_false_r.
      apply andb_comm.
Qed.

Lemma fold_keys_empty {M X : Type} (ks : M -> list string) (key : X -> string)
  (g : M -> X -> M) :
  (forall m x, ks (g m x)
               = if existsb (String.eqb (key x)) (ks m) then ks m
                 else ks m ++ [key x]) ->
  forall l m, ks m = [] -> ks (fold_left g l m) = firstOccurrences (map key l).
Proof.
  intros Hstep l m Hm. rewrite (fold_keys ks key g Hstep), Hm. simpl.
  induction (firstOccurrences (map key l)); simpl; [reflexivity|]. now f_equal.
Qed.

(* ================================================================= *)
(** ** The loop of [buildGraph] *)

Lemma eachRow_excluded a b m row idx : excluded a b row -> eachRow a b m row idx = m.
Proof.
  unfold excluded, eachRow. intros [H|H]; rewrite H; simpl; [reflexivity|].
  now rewrite orb_true_r.
Qed.

Lemma forEach_included a b rows :
  forall idx m,
    forEach (eachRow a b) rows idx m = fold_left addPair (included a b rows idx) m.
Proof.
  induction rows as [|row rows IH]; intros idx m; simpl; [reflexivity|].
  rewrite IH. unfold eachRow.
  destruct ((getVal row a =? EmptyString)%string || (getVal row b =? EmptyString)%string);
    reflexivity.
Qed.

(** How one included row changes the keys of each map. *)
Lemma sources_step m x :
  JsMap.keys (sources (addPair m x))
  = if existsb (String.eqb (srcOf x)) (JsMap.keys (sources m))
    then JsMap.keys (sources m) else JsMap.keys (sources m) ++ [srcOf x].
Proof.
  simpl. rewrite <- has_existsb.
  destruct (JsMap.has (sources m) (srcOf x)) eqn:E; [reflexivity|].
  now rewrite keys_set, E.
Qed.

Lemma targets_step m x :
  JsMap.keys (targets (addPair m x))
  = if existsb (String.eqb (tgtOf x)) (JsMap.keys (targets m))
    then JsMap.keys (targets m) else JsMap.keys (targets m) ++ [tgtOf x].
Proof.
  simpl. rewrite <- has_existsb.
  destruct (JsMap.has (targets m) (tgtOf x)) eqn:E; [reflexivity|].
  now rewrite keys_set, E.
Qed.

Lemma linkMap_step m x :
  JsMap.keys (linkMap (addPair m x))
  = if existsb (String.eqb (keyOf x)) (JsMap.keys (linkMap m))
    then JsMap.keys (linkMap m) else JsMap.keys (linkMap m) ++ [keyOf x].
Proof. simpl. rewrite <- has_existsb. apply keys_set. Qed.

Lemma addPair_nodesFromKeys m p : nodesFromKeys m -> nodesFromKeys (addPair m p).
Proof.
  intros [Hs Ht]. split; simpl.
  - destruct (JsMap.has (sources m) (srcOf p)) eqn:E; [exact Hs|].
    rewrite (set_absent _ _ _ E). unfold JsMap.values, JsMap.keys in *.
    rewrite !map_app, Hs. reflexivity.
  - destruct (JsMap.has (targets m) (tgtOf p)) eqn:E; [exact Ht|].
    rewrite (set_absent _ _ _ E). unfold JsMap.values, JsMap.keys in *.
    rewrite !map_app, Ht. reflexivity.
Qed.

Lemma fold_nodesFromKeys l : forall m, nodesFromKeys m -> nodesFromKeys (fold_left addPair l m).
Proof.
  induction l as [|p l IH]; intros m H; simpl; [exact H|].
  apply IH. now apply addPair_nodesFromKeys.
Qed.

Lemma linkMap_get l :
  forall m k,
    JsMap.get (linkMap (fold_left addPair l m)) k
    = match idsAt k l with
      | [] => JsMap.get (linkMap m) k
      | ids =>
          let e := orElse (JsMap.get (linkMap m) k) (mkEntry 0 []) in
          Some (mkEntry (count e + length ids) (refIds e ++ ids))
      end.
Proof.
  induction l as [|p l IH]; intros m k; [reflexivity|].
  simpl fold_left. rewrite IH. unfold idsAt. simpl filter.
  change (linkMap (addPair m p)) with
    (JsMap.set (linkMap m) (keyOf p)
       (mkEntry (count (orElse (JsMap.get (linkMap m) (keyOf p)) (mkEntry 0 [])) + 1)
                (refIds (orElse (JsMap.get (linkMap m) (keyOf p)) (mkEntry 0 [])) ++ [fst p]))).
  rewrite get_set.
  destruct (String.eqb_spec (keyOf p) k) as [He|Hne]; [|reflexivity].
  simpl map. rewrite He.
  destruct (map fst (filter (fun p0 => (keyOf p0 =? k)%string) l)) as [|i ids];
    simpl; [reflexivity|].
  f_equal. f_equal; [lia|]. now rewrite <- app_assoc.
Qed.

(* ================================================================= *)
(** ** The included rows *)

Lemma included_lower a b rows :
  forall idx, Forall (fun p => idx < fst p) (included a b rows idx).
Proof.
  induction rows as [|row rows IH]; intros idx; simpl; [constructor|].
  assert (Hrest : Forall (fun p => idx < fst p) (included a b rows (S idx))).
  { eapply Forall_impl; [|apply IH]. simpl. intros p Hp. lia. }
  destruct ((getVal row a =? EmptyString)%string || (getVal row b =? EmptyString)%string);
    [exact Hrest|].
  constructor; [simpl; lia|exact Hrest].
Qed.

Lemma included_sorted a b rows :
  forall idx, StronglySorted lt (map fst (included a b rows idx)).
Proof.
  induction rows as [|row rows IH]; intros idx; simpl; [constructor|].
  destruct ((getVal row a =? EmptyString)%string || (getVal row b =? EmptyString)%string);
    [apply IH|].
  simpl. constructor; [apply IH|].
  rewrite Forall_map. eapply Forall_impl; [|apply included_lower].
  simpl. intros p Hp. lia.
Qed.

(** Membership in [included], read on the rows themselves. *)
Lemma included_spec a b rows :
  forall idx i s t,
    In (i, (s, t)) (included a b rows idx) <->
    exists row, idx < i /\ nth_error rows (i - 1 - idx) = Some row
                /\ getVal row a = s /\ getVal row b = t
                /\ s <> EmptyString /\ t <> EmptyString.
Proof.
  induction rows as [|row rows IH]; intros idx i s t; simpl.
  - split; [contradiction|]. intros [row [_ [H _]]].
    destruct (i - 1 - idx); discriminate.
  - assert (Hrest :
      In (i, (s, t)) (included a b rows (S idx)) <->
      exists r, S idx < i /\ nth_error (row :: rows) (i - 1 - idx) = Some r
                /\ getVal r a = s /\ getVal r b = t
                /\ s <> EmptyString /\ t <> EmptyString).
    { rewrite IH. split; intros [r [Hlt [Hn Hr]]]; exists r; (split; [exact Hlt|]);
        (split; [|exact Hr]).
      - replace (i - 1 - idx) with (S (i - 1 - S idx)) by lia. exact Hn.
      - replace (i - 1 - idx) with (S (i - 1 - S idx)) in Hn by lia. exact Hn. }
    destruct (String.eqb_spec (getVal row a) EmptyString) as [Ea|Ea];
      [|destruct (String.eqb_spec (getVal row b) EmptyString) as [Eb|Eb]]; simpl.
    + rewrite Hrest. split; intros [r [Hlt Hr]].
      * exists r. split; [lia|exact Hr].
      * destruct (Nat.eq_dec i (idx + 1)) as [->|Hne].
        -- replace (idx + 1 - 1 - idx) with 0 in Hr by lia. simpl in Hr.
           destruct Hr as [[= <-] [Hs [_ [Hs' _]]]]. congruence.
        -- exists r. split; [lia|exact Hr].
    + rewrite Hrest. split; intros [r [Hlt Hr]].
      * exists r. split; [lia|exact Hr].
      * destruct (Nat.eq_dec i (idx + 1)) as [->|Hne].
        -- replace (idx + 1 - 1 - idx) with 0 in Hr by lia. simpl in Hr.
           destruct Hr as [[= <-] [_ [Ht [_ Ht']]]]. congruence.
        -- exists r. split; [lia|exact Hr].
    + rewrite Hrest. split.
      * intros [H|[r [Hlt Hr]]].
        -- injection H as <- <- <-. exists row.
           replace (idx + 1 - 1 - idx) with 0 by lia. simpl.
           repeat split; try assumption; lia.
        -- exists r. split; [lia|exact Hr].
      * intros [r [Hlt Hr]].
        destruct (Nat.eq_dec i (idx + 1)) as [->|Hne].
        -- left. replace (idx + 1 - 1 - idx) with 0 in Hr by lia. simpl in Hr.
           destruct Hr as [[= <-] [<- [<- _]]]. reflexivity.
        -- right. exists r. split; [lia|exact Hr].
Qed.

Lemma StronglySorted_map_filter {A : Type} (R : nat -> nat -> Prop) (g : A -> nat)
  (f : A -> bool) (l : list A) :
  StronglySorted R (map g l) -> StronglySorted R (map g (filter f l)).
Proof.
  induction l as [|x l IH]; simpl; intros H; [constructor|].
  inversion H as [|? ? Hs Hf]; subst.
  destruct (f x); [|now apply IH].
  simpl. constructor; [now apply IH|].
  rewrite Forall_map in *. rewrite Forall_forall in *.
  intros y Hy. apply Hf. apply filter_In in Hy. tauto.
Qed.

Lemma loopEnd_sources a b rows :
  JsMap.values (sources (loopEnd a b rows))
  = map sourceNode (firstOccurrences (map srcOf (included a b rows 0))).
Proof.
  unfold loopEnd. rewrite forEach_included.
  destruct (fold_nodesFromKeys (included a b rows 0) noMaps) as [Hs _];
    [split; reflexivity|].
  rewrite Hs. f_equal.
  now apply (fold_keys_empty (fun m => JsMap.keys (sources m)) srcOf addPair
               sources_step).
Qed.

Lemma loopEnd_targets a b rows :
  JsMap.values (targets (loopEnd a b rows))
  = map targetNode (firstOccurrences (map tgtOf (included a b rows 0))).
Proof.
  unfold loopEnd. rewrite forEach_included.
  destruct (fold_nodesFromKeys (included a b rows 0) noMaps) as [_ Ht];
    [split; reflexivity|].
  rewrite Ht. f_equal.
  now apply (fold_keys_empty (fun m => JsMap.keys (targets m)) tgtOf addPair
               targets_step).
Qed.

Lemma loopEnd_keys a b rows :
  JsMap.keys (linkMap (loopEnd a b rows))
  = firstOccurrences (map keyOf (included a b rows 0)).
Proof.
  unfold loopEnd. rewrite forEach_included.
  now apply (fold_keys_empty (fun m => JsMap.keys (linkMap m)) keyOf addPair
               linkMap_step).
Qed.

Lemma loopEnd_get a b rows k :
  JsMap.get (linkMap (loopEnd a b rows)) k
  = match positionsOf a b rows k with
    | [] => None
    | ids => Some (mkEntry (length ids) ids)
    end.
Proof.
  unfold loopEnd. rewrite forEach_included, linkMap_get.
  unfold positionsOf, idsAt. simpl.
  now destruct (map fst (filter (fun p => (keyOf p =? k)%string) (included a b rows 0))).
Qed.

Lemma loopEnd_entry a b rows k e :
  In (k, e) (linkMap (loopEnd a b rows)) <->
  positionsOf a b rows k <> [] /\
  e = mkEntry (length (positionsOf a b rows k)) (positionsOf a b rows k).
Proof.
  assert (Hnd : NoDup (JsMap.keys (linkMap (loopEnd a b rows)))).
  { rewrite loopEnd_keys. apply NoDup_firstOccurrences. }
  split.
  - intros H. apply (In_get _ _ _ Hnd) in H. rewrite loopEnd_get in H.
    destruct (positionsOf a b rows k); [discriminate|].
    injection H as <-. split; [discriminate|reflexivity].
  - intros [Hne ->]. apply get_In. rewrite loopEnd_get.
    destruct (positionsOf a b rows k); [contradiction|reflexivity].
Qed.

(** [buildGraph] returns whenever D3 is loaded, and this is what it returns. *)
Lemma buildGraph_loaded rows a b :
  exists n,
    buildGraph true rows a b
    = Normal (mkBuildResult
                (mkGraph (JsMap.values (sources (loopEnd a b rows))
                          ++ JsMap.values (targets (loopEnd a b rows)))
                         (map linkOf (linkMap (loopEnd a b rows))))
                (linkMap (loopEnd a b rows)) n).
Proof. unfold buildGraph. eexists. reflexivity. Qed.

Lemma forEach_app {A St : Type} (f : St -> A -> nat -> St) (l1 l2 : list A) :
  forall idx st,
    forEach f (l1 ++ l2) idx st = forEach f l2 (idx + length l1) (forEach f l1 idx st).
Proof.
  induction l1 as [|x l1 IH]; intros idx st; simpl.
  - now rewrite Nat.add_0_r.
  - rewrite IH. f_equal. lia.
Qed.

Lemma entries_from_keys {V : Type} (F : string -> V) (m : JsMap.t V) :
  (forall k e, In (k, e) m -> e = F k) ->
  m = map (fun k => (k, F k)) (JsMap.keys m).
Proof.
  induction m as [|[k e] m IH]; intros H; simpl; [reflexivity|].
  rewrite (H k e (or_introl eq_refl)). f_equal.
  apply IH. intros k' e' Hin. apply H. now right.
Qed.

(* ================================================================= *)
(** ** The graph builder: the claims *)

(** C1. Row exclusion. A row whose trimmed value in the source column or in
    the target column is empty contributes nothing: the callback leaves the
    three maps as they were (no node, no link, no increment), the result
    of [buildGraph] is the one obtained with the empty object in the row's
    place, and the row's 1-based position is in no [refIds]. *)
Theorem row_exclusion :
  forall (a b : string) (pre : list Row) (row : Row) (post : list Row),
    excluded a b row ->
    (forall m idx, eachRow a b m row idx = m)
    /\ (forall d3g, buildGraph d3g (pre ++ row :: post) a b
                    = buildGraph d3g (pre ++ [] :: post) a b)
    /\ exists r,
         buildGraph true (pre ++ row :: post) a b = Normal r
         /\ forall k e, In (k, e) (byLinkKey r) -> ~ In (length pre + 1) (refIds e).
Proof.
  intros a b pre row post Hex. split; [|split].
  - intros m idx. now apply eachRow_excluded.
  - intros d3g. unfold buildGraph. rewrite !forEach_app. simpl.
    rewrite (eachRow_excluded a b _ row _ Hex).
    rewrite (eachRow_excluded a b _ [] _); [reflexivity|now left].
  - destruct (buildGraph_loaded (pre ++ row :: post) a b) as [n Hn].
    eexists. split; [exact Hn|]. simpl. intros k e Hin Hi.
    apply loopEnd_entry in Hin. destruct Hin as [_ ->]. simpl in Hi.
    unfold positionsOf in Hi. apply in_map_iff in Hi.
    destruct Hi as [[i [s t]] [Hi Hp]]. simpl in Hi. subst i.
    apply filter_In in Hp. destruct Hp as [Hp _].
    apply included_spec in Hp. destruct Hp as [row' [_ [Hnth [Hs [Ht [Hs' Ht']]]]]].
    replace (length pre + 1 - 1 - 0) with (length pre) in Hnth by lia.
    rewrite nth_error_app2, Nat.sub_diag in Hnth by lia. simpl in Hnth.
    injection Hnth as <-. destruct Hex; congruence.
Qed.

Lemma row_exclusion_witness :
  excluded "A" "B" [("A", SString "x"); ("B", SString EmptyString)]
  /\ exists r,
       buildGraph true scenarioRows "A" "B" = Normal r
       /\ forall k e, In (k, e) (byLinkKey r) -> ~ In 4 (refIds e).
Proof.
  assert (H : excluded "A" "B" [("A", SString "x"); ("B", SString EmptyString)])
    by (right; reflexivity).
  split; [exact H|].
  exact (proj2 (proj2 (row_exclusion "A" "B"
                         [ [("A", SString "x"); ("B", SString "p")];
                           [("A", SString "x"); ("B", SString "p")];
                           [("A", SString "y"); ("B", SString "p")] ]
                         [("A", SString "x"); ("B", SString EmptyString)] [] H))).
Defined.

(** X22. Counts and reference numbers of an entry. For every entry of
    the [byLinkKey] that [buildGraph] returns: [count] is the length of
    [refIds]; [refIds] lists, in row order, the 1-based positions of the
    included rows whose values, joined by the separator, are the entry's
    key, so it is strictly increasing; and the link made from the entry
    carries that count as its [value]. *)
Theorem aggregation_and_reference_numbering :
  forall (rows : list Row) (a b : string),
  exists r,
    buildGraph true rows a b = Normal r
    /\ map value (links (graph r)) = map (fun kv => length (refIds (snd kv))) (byLinkKey r)
    /\ forall k e,
         In (k, e) (byLinkKey r) ->
         count e = length (refIds e)
         /\ 1 <= count e
         /\ refIds e = positionsOf a b rows k
         /\ StronglySorted lt (refIds e)
         /\ forall i,
              In i (refIds e) <->
              exists row, 1 <= i /\ nth_error rows (i - 1) = Some row
                          /\ ~ excluded a b row
                          /\ linkKey (getVal row a) (getVal row b) = k.
Proof.
  intros rows a b. destruct (buildGraph_loaded rows a b) as [n Hn].
  eexists. split; [exact Hn|]. simpl. split.
  - rewrite map_map. apply map_ext_in. intros [k e] Hin. simpl.
    apply loopEnd_entry in Hin. now destruct Hin as [_ ->].
  - intros k e Hin. apply loopEnd_entry in Hin. destruct Hin as [Hne ->]. simpl.
    repeat split.
    + destruct (positionsOf a b rows k); [contradiction|simpl; lia].
    + unfold positionsOf. apply StronglySorted_map_filter, included_sorted.
    + unfold positionsOf. intros Hi. apply in_map_iff in Hi.
      destruct Hi as [[j [s t]] [Hj Hp]]. simpl in Hj. subst j.
      apply filter_In in Hp. destruct Hp as [Hp Hk].
      apply String.eqb_eq in Hk. unfold keyOf, srcOf, tgtOf in Hk. simpl in Hk.
      apply included_spec in Hp.
      destruct Hp as [row [Hlt [Hnth [Hs [Ht [Hs' Ht']]]]]].
      exists row. rewrite Nat.sub_0_r in Hnth.
      repeat split; [lia|exact Hnth| |congruence].
      unfold excluded. intros [H|H]; congruence.
    + unfold positionsOf. intros [row [Hi [Hnth [Hex Hk]]]].
      apply in_map_iff. exists (i, (getVal row a, getVal row b)). split; [reflexivity|].
      apply filter_In. split.
      * apply included_spec. exists row. rewrite Nat.sub_0_r.
        unfold excluded in Hex.
        repeat split; try reflexivity; try assumption; try lia;
          intros H; apply Hex; tauto.
      * apply String.eqb_eq. exact Hk.
Qed.

Lemma aggregation_and_reference_numbering_witness :
  exists r,
    buildGraph true scenarioRows "A" "B" = Normal r
    /\ In ("x|||p", mkEntry 2 [1; 2]) (byLinkKey r)
    /\ refIds (mkEntry 2 [1; 2]) = positionsOf "A" "B" scenarioRows "x|||p"
    /\ StronglySorted lt (refIds (mkEntry 2 [1; 2])).
Proof.
  destruct (aggregation_and_reference_numbering scenarioRows "A" "B") as [r [Hr [_ H]]].
  assert (Hin : In ("x|||p", mkEntry 2 [1; 2]) (byLinkKey r)).
  { vm_compute in Hr. injection Hr as <-. left. reflexivity. }
  destruct (H _ _ Hin) as [_ [_ [H2 [H3 _]]]].
  exists r. repeat split; assumption.
Defined.

Lemma sourceNode_key_injective : Injective (fun s => (side (sourceNode s), name (sourceNode s))).
Proof. intros s s' H. now injection H. Qed.

Lemma targetNode_key_injective : Injective (fun t => (side (targetNode t), name (targetNode t))).
Proof. intros s s' H. now injection H. Qed.

Lemma sourceNode_id_injective : Injective (fun s => id (sourceNode s)).
Proof. intros s s' H. simpl in H. now injection H. Qed.

Lemma targetNode_id_injective : Injective (fun t => id (targetNode t)).
Proof. intros s s' H. simpl in H. now injection H. Qed.

(** C5. Node identity. The nodes [buildGraph] returns are pairwise distinct
    in (side, value) and in id; an id is the role prefix of the side
    followed by the value; and a value met both in the source column and in
    the target column of included rows has two nodes, one per side, whose
    ids differ. *)
Theorem node_identity :
  forall (rows : list Row) (a b : string),
  exists r,
    buildGraph true rows a b = Normal r
    /\ NoDup (map (fun n => (side n, name n)) (nodes (graph r)))
    /\ NoDup (map id (nodes (graph r)))
    /\ (forall n, In n (nodes (graph r)) -> id n = (rolePrefix (side n) ++ name n)%string)
    /\ forall v,
         In v (map srcOf (included a b rows 0)) ->
         In v (map tgtOf (included a b rows 0)) ->
         In (mkNode ("S:" ++ v) v left) (nodes (graph r))
         /\ In (mkNode ("T:" ++ v) v right) (nodes (graph r))
         /\ ("S:" ++ v)%string <> ("T:" ++ v)%string.
Proof.
  intros rows a b. destruct (buildGraph_loaded rows a b) as [n Hn].
  eexists. split; [exact Hn|]. simpl.
  rewrite loopEnd_sources, loopEnd_targets.
  set (ss := firstOccurrences (map srcOf (included a b rows 0))).
  set (ts := firstOccurrences (map tgtOf (included a b rows 0))).
  assert (Hss : NoDup ss) by apply NoDup_firstOccurrences.
  assert (Hts : NoDup ts) by apply NoDup_firstOccurrences.
  split; [|split; [|split]].
  - rewrite map_app, !map_map. apply NoDup_app.
    + now apply Injective_map_NoDup; [apply sourceNode_key_injective|].
    + now apply Injective_map_NoDup; [apply targetNode_key_injective|].
    + intros x Hx Hx'. apply in_map_iff in Hx. apply in_map_iff in Hx'.
      destruct Hx as [s [<- _]]. destruct Hx' as [t [Ht _]]. discriminate.
  - rewrite map_app, !map_map. apply NoDup_app.
    + now apply Injective_map_NoDup; [apply sourceNode_id_injective|].
    + now apply Injective_map_NoDup; [apply targetNode_id_injective|].
    + intros x Hx Hx'. apply in_map_iff in Hx. apply in_map_iff in Hx'.
      destruct Hx as [s [<- _]]. destruct Hx' as [t [Ht _]]. discriminate.
  - intros nd Hin. apply in_app_or in Hin.
    destruct Hin as [Hin|Hin]; apply in_map_iff in Hin; destruct Hin as [x [<- _]];
      reflexivity.
  - intros v Hs Ht. repeat split.
    + apply in_or_app. left. apply (in_map sourceNode). now apply In_firstOccurrences.
    + apply in_or_app. right. apply (in_map targetNode). now apply In_firstOccurrences.
    + discriminate.
Qed.

Lemma node_identity_witness :
  exists r,
    buildGraph true [[("A", SString "x"); ("B", SString "x")]] "A" "B" = Normal r
    /\ In (mkNode "S:x" "x" left) (nodes (graph r))
    /\ In (mkNode "T:x" "x" right) (nodes (graph r))
    /\ ("S:x" <> "T:x")%string.
Proof.
  destruct (node_identity [[("A", SString "x"); ("B", SString "x")]] "A" "B")
    as [r [Hr [_ [_ [_ H]]]]].
  destruct (H "x") as [H1 [H2 H3]]; [now left|now left|].
  exists r. repeat split; assumption.
Defined.

(** C3, on two inputs with the separator inside a value. With the single
    row {A: "a|||b", B: "c"} the nodes are [S:a|||b] and [T:c] while the
    link goes from [S:a] to [T:b]: neither end is a node of the graph.
    With the rows {A: "a|||b", B: "c"} and {A: "a", B: "b|||c"} the two
    distinct pairs share one key, so there is one link, of value 2, and
    one entry holding both positions. *)
Theorem separator_in_value_breaks_links :
  (exists r,
     buildGraph true [[("A", SString "a|||b"); ("B", SString "c")]] "A" "B" = Normal r
     /\ map id (nodes (graph r)) = ["S:a|||b"; "T:c"]
     /\ links (graph r) = [mkLink "S:a" "T:b" 1]
     /\ ~ (forall l, In l (links (graph r)) ->
                     In (source l) (map id (nodes (graph r)))
                     /\ In (target l) (map id (nodes (graph r)))))
  /\ (exists r,
        buildGraph true [[("A", SString "a|||b"); ("B", SString "c")];
                         [("A", SString "a"); ("B", SString "b|||c")]] "A" "B"
        = Normal r
        /\ map snd (included "A" "B"
                      [[("A", SString "a|||b"); ("B", SString "c")];
                       [("A", SString "a"); ("B", SString "b|||c")]] 0)
           = [("a|||b", "c"); ("a", "b|||c")]
        /\ links (graph r) = [mkLink "S:a" "T:b" 2]
        /\ byLinkKey r = [("a|||b|||c", mkEntry 2 [1; 2])]).
Proof.
  split.
  - eexists. split; [reflexivity|]. split; [reflexivity|]. split; [reflexivity|].
    intros H. destruct (H (mkLink "S:a" "T:b" 1)) as [Hs _]; [now left|].
    simpl in Hs. destruct Hs as [Hs|[Hs|[]]]; discriminate.
  - eexists. repeat split.
Qed.


(** C2, on two rows with the separator inside a value. The rows
    {A: "a|||b", B: "c"} and {A: "a", B: "b|||c"} hold two different pairs
    of values; the rows that produced the first pair are at position 1
    only, those that produced the second at position 2 only. Both pairs
    make the key [a|||b|||c], so [byLinkKey] has a single entry, of count
    2, whose [refIds] are [1; 2]: the list of neither pair. *)
Theorem separator_merges_the_references_of_two_pairs :
  exists r,
    buildGraph true [[("A", SString "a|||b"); ("B", SString "c")];
                     [("A", SString "a"); ("B", SString "b|||c")]] "A" "B"
    = Normal r
    /\ included "A" "B" [[("A", SString "a|||b"); ("B", SString "c")];
                         [("A", SString "a"); ("B", SString "b|||c")]] 0
       = [(1, ("a|||b", "c")); (2, ("a", "b|||c"))]
    /\ positionsOfPair "A" "B" [[("A", SString "a|||b"); ("B", SString "c")];
                                [("A", SString "a"); ("B", SString "b|||c")]]
         "a|||b" "c" = [1]
    /\ positionsOfPair "A" "B" [[("A", SString "a|||b"); ("B", SString "c")];
                                [("A", SString "a"); ("B", SString "b|||c")]]
         "a" "b|||c" = [2]
    /\ byLinkKey r = [("a|||b|||c", mkEntry 2 [1; 2])]
    /\ links (graph r) = [mkLink "S:a" "T:b" 2]
    /\ forall k e, In (k, e) (byLinkKey r) -> refIds e <> [1] /\ refIds e <> [2].
Proof.
  eexists. split; [reflexivity|]. split; [reflexivity|]. split; [reflexivity|].
  split; [reflexivity|]. split; [reflexivity|]. split; [reflexivity|].
  intros k e [H|[]]. injection H as _ <-. split; discriminate.
Qed.

(** C4, on three rows with the separator inside a value. The rows
    {A: "a|||b", B: "c"}, {A: "x", B: "y"} and {A: "a", B: "b|||c"} hold
    three different pairs, first met in this order. The links are not in
    the order of the pairs, one for each: there are two, the first made of
    the first and the third row together, with ends [S:a] and [T:b]. *)
Theorem separator_breaks_the_order_of_the_links :
  exists r,
    buildGraph true [[("A", SString "a|||b"); ("B", SString "c")];
                     [("A", SString "x"); ("B", SString "y")];
                     [("A", SString "a"); ("B", SString "b|||c")]] "A" "B"
    = Normal r
    /\ included "A" "B" [[("A", SString "a|||b"); ("B", SString "c")];
                         [("A", SString "x"); ("B", SString "y")];
                         [("A", SString "a"); ("B", SString "b|||c")]] 0
       = [(1, ("a|||b", "c")); (2, ("x", "y")); (3, ("a", "b|||c"))]
    /\ firstPairs [("a|||b", "c"); ("x", "y"); ("a", "b|||c")]
       = [("a|||b", "c"); ("x", "y"); ("a", "b|||c")]
    /\ map id (nodes (graph r)) = ["S:a|||b"; "S:x"; "S:a"; "T:c"; "T:y"; "T:b|||c"]
    /\ links (graph r) = [mkLink "S:a" "T:b" 2; mkLink "S:x" "T:y" 1]
    /\ byLinkKey r = [("a|||b|||c", mkEntry 2 [1; 3]); ("x|||y", mkEntry 1 [2])].
Proof. eexists. repeat split. Qed.

(* ================================================================= *)
(** ** The guards of the renderer *)

Lemma included_none a b rows :
  (forall row, In row rows -> excluded a b row) ->
  forall idx, included a b rows idx = [].
Proof.
  induction rows as [|row rows IH]; intros H idx; simpl; [reflexivity|].
  destruct (H row (or_introl eq_refl)) as [E|E]; rewrite E; simpl.
  - apply IH. intros r Hr. apply H. now right.
  - rewrite orb_true_r. apply IH. intros r Hr. apply H. now right.
Qed.

(** C9, on a row with the separator inside a value. With D3 loaded and
    both columns selected, the single row {A: "a|||b", B: "c"} passes the
    two guards of [renderSankey]: a graph of two nodes and one link is
    built and [sankey(graph)] is called on it. The link runs from [S:a] to
    [T:b], and neither is the id of a node. The layout, set up with
    [nodeId(d => d.id)], looks the ends of every link up among the node
    ids and throws [Error("missing: S:a")]. *)
Theorem separator_in_value_reaches_the_layout :
  exists r,
    renderSankey true 0 0 [[("A", SString "a|||b"); ("B", SString "c")]]
      (mkConfig (Some "A") (Some "B") false)
    = Normal (Drawing 800 480 r)
    /\ map id (nodes (graph r)) = ["S:a|||b"; "T:c"]
    /\ links (graph r) = [mkLink "S:a" "T:b" 1]
    /\ unresolved (graph r) = ["S:a"; "T:b"].
Proof. eexists. repeat split. Qed.

(** C10. The two rendering modules build the same thing: on all rows and
    all column selections, and whether D3 is loaded or not, the older
    module's [buildGraph] completes as the current one does, with the same
    nodes in the same order, the same links, the same keys, counts and
    positions. *)
Theorem older_module_builds_the_same_graph :
  forall (d3g : bool) (rows : list Row) (a b : string),
    Older.buildGraph d3g rows a b = buildGraph d3g rows a b.
Proof.
  intros d3g rows a b. unfold Older.buildGraph, buildGraph.
  assert (Hrow : forall m row idx, Older.eachRow a b m row idx = eachRow a b m row idx)
    by reflexivity.
  assert (Hloop : forall l idx m,
            forEach (Older.eachRow a b) l idx m = forEach (eachRow a b) l idx m).
  { induction l as [|row l IH]; intros idx m; simpl; [reflexivity|].
    now rewrite Hrow, IH. }
  rewrite Hloop. reflexivity.
Qed.

(* ================================================================= *)
(** ** Numbers: rounding and order *)

Section Binary64.
#[local] Open Scope Z_scope.

Lemma digits_bounds p :
  2 ^ (Zpos (digits2_pos p) - 1) <= Zpos p < 2 ^ Zpos (digits2_pos p).
Proof.
  induction p as [p IH|p IH|]; cbn [digits2_pos]; rewrite ?Pos2Z.inj_succ.
  - replace (Z.succ (Z.pos (digits2_pos p)) - 1) with (Z.succ (Z.pos (digits2_pos p) - 1)) by lia.
    rewrite !Z.pow_succ_r by lia. lia.
  - replace (Z.succ (Z.pos (digits2_pos p)) - 1) with (Z.succ (Z.pos (digits2_pos p) - 1)) by lia.
    rewrite !Z.pow_succ_r by lia. lia.
  - simpl. lia.
Qed.

Lemma pow2_pos k : 0 < 2 ^ k \/ (k < 0 /\ 2 ^ k = 0).
Proof.
  destruct (Z_lt_le_dec k 0) as [H|H].
  - right. split; [exact H|]. now apply Z.pow_neg_r.
  - left. now apply Z.pow_pos_nonneg.
Qed.

Lemma pow2_gt0 k : 0 <= k -> 0 < 2 ^ k.
Proof. intros. now apply Z.pow_pos_nonneg. Qed.

Lemma pow2_le a b : 0 <= a <= b -> 2 ^ a <= 2 ^ b.
Proof. intros. apply Z.pow_le_mono_r; lia. Qed.

Lemma pow2_lt_inv a b : 0 <= a -> 0 <= b -> 2 ^ a < 2 ^ b -> a < b.
Proof. intros Ha Hb H. apply (Z.pow_lt_mono_r_iff 2); lia. Qed.

Lemma digits_unique p d :
  2 ^ (d - 1) <= Zpos p < 2 ^ d -> Zpos (digits2_pos p) = d.
Proof.
  intros [H1 H2]. pose proof (digits_bounds p) as [H3 H4].
  assert (0 < d).
  { destruct (Z_lt_le_dec 0 d); [assumption|].
    destruct (Z.eq_dec d 0) as [->|]; [simpl in H2; lia|].
    rewrite Z.pow_neg_r in H2 by lia. lia. }
  assert (d - 1 < Zpos (digits2_pos p)) by (apply pow2_lt_inv; lia).
  assert (Zpos (digits2_pos p) - 1 < d) by (apply pow2_lt_inv; lia).
  lia.
Qed.

Lemma digits_shift p a :
  0 <= a -> Zdigits2 (Zpos p * 2 ^ a) = Zpos (digits2_pos p) + a.
Proof.
  intros Ha. pose proof (pow2_gt0 a Ha).
  destruct (Zpos p * 2 ^ a) as [|q|q] eqn:E; try lia.
  cbn [Zdigits2]. apply digits_unique. rewrite <- E.
  pose proof (digits_bounds p) as [H1 H2].
  replace (Zpos (digits2_pos p) + a - 1) with ((Zpos (digits2_pos p) - 1) + a) by lia.
  rewrite !Z.pow_add_r by lia. split; nia.
Qed.

Lemma iter_pos_nat {A : Type} (f : A -> A) p :
  forall x, iter_pos f p x = Nat.iter (Pos.to_nat p) f x.
Proof.
  induction p as [p IH|p IH|]; intros x; cbn [iter_pos].
  - rewrite !IH, Pos2Nat.inj_xI. rewrite <- Nat.iter_add.
    replace (S (2 * Pos.to_nat p)) with (S (Pos.to_nat p + Pos.to_nat p))%nat by lia.
    now rewrite Nat.iter_succ_r.
  - rewrite !IH, Pos2Nat.inj_xO. rewrite <- Nat.iter_add.
    f_equal. lia.
  - reflexivity.
Qed.

Lemma shr_1_inv m k st : 0 <= k -> shrInv m k st -> shrInv m (k + 1) (shr_1 st).
Proof.
  intros Hk [Hq [rem [Hm [Hrem Hloc]]]].
  destruct st as [q r s]. cbn [shr_m] in *.
  pose proof (pow2_gt0 k Hk) as Hp.
  assert (Hrs : orb r s = negb (rem =? 0)).
  { unfold locOf in Hloc. destruct (rem =? 0); destruct r, s; cbn in Hloc;
      try discriminate; reflexivity. }
  assert (Hp2 : 2 ^ (k + 1) = 2 ^ k * 2) by (rewrite Z.pow_add_r, Z.pow_1_r by lia; lia).
  unfold shrInv, shr_1. rewrite Hrs, Hp2.
  destruct q as [|[p|p|]|p]; cbn [shr_m]; try lia.
  - split; [lia|]. exists rem. split; [lia|]. split; [lia|].
    unfold locOf. rewrite Hp2. destruct (Z.eqb_spec rem 0) as [->|Hne]; cbn [loc_of_shr_record negb]; [reflexivity|].
    replace (2 * rem ?= 2 ^ k * 2) with Lt; [reflexivity|].
    symmetry. apply Z.compare_lt_iff. lia.
  - split; [lia|]. exists (rem + 2 ^ k). split; [lia|]. split; [lia|].
    unfold locOf. rewrite Hp2.
    destruct (Z.eqb_spec (rem + 2 ^ k) 0) as [E|_]; [lia|].
    destruct (Z.eqb_spec rem 0) as [->|Hne]; cbn [loc_of_shr_record negb].
    + replace (2 * (0 + 2 ^ k) ?= 2 ^ k * 2) with Eq; [reflexivity|].
      symmetry. apply Z.compare_eq_iff. lia.
    + replace (2 * (rem + 2 ^ k) ?= 2 ^ k * 2) with Gt; [reflexivity|].
      symmetry. apply Z.compare_gt_iff. lia.
  - split; [lia|]. exists rem. split; [lia|]. split; [lia|].
    unfold locOf. rewrite Hp2.
    destruct (Z.eqb_spec rem 0) as [->|Hne]; cbn [loc_of_shr_record negb]; [reflexivity|].
    replace (2 * rem ?= 2 ^ k * 2) with Lt; [reflexivity|].
    symmetry. apply Z.compare_lt_iff. lia.
  - split; [lia|]. exists (rem + 2 ^ k). split; [lia|]. split; [lia|].
    unfold locOf. rewrite Hp2.
    destruct (Z.eqb_spec (rem + 2 ^ k) 0) as [E|_]; [lia|].
    destruct (Z.eqb_spec rem 0) as [->|Hne]; cbn [loc_of_shr_record negb].
    + replace (2 * (0 + 2 ^ k) ?= 2 ^ k * 2) with Eq; [reflexivity|].
      symmetry. apply Z.compare_eq_iff. lia.
    + replace (2 * (rem + 2 ^ k) ?= 2 ^ k * 2) with Gt; [reflexivity|].
      symmetry. apply Z.compare_gt_iff. lia.
Qed.

Lemma shr_iter_inv m st n :
  shrInv m 0 st -> shrInv m (Z.of_nat n) (Nat.iter n shr_1 st).
Proof.
  intros H. induction n as [|n IH]; [exact H|].
  rewrite Nat2Z.inj_succ. cbn [Nat.iter nat_rect].
  replace (Z.succ (Z.of_nat n)) with (Z.of_nat n + 1) by lia.
  apply shr_1_inv; [lia|exact IH].
Qed.

Lemma shrInv_start m : 0 <= m -> shrInv m 0 (shr_record_of_loc m loc_Exact).
Proof.
  intros H. split; [exact H|]. exists 0. cbn. repeat split; lia.
Qed.

Lemma shr_spec m e n :
  0 <= m -> 0 <= n ->
  snd (shr (shr_record_of_loc m loc_Exact) e n) = e + n
  /\ shrInv m n (fst (shr (shr_record_of_loc m loc_Exact) e n)).
Proof.
  intros Hm Hn. destruct n as [|p|p]; cbn [shr fst snd]; try lia.
  - split; [lia|]. now apply shrInv_start.
  - split; [reflexivity|]. rewrite iter_pos_nat.
    rewrite <- (positive_nat_Z p) at 1. apply shr_iter_inv. now apply shrInv_start.
Qed.

(** What [round_nearest_even] makes of a shifted mantissa. *)
Lemma round_shr m k st :
  0 <= k -> shrInv m k st ->
  round_nearest_even (shr_m st) (loc_of_shr_record st) = roundAt m k.
Proof.
  intros Hk [Hq [rem [Hm [Hrem Hloc]]]]. rewrite Hloc.
  pose proof (pow2_gt0 k Hk) as Hp.
  assert (Hd : m / 2 ^ k = shr_m st).
  { rewrite Hm. rewrite Z.div_add_l by lia. rewrite Z.div_small by lia. lia. }
  assert (Hr : m mod 2 ^ k = rem).
  { rewrite Hm. rewrite Z.add_comm, Z.mod_add by lia. apply Z.mod_small. lia. }
  unfold roundAt. rewrite Hd, Hr. unfold locOf, round_nearest_even.
  destruct (Z.eqb_spec rem 0) as [->|Hne].
  - destruct (Z.ltb_spec (2 ^ k) (2 * 0)); [lia|].
    destruct (Z.eqb_spec (2 ^ k) (2 * 0)); [lia|]. reflexivity.
  - destruct (Z.compare_spec (2 * rem) (2 ^ k)) as [E|E|E].
    + destruct (Z.ltb_spec (2 ^ k) (2 * rem)); [lia|].
      destruct (Z.eqb_spec (2 ^ k) (2 * rem)); [|lia].
      cbn. rewrite <- Z.negb_odd. now destruct (Z.odd (shr_m st)).
    + destruct (Z.ltb_spec (2 ^ k) (2 * rem)); [lia|].
      destruct (Z.eqb_spec (2 ^ k) (2 * rem)); [lia|]. reflexivity.
    + destruct (Z.ltb_spec (2 ^ k) (2 * rem)); [|lia]. reflexivity.
Qed.

Lemma roundAt_shift m k a :
  0 <= k -> 0 <= a -> roundAt (m * 2 ^ a) (k + a) = roundAt m k.
Proof.
  intros Hk Ha. unfold roundAt.
  pose proof (pow2_gt0 k Hk). pose proof (pow2_gt0 a Ha).
  rewrite Z.pow_add_r by lia.
  rewrite Z.div_mul_cancel_r by lia.
  rewrite Z.mul_mod_distr_r by lia.
  set (q := m / 2 ^ k). set (r := m mod 2 ^ k).
  replace (2 ^ k * 2 ^ a <? 2 * (r * 2 ^ a)) with (2 ^ k <? 2 * r).
  2:{ destruct (Z.ltb_spec (2 ^ k) (2 * r)), (Z.ltb_spec (2 ^ k * 2 ^ a) (2 * (r * 2 ^ a)));
      try reflexivity; nia. }
  replace (2 ^ k * 2 ^ a =? 2 * (r * 2 ^ a)) with (2 ^ k =? 2 * r).
  2:{ destruct (Z.eqb_spec (2 ^ k) (2 * r)), (Z.eqb_spec (2 ^ k * 2 ^ a) (2 * (r * 2 ^ a)));
      try reflexivity; nia. }
  reflexivity.
Qed.

Lemma roundAt_bounds m k :
  0 <= k -> m / 2 ^ k <= roundAt m k <= m / 2 ^ k + 1.
Proof.
  intros Hk. unfold roundAt.
  destruct ((2 ^ k <? 2 * (m mod 2 ^ k))
            || ((2 ^ k =? 2 * (m mod 2 ^ k)) && Z.odd (m / 2 ^ k))); lia.
Qed.

Lemma roundAt_zero m : roundAt m 0 = m.
Proof.
  unfold roundAt. rewrite Z.pow_0_r, Z.div_1_r, Z.mod_1_r. reflexivity.
Qed.

Lemma second_stage q t w :
  1 <= w <= 53 -> emin64 <= t -> (emin64 < t -> w = 53) ->
  2 ^ (w - 1) <= q <= 2 ^ w ->
  exists p e,
    shr_m (fst (shr_fexp prec emax q t loc_Exact)) = Zpos p
    /\ snd (shr_fexp prec emax q t loc_Exact) = e
    /\ canonical_mantissa prec emax p e = true
    /\ Zpos p * 2 ^ (e - emin64) = q * 2 ^ (t - emin64)
    /\ (emin64 < e -> 2 ^ 52 <= Zpos p)
    /\ emin64 <= e.
Proof.
  intros Hw Ht Hnorm Hq.
  assert (Hw1 : 0 < 2 ^ (w - 1)) by (apply pow2_gt0; lia).
  assert (Hw2 : 2 ^ w = 2 * 2 ^ (w - 1)).
  { replace w with (Z.succ (w - 1)) at 1 by lia. rewrite Z.pow_succ_r by lia. lia. }
  destruct q as [|p|p]; try lia.
  unfold shr_fexp. cbn [Zdigits2].
  destruct (Z.eq_dec (Zpos p) (2 ^ w)) as [Etop|Hlt].
  - (* the carry: q = 2^w *)
    assert (Hd : Zpos (digits2_pos p) = w + 1).
    { apply digits_unique. rewrite Etop. replace (w + 1 - 1) with w by lia.
      rewrite Z.pow_add_r, Z.pow_1_r by lia. lia. }
    rewrite Hd.
    destruct (Z.eq_dec w 53) as [->|Hw53].
    + (* one more shift *)
      assert (Hn : fexp prec emax (53 + 1 + t) - t = 1).
      { unfold fexp, SpecFloat.emin, prec, emax, emin64 in *. lia. }
      rewrite Hn. cbn [shr iter_pos fst snd shr_record_of_loc].
      change (2 ^ 53) with 9007199254740992 in Etop.
      injection Etop as ->. cbn [shr_1 shr_m].
      exists 4503599627370496%positive, (t + 1). repeat split.
      * unfold canonical_mantissa. apply Z.eqb_eq.
        change (Zpos (digits2_pos 4503599627370496)) with 53.
        unfold fexp, SpecFloat.emin, prec, emax, emin64 in *. lia.
      * replace (t + 1 - emin64) with (Z.succ (t - emin64)) by lia.
        rewrite Z.pow_succ_r by lia. lia.
      * intros _. change (2 ^ 52) with 4503599627370496. lia.
      * lia.
    + assert (Hte : t = emin64) by lia.
      assert (Hn : fexp prec emax (w + 1 + t) - t = 0).
      { unfold fexp, SpecFloat.emin, prec, emax, emin64 in *. lia. }
      rewrite Hn. cbn [shr fst snd shr_record_of_loc shr_m].
      exists p, t. repeat split; try lia.
      unfold canonical_mantissa. apply Z.eqb_eq. rewrite Hd.
      unfold fexp, SpecFloat.emin, prec, emax, emin64 in *. lia.
  - assert (Hd : Zpos (digits2_pos p) = w).
    { apply digits_unique. lia. }
    rewrite Hd.
    assert (Hn : fexp prec emax (w + t) - t = 0).
    { unfold fexp, SpecFloat.emin, prec, emax, emin64 in *. lia. }
    rewrite Hn. cbn [shr fst snd shr_record_of_loc shr_m].
    exists p, t. repeat split; try lia.
    + unfold canonical_mantissa. apply Z.eqb_eq. rewrite Hd.
      unfold fexp, SpecFloat.emin, prec, emax, emin64 in *. lia.
    + intros Ht'. rewrite (Hnorm Ht') in Hq. change (2 ^ 52) with (2 ^ (53 - 1)). lia.
Qed.

Lemma canonical_bounds p e :
  canonical_mantissa prec emax p e = true ->
  emin64 <= e /\ Zpos (digits2_pos p) <= 53
  /\ (emin64 < e -> Zpos (digits2_pos p) = 53).
Proof.
  unfold canonical_mantissa. intros H. apply Z.eqb_eq in H.
  unfold fexp, SpecFloat.emin, prec, emax, emin64 in *. lia.
Qed.

Lemma scaled_pos p e : emin64 <= e -> 0 < scaled p e.
Proof.
  intros H. unfold scaled. pose proof (pow2_gt0 (e - emin64)). lia.
Qed.

Lemma scaled_lt_top p e : bounded prec emax p e = true -> 0 < scaled p e < top.
Proof.
  unfold bounded. intros H. apply andb_true_iff in H. destruct H as [Hc He].
  apply Z.leb_le in He. destruct (canonical_bounds p e Hc) as [H1 [H2 _]].
  split; [now apply scaled_pos|].
  unfold scaled. pose proof (digits_bounds p) as [_ H3].
  assert (Zpos p < 2 ^ 53).
  { eapply Z.lt_le_trans; [exact H3|]. apply pow2_le. lia. }
  assert (2 ^ (e - emin64) <= 2 ^ 2045).
  { apply pow2_le. unfold emin64, emax, prec in *. lia. }
  assert (Hx : 0 < 2 ^ (e - emin64)) by (apply pow2_gt0; lia).
  unfold top. change (2 ^ 2098) with (2 ^ 53 * 2 ^ 2045).
  apply Z.lt_le_trans with (2 ^ 53 * 2 ^ (e - emin64)).
  - apply Z.mul_lt_mono_pos_r; assumption.
  - apply Z.mul_le_mono_nonneg_l; [apply Z.pow_nonneg; lia|assumption].
Qed.

Lemma rne_scaled M e :
  emin64 <= e -> e <= fexp prec emax (Zpos (digits2_pos M) + e) ->
  rne (scaled M e)
  = roundAt (Zpos M) (fexp prec emax (Zpos (digits2_pos M) + e) - e)
    * 2 ^ (fexp prec emax (Zpos (digits2_pos M) + e) - emin64).
Proof.
  intros He Ht. unfold rne, scaled. rewrite digits_shift by lia.
  set (t := fexp prec emax (Zpos (digits2_pos M) + e)) in *.
  assert (HK : Z.max 0 (Zpos (digits2_pos M) + (e - emin64) - prec) = (t - e) + (e - emin64)).
  { unfold t, fexp, SpecFloat.emin, prec, emax, emin64 in *. lia. }
  rewrite HK. rewrite roundAt_shift by lia. f_equal. f_equal. lia.
Qed.

Lemma round_aux_spec sx M e :
  emin64 <= e -> e <= fexp prec emax (Zpos (digits2_pos M) + e) ->
  proper (binary_round_aux prec emax sx (Zpos M) e loc_Exact) = true
  /\ rank (binary_round_aux prec emax sx (Zpos M) e loc_Exact)
     = cond_Zopp sx (Z.min (rne (scaled M e)) top).
Proof.
  intros He Ht. rewrite (rne_scaled M e He Ht).
  set (d := Zpos (digits2_pos M)) in *.
  set (t := fexp prec emax (d + e)) in *.
  set (k := t - e).
  assert (Hk : 0 <= k) by (unfold k; lia).
  assert (Hw : 1 <= d - k <= 53).
  { unfold k, t, d, fexp, SpecFloat.emin, prec, emax, emin64 in *. lia. }
  assert (Hnorm : emin64 < e + k -> d - k = 53).
  { unfold k, t, d, fexp, SpecFloat.emin, prec, emax, emin64 in *. lia. }
  pose proof (pow2_gt0 k Hk) as Hpk.
  pose proof (digits_bounds M) as [Hlo Hhi]. fold d in Hlo, Hhi.
  assert (Hq : 2 ^ (d - k - 1) <= roundAt (Zpos M) k <= 2 ^ (d - k)).
  { pose proof (roundAt_bounds (Zpos M) k Hk) as [Hb1 Hb2].
    assert (2 ^ (d - k - 1) <= Zpos M / 2 ^ k).
    { apply Z.div_le_lower_bound; [lia|].
      rewrite <- Z.pow_add_r by lia. replace (k + (d - k - 1)) with (d - 1) by lia.
      exact Hlo. }
    assert (Zpos M / 2 ^ k < 2 ^ (d - k)).
    { apply Z.div_lt_upper_bound; [lia|].
      rewrite <- Z.pow_add_r by lia. replace (k + (d - k)) with d by lia.
      exact Hhi. }
    lia. }
  unfold binary_round_aux.
  destruct (shr_spec (Zpos M) e k) as [He1 Hinv]; [lia|exact Hk|].
  change (shr_fexp prec emax (Zpos M) e loc_Exact)
    with (shr (shr_record_of_loc (Zpos M) loc_Exact) e k).
  destruct (shr (shr_record_of_loc (Zpos M) loc_Exact) e k) as [mrs' e'].
  cbn [fst snd] in He1, Hinv. subst e'.
  rewrite (round_shr (Zpos M) k mrs' Hk Hinv).
  destruct (second_stage (roundAt (Zpos M) k) (e + k) (d - k) Hw) as
    [p [e2 [H1 [H2 [H3 [H4 [H5 H6]]]]]]]; [lia|exact Hnorm|exact Hq|].
  destruct (shr_fexp prec emax (roundAt (Zpos M) k) (e + k) loc_Exact) as [mrs2 e2'].
  cbn [fst snd] in H1, H2. subst e2'. rewrite H1.
  replace (t - emin64) with (e + k - emin64) by (unfold k; lia).
  rewrite <- H4. fold (scaled p e2).
  destruct (Z.leb_spec e2 (emax - prec)) as [Hle|Hgt].
  - assert (Hb : bounded prec emax p e2 = true).
    { unfold bounded. rewrite H3. apply Z.leb_le. exact Hle. }
    split.
    + unfold proper. cbn [valid_binary]. now rewrite Hb.
    + cbn [rank]. f_equal. pose proof (scaled_lt_top p e2 Hb). lia.
  - split; [reflexivity|]. cbn [rank]. f_equal.
    assert (top <= scaled p e2); [|lia].
    unfold scaled, top.
    assert (2 ^ 52 <= Zpos p) by (apply H5; unfold emax, prec, emin64 in *; lia).
    assert (2 ^ 2046 <= 2 ^ (e2 - emin64)).
    { apply pow2_le. unfold emax, prec, emin64 in *. lia. }
    change (2 ^ 2098) with (2 ^ 52 * 2 ^ 2046).
    apply Z.mul_le_mono_nonneg; lia.
Qed.

Lemma Zdigits2_bounds n :
  0 < n -> 0 < Zdigits2 n /\ 2 ^ (Zdigits2 n - 1) <= n < 2 ^ Zdigits2 n.
Proof.
  intros H. destruct n as [|p|p]; try lia. cbn [Zdigits2].
  split; [lia|apply digits_bounds].
Qed.

Lemma rne_between n :
  0 < n -> 2 ^ (Zdigits2 n - 1) <= rne n <= 2 ^ Zdigits2 n.
Proof.
  intros Hn. destruct (Zdigits2_bounds n Hn) as [Hd [Hlo Hhi]].
  unfold rne. set (D := Zdigits2 n) in *. set (K := Z.max 0 (D - prec)).
  assert (HK : 0 <= K <= D - 1) by (unfold K, prec; lia).
  pose proof (pow2_gt0 K (proj1 HK)) as HP.
  pose proof (roundAt_bounds n K (proj1 HK)) as [Hb1 Hb2].
  assert (H1 : 2 ^ (D - 1 - K) <= n / 2 ^ K).
  { apply Z.div_le_lower_bound; [lia|].
    rewrite <- Z.pow_add_r by lia. replace (K + (D - 1 - K)) with (D - 1) by lia.
    exact Hlo. }
  assert (H2 : n / 2 ^ K < 2 ^ (D - K)).
  { apply Z.div_lt_upper_bound; [lia|].
    rewrite <- Z.pow_add_r by lia. replace (K + (D - K)) with D by lia. exact Hhi. }
  split.
  - assert (Hpow : 2 ^ (D - 1) = 2 ^ (D - 1 - K) * 2 ^ K).
    { rewrite <- Z.pow_add_r by lia. f_equal. lia. }
    rewrite Hpow. apply Z.mul_le_mono_nonneg_r; lia.
  - assert (Hpow : 2 ^ D = 2 ^ (D - K) * 2 ^ K).
    { rewrite <- Z.pow_add_r by lia. f_equal. lia. }
    rewrite Hpow. apply Z.mul_le_mono_nonneg_r; lia.
Qed.

Lemma roundAt_mono n1 n2 k : 0 <= k -> n1 <= n2 -> roundAt n1 k <= roundAt n2 k.
Proof.
  intros Hk Hn. pose proof (pow2_gt0 k Hk) as HP.
  assert (Hq : n1 / 2 ^ k <= n2 / 2 ^ k) by (apply Z.div_le_mono; lia).
  pose proof (roundAt_bounds n1 k Hk) as [_ Hb1].
  pose proof (roundAt_bounds n2 k Hk) as [Hb2 _].
  destruct (Z.eq_dec (n1 / 2 ^ k) (n2 / 2 ^ k)) as [E|E]; [|lia].
  assert (Hr : n1 mod 2 ^ k <= n2 mod 2 ^ k).
  { pose proof (Z.div_mod n1 (2 ^ k)). pose proof (Z.div_mod n2 (2 ^ k)). nia. }
  unfold roundAt. rewrite E.
  set (q := n2 / 2 ^ k). set (r1 := n1 mod 2 ^ k) in *. set (r2 := n2 mod 2 ^ k) in *.
  destruct (Z.ltb_spec (2 ^ k) (2 * r1)), (Z.ltb_spec (2 ^ k) (2 * r2));
    cbn [orb]; try lia;
  destruct (Z.eqb_spec (2 ^ k) (2 * r1)), (Z.eqb_spec (2 ^ k) (2 * r2));
    cbn [andb]; try lia; destruct (Z.odd q); lia.
Qed.

Lemma Zdigits2_mono n1 n2 : 0 < n1 <= n2 -> Zdigits2 n1 <= Zdigits2 n2.
Proof.
  intros [H1 H2].
  destruct (Zdigits2_bounds n1 H1) as [Hd1 [Hlo1 Hhi1]].
  destruct (Zdigits2_bounds n2) as [Hd2 [Hlo2 Hhi2]]; [lia|].
  destruct (Z_lt_le_dec (Zdigits2 n2) (Zdigits2 n1)) as [C|C]; [|exact C].
  assert (2 ^ Zdigits2 n2 <= 2 ^ (Zdigits2 n1 - 1)) by (apply pow2_le; lia).
  lia.
Qed.

(** Rounding to nearest is monotone. *)
Lemma rne_mono n1 n2 : 0 < n1 <= n2 -> rne n1 <= rne n2.
Proof.
  intros H. pose proof (Zdigits2_mono n1 n2 H) as HD.
  destruct (Z.eq_dec (Zdigits2 n1) (Zdigits2 n2)) as [E|E].
  - unfold rne. rewrite E. set (K := Z.max 0 (Zdigits2 n2 - prec)).
    assert (HK : 0 <= K) by (unfold K; lia).
    pose proof (pow2_gt0 K HK).
    apply Z.mul_le_mono_nonneg_r; [lia|]. apply roundAt_mono; lia.
  - pose proof (rne_between n1) as [_ Hu]; [lia|].
    pose proof (rne_between n2) as [Hl _]; [lia|].
    destruct (Zdigits2_bounds n1) as [Hd1 _]; [lia|].
    assert (2 ^ Zdigits2 n1 <= 2 ^ (Zdigits2 n2 - 1)) by (apply pow2_le; lia).
    lia.
Qed.

Lemma rne_pos n : 0 < n -> 0 < rne n.
Proof.
  intros H. pose proof (rne_between n H) as [Hl _].
  destruct (Zdigits2_bounds n H) as [Hd _].
  pose proof (pow2_gt0 (Zdigits2 n - 1)). lia.
Qed.

(** A representable value is its own rounding. *)
Lemma rne_canonical p e :
  canonical_mantissa prec emax p e = true -> rne (scaled p e) = scaled p e.
Proof.
  intros Hc. destruct (canonical_bounds p e Hc) as [He _].
  unfold canonical_mantissa in Hc. apply Z.eqb_eq in Hc.
  rewrite rne_scaled by lia. rewrite Hc, Z.sub_diag, roundAt_zero. reflexivity.
Qed.

Lemma rne_fixed p e : bounded prec emax p e = true -> rne (scaled p e) = scaled p e.
Proof.
  unfold bounded. intros H. apply andb_true_iff in H. apply rne_canonical, H.
Qed.

Lemma rne_top : rne top = top.
Proof.
  change top with (scaled 4503599627370496 972). apply rne_canonical. reflexivity.
Qed.

Lemma finite_proper x : finite x = true -> proper x = true.
Proof. unfold finite. intros H. apply andb_true_iff in H. apply H. Qed.

Lemma iter_xO m d : Zpos (Pos.iter xO m d) = Zpos m * 2 ^ Zpos d.
Proof.
  change (Pos.iter xO m d) with (shift_pos d m).
  rewrite shift_pos_correct. change (Z.pow_pos 2 d) with (2 ^ Zpos d). lia.
Qed.

Lemma shl_align_spec mx ex ex' :
  snd (shl_align mx ex ex') = Z.min ex ex'
  /\ Zpos (fst (shl_align mx ex ex')) = Zpos mx * 2 ^ (ex - Z.min ex ex').
Proof.
  unfold shl_align. destruct (ex' - ex) as [|d|d] eqn:E; cbn [fst snd].
  - replace (Z.min ex ex') with ex by lia. rewrite Z.sub_diag. simpl. lia.
  - replace (Z.min ex ex') with ex by lia. rewrite Z.sub_diag. simpl. lia.
  - replace (Z.min ex ex') with ex' by lia. split; [reflexivity|].
    rewrite iter_xO. f_equal. f_equal. lia.
Qed.

Lemma round_spec sx M e :
  emin64 <= e ->
  proper (binary_round prec emax sx M e) = true
  /\ rank (binary_round prec emax sx M e)
     = cond_Zopp sx (Z.min (rne (scaled M e)) top).
Proof.
  intros He. unfold binary_round.
  set (t := fexp prec emax (Zpos (digits2_pos M) + e)).
  destruct (shl_align_spec M e t) as [H1 H2].
  destruct (shl_align M e t) as [mz ez]. cbn [fst snd] in H1, H2.
  rewrite <- H1 in H2.
  assert (Ht : emin64 <= t) by (unfold t, fexp, SpecFloat.emin, prec, emax, emin64; lia).
  assert (Hd : Zpos (digits2_pos mz) = Zpos (digits2_pos M) + (e - ez)).
  { pose proof (digits_shift M (e - ez)) as H. rewrite <- H2 in H.
    cbn [Zdigits2] in H. apply H. lia. }
  assert (Hs : scaled mz ez = scaled M e).
  { unfold scaled. rewrite H2. rewrite <- Z.mul_assoc, <- Z.pow_add_r by lia.
    f_equal. f_equal. lia. }
  rewrite <- Hs. apply round_aux_spec; [lia|].
  rewrite Hd. replace (Zpos (digits2_pos M) + (e - ez) + ez)
    with (Zpos (digits2_pos M) + e) by lia.
  fold t. lia.
Qed.

Lemma normalize_spec z e sz :
  emin64 <= e ->
  proper (binary_normalize prec emax z e sz) = true
  /\ rank (binary_normalize prec emax z e sz) = sround (z * 2 ^ (e - emin64)).
Proof.
  intros He. pose proof (pow2_gt0 (e - emin64)) as HP.
  unfold sround. destruct z as [|m|m]; cbn [binary_normalize].
  - split; reflexivity.
  - destruct (round_spec false m e He) as [H1 H2]. split; [exact H1|].
    rewrite H2. cbn [cond_Zopp]. fold (scaled m e).
    pose proof (scaled_pos m e He).
    rewrite Z.sgn_pos, Z.abs_eq by lia. lia.
  - destruct (round_spec true m e He) as [H1 H2]. split; [exact H1|].
    rewrite H2. cbn [cond_Zopp].
    pose proof (scaled_pos m e He) as Hs. unfold scaled in Hs.
    replace (Z.neg m * 2 ^ (e - emin64)) with (- (Zpos m * 2 ^ (e - emin64))) by lia.
    rewrite Z.sgn_neg, Z.abs_neq by lia. rewrite Z.opp_involutive.
    fold (scaled m e). lia.
Qed.

Lemma sround_fixed s m e :
  bounded prec emax m e = true ->
  sround (cond_Zopp s (scaled m e)) = cond_Zopp s (scaled m e).
Proof.
  intros Hb. pose proof (scaled_lt_top m e Hb) as [H1 H2].
  pose proof (rne_fixed m e Hb) as Hr.
  unfold sround. destruct s; cbn [cond_Zopp].
  - rewrite Z.sgn_neg, Z.abs_neq by lia. rewrite Z.opp_involutive, Hr. lia.
  - rewrite Z.sgn_pos, Z.abs_eq by lia. rewrite Hr. lia.
Qed.

Lemma finite_cases x :
  finite x = true ->
  (exists s, x = S754_zero s)
  \/ (exists s m e, x = S754_finite s m e /\ bounded prec emax m e = true).
Proof.
  unfold finite, proper. destruct x as [s|s| |s m e]; cbn; intros H; try discriminate.
  - left. now exists s.
  - right. exists s, m, e. split; [reflexivity|].
    rewrite !andb_true_r in H. exact H.
Qed.

Lemma aligned_rank s m e ez :
  emin64 <= ez -> ez <= e ->
  cond_Zopp s (Zpos (fst (shl_align m e ez))) * 2 ^ (ez - emin64)
  = cond_Zopp s (scaled m e).
Proof.
  intros H1 H2. destruct (shl_align_spec m e ez) as [_ H]. rewrite H.
  replace (Z.min e ez) with ez by lia. unfold scaled.
  assert (Zpos m * 2 ^ (e - ez) * 2 ^ (ez - emin64) = Zpos m * 2 ^ (e - emin64)).
  { rewrite <- Z.mul_assoc, <- Z.pow_add_r by lia. f_equal. f_equal. lia. }
  destruct s; cbn [cond_Zopp]; lia.
Qed.

Lemma bounded_emin m e : bounded prec emax m e = true -> emin64 <= e.
Proof.
  unfold bounded. intros H. apply andb_true_iff in H.
  now destruct (canonical_bounds m e (proj1 H)).
Qed.

(** Sums and differences of finite numbers: the exact result, rounded. *)
Lemma add_rank x y :
  finite x = true -> finite y = true ->
  proper (SFadd prec emax x y) = true
  /\ rank (SFadd prec emax x y) = sround (rank x + rank y).
Proof.
  intros Hx Hy.
  destruct (finite_cases x Hx) as [[sx ->]|[sx [mx [ex [-> Hbx]]]]];
    destruct (finite_cases y Hy) as [[sy ->]|[sy [my [ey [-> Hby]]]]].
  - destruct sx, sy; split; reflexivity.
  - cbn [SFadd rank]. split; [now apply finite_proper|]. rewrite Z.add_0_l. symmetry.
    now apply sround_fixed.
  - cbn [SFadd rank]. split; [now apply finite_proper|]. rewrite Z.add_0_r. symmetry.
    now apply sround_fixed.
  - cbn [SFadd rank].
    pose proof (bounded_emin mx ex Hbx). pose proof (bounded_emin my ey Hby).
    destruct (normalize_spec
                (cond_Zopp sx (Zpos (fst (shl_align mx ex (Z.min ex ey))))
                 + cond_Zopp sy (Zpos (fst (shl_align my ey (Z.min ex ey)))))
                (Z.min ex ey) false) as [H1 H2]; [lia|].
    split; [exact H1|]. rewrite H2. f_equal.
    rewrite Z.mul_add_distr_r. rewrite !aligned_rank by lia. reflexivity.
Qed.

Lemma sub_rank x y :
  finite x = true -> finite y = true ->
  proper (SFsub prec emax x y) = true
  /\ rank (SFsub prec emax x y) = sround (rank x - rank y).
Proof.
  intros Hx Hy.
  destruct (finite_cases x Hx) as [[sx ->]|[sx [mx [ex [-> Hbx]]]]];
    destruct (finite_cases y Hy) as [[sy ->]|[sy [my [ey [-> Hby]]]]].
  - destruct sx, sy; split; reflexivity.
  - cbn [SFsub rank]. split.
    + unfold proper. cbn [valid_binary]. now rewrite Hby.
    + rewrite Z.sub_0_l.
      replace (- cond_Zopp sy (scaled my ey)) with (cond_Zopp (negb sy) (scaled my ey))
        by (destruct sy; cbn; lia).
      symmetry. now apply sround_fixed.
  - cbn [SFsub rank]. split; [now apply finite_proper|]. rewrite Z.sub_0_r. symmetry.
    now apply sround_fixed.
  - cbn [SFsub rank].
    pose proof (bounded_emin mx ex Hbx). pose proof (bounded_emin my ey Hby).
    destruct (normalize_spec
                (cond_Zopp sx (Zpos (fst (shl_align mx ex (Z.min ex ey))))
                 - cond_Zopp sy (Zpos (fst (shl_align my ey (Z.min ex ey)))))
                (Z.min ex ey) false) as [H1 H2]; [lia|].
    split; [exact H1|]. rewrite H2. f_equal.
    rewrite Z.mul_sub_distr_r. rewrite !aligned_rank by lia. reflexivity.
Qed.

Lemma top_pos : 0 < top.
Proof. reflexivity. Qed.

Lemma scaled_lt_exp m1 e1 m2 e2 :
  bounded prec emax m1 e1 = true -> bounded prec emax m2 e2 = true ->
  e1 < e2 -> scaled m1 e1 < scaled m2 e2.
Proof.
  unfold bounded. intros H1 H2 He.
  apply andb_true_iff in H1. apply andb_true_iff in H2.
  destruct (canonical_bounds m1 e1 (proj1 H1)) as [Hm1 [Hd1 _]].
  destruct (canonical_bounds m2 e2 (proj1 H2)) as [Hm2 [_ Hd2]].
  pose proof (digits_bounds m1) as [_ Hu]. pose proof (digits_bounds m2) as [Hl _].
  rewrite Hd2 in Hl by lia.
  assert (Zpos m1 < 2 ^ 53).
  { eapply Z.lt_le_trans; [exact Hu|]. apply pow2_le. lia. }
  assert (Hp1 : 0 < 2 ^ (e1 - emin64)) by (apply pow2_gt0; lia).
  assert (Hp2 : 2 ^ (e2 - emin64) = 2 ^ (e2 - emin64 - 1) * 2).
  { replace (e2 - emin64) with (Z.succ (e2 - emin64 - 1)) at 1 by lia.
    rewrite Z.pow_succ_r by lia. lia. }
  assert (Hp3 : 2 ^ (e1 - emin64) <= 2 ^ (e2 - emin64 - 1)) by (apply pow2_le; lia).
  unfold scaled. rewrite Hp2.
  change (2 ^ 53) with (2 ^ 52 * 2) in H. change (2 ^ (53 - 1)) with (2 ^ 52) in Hl.
  set (A := 2 ^ 52) in *. set (B := 2 ^ (e1 - emin64)) in *.
  set (C := 2 ^ (e2 - emin64 - 1)) in *. assert (0 < A) by reflexivity.
  nia.
Qed.

Lemma scaled_compare m1 m2 e :
  emin64 <= e -> (scaled m1 e ?= scaled m2 e) = Pos.compare_cont Eq m1 m2.
Proof.
  intros He. change (Pos.compare_cont Eq m1 m2) with (Zpos m1 ?= Zpos m2).
  unfold scaled. pose proof (pow2_gt0 (e - emin64)).
  symmetry. apply Zmult_compare_compat_r. lia.
Qed.

Lemma compare_lt a b : a < b -> (a ?= b) = Lt.
Proof. apply Z.compare_lt_iff. Qed.

Lemma compare_gt a b : b < a -> (a ?= b) = Gt.
Proof. intros. now apply Z.compare_gt_iff. Qed.

Lemma proper_cases x :
  proper x = true ->
  (exists s, x = S754_zero s) \/ (exists s, x = S754_infinity s)
  \/ (exists s m e, x = S754_finite s m e /\ bounded prec emax m e = true).
Proof.
  unfold proper. destruct x as [s|s| |s m e]; cbn; intros H; try discriminate.
  - left. now exists s.
  - right. left. now exists s.
  - right. right. exists s, m, e. split; [reflexivity|].
    now rewrite andb_true_r in H.
Qed.

(** On numbers, the comparison of IEEE 754 is the comparison of ranks. *)
Lemma compare_rank x y :
  proper x = true -> proper y = true ->
  SFcompare x y = Some (rank x ?= rank y).
Proof.
  intros Hx Hy. pose proof top_pos as Ht.
  destruct (proper_cases x Hx) as [[sx ->]|[[sx ->]|[sx [mx [ex [-> Hbx]]]]]];
    destruct (proper_cases y Hy) as [[sy ->]|[[sy ->]|[sy [my [ey [-> Hby]]]]]];
    cbn [SFcompare rank]; f_equal.
  - destruct sy; cbn [cond_Zopp]; symmetry; [apply compare_gt|apply compare_lt]; lia.
  - pose proof (scaled_lt_top my ey Hby).
    destruct sy; cbn [cond_Zopp]; symmetry; [apply compare_gt|apply compare_lt]; lia.
  - destruct sx; cbn [cond_Zopp]; symmetry; [apply compare_lt|apply compare_gt]; lia.
  - destruct sx, sy; cbn [cond_Zopp]; symmetry;
      try apply Z.compare_refl; [apply compare_lt|apply compare_gt]; lia.
  - pose proof (scaled_lt_top my ey Hby).
    destruct sx, sy; cbn [cond_Zopp]; symmetry;
      try (apply compare_lt; lia); apply compare_gt; lia.
  - pose proof (scaled_lt_top mx ex Hbx).
    destruct sx; cbn [cond_Zopp]; symmetry; [apply compare_lt|apply compare_gt]; lia.
  - pose proof (scaled_lt_top mx ex Hbx).
    destruct sx, sy; cbn [cond_Zopp]; symmetry;
      try (apply compare_lt; lia); apply compare_gt; lia.
  - pose proof (scaled_lt_top mx ex Hbx). pose proof (scaled_lt_top my ey Hby).
    pose proof (bounded_emin mx ex Hbx) as Hex.
    destruct sx, sy; cbn [cond_Zopp].
    + destruct (Z.compare_spec ex ey) as [->|Hl|Hg].
      * rewrite Z.compare_opp.
        rewrite scaled_compare by exact Hex.
        change (Pos.compare_cont Eq mx my) with (mx ?= my)%positive.
        change (Pos.compare_cont Eq my mx) with (my ?= mx)%positive.
        symmetry. apply Pos.compare_antisym.
      * pose proof (scaled_lt_exp _ _ _ _ Hbx Hby Hl). symmetry. apply compare_gt. lia.
      * pose proof (scaled_lt_exp _ _ _ _ Hby Hbx Hg). symmetry. apply compare_lt. lia.
    + symmetry. apply compare_lt. lia.
    + symmetry. apply compare_gt. lia.
    + destruct (Z.compare_spec ex ey) as [->|Hl|Hg].
      * now rewrite scaled_compare.
      * pose proof (scaled_lt_exp _ _ _ _ Hbx Hby Hl). symmetry. now apply compare_lt.
      * pose proof (scaled_lt_exp _ _ _ _ Hby Hbx Hg). symmetry. now apply compare_gt.
Qed.

Lemma leb_rank x y :
  proper x = true -> proper y = true -> SFleb x y = (rank x <=? rank y).
Proof.
  intros Hx Hy. unfold SFleb. rewrite (compare_rank x y Hx Hy).
  unfold Z.leb. now destruct (rank x ?= rank y).
Qed.

Lemma ltb_rank x y :
  proper x = true -> proper y = true -> SFltb x y = (rank x <? rank y).
Proof.
  intros Hx Hy. unfold SFltb. rewrite (compare_rank x y Hx Hy).
  unfold Z.ltb. now destruct (rank x ?= rank y).
Qed.

Lemma eqb_rank x y :
  proper x = true -> proper y = true -> SFeqb x y = (rank x =? rank y).
Proof.
  intros Hx Hy. unfold SFeqb. rewrite (compare_rank x y Hx Hy).
  unfold Z.eqb.
  destruct (Z.compare_spec (rank x) (rank y)) as [->|H|H].
  - destruct (rank y); try reflexivity; cbn; now rewrite Pos.eqb_refl.
  - destruct (rank x), (rank y); try reflexivity; try lia; cbn;
      destruct (Pos.eqb_spec p p0); try reflexivity; subst; lia.
  - destruct (rank x), (rank y); try reflexivity; try lia; cbn;
      destruct (Pos.eqb_spec p p0); try reflexivity; subst; lia.
Qed.

Lemma num_le_rank x y :
  proper x = true -> proper y = true -> (num_le x y <-> rank x <= rank y).
Proof.
  intros Hx Hy. unfold num_le. rewrite leb_rank by assumption. apply Z.leb_le.
Qed.

Lemma num_lt_rank x y :
  proper x = true -> proper y = true -> (num_lt x y <-> rank x < rank y).
Proof.
  intros Hx Hy. unfold num_lt. rewrite ltb_rank by assumption. apply Z.ltb_lt.
Qed.

Lemma num_eq_rank x y :
  proper x = true -> proper y = true -> (num_eq x y <-> rank x = rank y).
Proof.
  intros Hx Hy. unfold num_eq. rewrite eqb_rank by assumption. apply Z.eqb_eq.
Qed.

Lemma rank_bound x : proper x = true -> - top <= rank x <= top.
Proof.
  intros H. pose proof top_pos.
  destruct (proper_cases x H) as [[s ->]|[[s ->]|[s [m [e [-> Hb]]]]]]; cbn [rank].
  - lia.
  - destruct s; cbn [cond_Zopp]; lia.
  - pose proof (scaled_lt_top m e Hb). destruct s; cbn [cond_Zopp]; lia.
Qed.

Lemma positive_cases x :
  isPositive x ->
  x = S754_infinity false
  \/ exists m e, x = S754_finite false m e /\ bounded prec emax m e = true.
Proof.
  intros [H Hr]. pose proof top_pos.
  destruct (proper_cases x H) as [[s ->]|[[s ->]|[s [m [e [-> Hb]]]]]]; cbn [rank] in Hr.
  - lia.
  - destruct s; cbn [cond_Zopp] in Hr; [lia|now left].
  - pose proof (scaled_lt_top m e Hb). destruct s; cbn [cond_Zopp] in Hr; [lia|].
    right. now exists m, e.
Qed.

Lemma positive_fixed x : isPositive x -> Z.min (rne (rank x)) top = rank x.
Proof.
  intros H. destruct (positive_cases x H) as [->|[m [e [-> Hb]]]]; cbn [rank cond_Zopp].
  - rewrite rne_top. lia.
  - rewrite rne_fixed by exact Hb. pose proof (scaled_lt_top m e Hb). lia.
Qed.

Lemma positive_finite m e :
  bounded prec emax m e = true -> finite (S754_finite false m e) = true.
Proof. intros H. unfold finite, proper. cbn. now rewrite H. Qed.

(** The sum of two positive numbers. *)
Lemma add_positive x y :
  isPositive x -> isPositive y ->
  isPositive (jsAdd x y)
  /\ rank (jsAdd x y) = Z.min (rne (rank x + rank y)) top.
Proof.
  intros Hx Hy. pose proof top_pos as Ht.
  assert (Hbig : forall v, top <= v -> Z.min (rne v) top = top).
  { intros v Hv. pose proof (rne_mono top v). rewrite rne_top in *. lia. }
  destruct (positive_cases x Hx) as [->|[mx [ex [-> Hbx]]]];
    destruct (positive_cases y Hy) as [->|[my [ey [-> Hby]]]].
  - cbn [jsAdd SFadd rank cond_Zopp]. rewrite Hbig by lia.
    split; [split; [reflexivity|exact Ht]|reflexivity].
  - pose proof (scaled_lt_top my ey Hby).
    cbn [jsAdd SFadd rank cond_Zopp]. rewrite Hbig by lia.
    split; [split; [reflexivity|exact Ht]|reflexivity].
  - pose proof (scaled_lt_top mx ex Hbx).
    cbn [jsAdd SFadd rank cond_Zopp]. rewrite Hbig by lia.
    split; [split; [reflexivity|exact Ht]|reflexivity].
  - pose proof (scaled_lt_top mx ex Hbx). pose proof (scaled_lt_top my ey Hby).
    destruct (add_rank (S754_finite false mx ex) (S754_finite false my ey))
      as [H1 H2]; try now apply positive_finite.
    unfold jsAdd. cbn [rank cond_Zopp] in *.
    assert (Hs : sround (scaled mx ex + scaled my ey)
                 = Z.min (rne (scaled mx ex + scaled my ey)) top).
    { unfold sround. rewrite Z.sgn_pos, Z.abs_eq by lia. lia. }
    rewrite Hs in H2. split; [|exact H2]. split; [exact H1|].
    rewrite H2. pose proof (rne_pos (scaled mx ex + scaled my ey)). lia.
Qed.

Lemma add_above x y : isPositive x -> isPositive y -> num_le x (jsAdd x y).
Proof.
  intros Hx Hy. destruct (add_positive x y Hx Hy) as [[Hp _] Hr].
  apply num_le_rank; [apply Hx|exact Hp|]. rewrite Hr.
  rewrite <- (positive_fixed x Hx) at 1.
  destruct Hx as [_ Hx]. destruct Hy as [_ Hy].
  pose proof (rne_mono (rank x) (rank x + rank y)). lia.
Qed.

Lemma add_mono x a b :
  isPositive x -> isPositive a -> isPositive b ->
  num_le a b -> num_le (jsAdd x a) (jsAdd x b).
Proof.
  intros Hx Ha Hb Hab.
  destruct (add_positive x a Hx Ha) as [[Hpa _] Hra].
  destruct (add_positive x b Hx Hb) as [[Hpb _] Hrb].
  apply num_le_rank in Hab; [|apply Ha|apply Hb].
  apply num_le_rank; [exact Hpa|exact Hpb|]. rewrite Hra, Hrb.
  destruct Hx as [_ Hx]. destruct Ha as [_ Ha].
  pose proof (rne_mono (rank x + rank a) (rank x + rank b)). lia.
Qed.

Lemma num_le_trans x y z :
  proper x = true -> proper y = true -> proper z = true ->
  num_le x y -> num_le y z -> num_le x z.
Proof.
  intros Hx Hy Hz H1 H2.
  apply num_le_rank in H1; [|assumption..]. apply num_le_rank in H2; [|assumption..].
  apply num_le_rank; [assumption..|]. lia.
Qed.

Lemma positive_above x y : isPositive x -> proper y = true -> num_le x y -> isPositive y.
Proof.
  intros [Hx Hr] Hy H. apply num_le_rank in H; [|assumption..]. split; [exact Hy|lia].
Qed.

Lemma Math_max_rank a b :
  proper a = true -> proper b = true ->
  proper (Math_max a b) = true /\ rank (Math_max a b) = Z.max (rank a) (rank b).
Proof.
  intros Ha Hb. unfold Math_max. rewrite (compare_rank a b Ha Hb).
  destruct (Z.compare_spec (rank a) (rank b)) as [E|E|E].
  - destruct a as [[|]| | |], b as [[|]| | |]; (split; [assumption|lia]).
  - split; [exact Hb|lia].
  - split; [exact Ha|lia].
Qed.

Lemma Math_min_rank a b :
  proper a = true -> proper b = true ->
  proper (Math_min a b) = true /\ rank (Math_min a b) = Z.min (rank a) (rank b).
Proof.
  intros Ha Hb. unfold Math_min. rewrite (compare_rank a b Ha Hb).
  destruct (Z.compare_spec (rank a) (rank b)) as [E|E|E].
  - destruct a as [[|]| | |], b as [[|]| | |]; (split; [assumption|lia]).
  - split; [exact Ha|lia].
  - split; [exact Hb|lia].
Qed.

Lemma sround_sign v : (0 < v -> 0 < sround v) /\ (v < 0 -> sround v < 0)
                      /\ (v = 0 -> sround v = 0).
Proof.
  pose proof top_pos as Ht. unfold sround. repeat split; intros H.
  - rewrite Z.sgn_pos, Z.abs_eq by lia. pose proof (rne_pos v H). lia.
  - rewrite Z.sgn_neg, Z.abs_neq by lia. pose proof (rne_pos (- v)). lia.
  - subst v. reflexivity.
Qed.

Lemma sub_proper x y :
  finite x = true -> finite y = true -> proper (jsSub x y) = true.
Proof. intros Hx Hy. now destruct (sub_rank x y Hx Hy). Qed.

(** The sign of a difference of finite numbers is the sign of the exact
    difference. *)
Lemma sub_sign x y :
  finite x = true -> finite y = true ->
  jsLt (num 0) (jsSub x y) = SFltb y x.
Proof.
  intros Hx Hy. destruct (sub_rank x y Hx Hy) as [Hp Hr].
  unfold jsLt, jsSub in *.
  rewrite ltb_rank by (try reflexivity; exact Hp).
  rewrite ltb_rank by (now apply finite_proper).
  rewrite Hr. change (rank (num 0)) with 0.
  destruct (sround_sign (rank x - rank y)) as [H1 [H2 H3]].
  destruct (Z.ltb_spec (rank y) (rank x)), (Z.ltb_spec 0 (sround (rank x - rank y)));
    try reflexivity; lia.
Qed.

Lemma num8_positive : isPositive (num 8).
Proof. split; reflexivity. Qed.

Lemma num14_positive : isPositive (num 14).
Proof. split; reflexivity. Qed.

Lemma num20_positive : isPositive (num 20).
Proof. split; reflexivity. Qed.

(** [Math.max(8, b - a)] on finite numbers is a number, at least 8. *)
Lemma floor8 a b :
  finite a = true -> finite b = true ->
  isPositive (Math_max (num 8) (jsSub b a))
  /\ num_le (num 8) (Math_max (num 8) (jsSub b a)).
Proof.
  intros Ha Hb. pose proof (sub_proper b a Hb Ha) as Hp.
  destruct num8_positive as [H8 H8'].
  destruct (Math_max_rank (num 8) (jsSub b a) H8 Hp) as [H1 H2].
  split.
  - split; [exact H1|]. rewrite H2. lia.
  - apply num_le_rank; [exact H8|exact H1|]. rewrite H2. lia.
Qed.

Lemma compare_antisym x y :
  SFcompare y x = match SFcompare x y with
                  | Some c => Some (CompOpp c)
                  | None => None
                  end.
Proof.
  destruct x as [sx|sx| |sx mx ex], y as [sy|sy| |sy my ey]; cbn [SFcompare];
    try reflexivity; try (destruct sx; reflexivity); try (destruct sy; reflexivity);
    try (destruct sx, sy; reflexivity).
  destruct sx, sy; cbn [CompOpp]; try reflexivity;
    rewrite (Z.compare_antisym ex ey); destruct (ex ?= ey); cbn [CompOpp];
    try reflexivity; f_equal;
    rewrite (Pos.compare_cont_antisym mx my Eq); reflexivity.
Qed.

(** Of two numbers, the one that is not below the other is at or above it. *)
Lemma not_lt_le x y :
  isNaN x = false -> isNaN y = false -> jsLt x y = false -> num_le y x.
Proof.
  intros Hx Hy H. unfold num_le, SFleb. rewrite (compare_antisym x y).
  unfold jsLt, SFltb in H.
  destruct (SFcompare x y) as [[| |]|] eqn:E; try reflexivity; try discriminate.
  destruct x as [sx|sx| |sx mx ex], y as [sy|sy| |sy my ey]; cbn in E; discriminate.
Qed.

(** The same, with infinite numbers: the difference decides the order as
    the comparison does, a NaN difference counting as no order. *)
Lemma sub_sign_proper x y :
  proper x = true -> proper y = true ->
  jsLt (num 0) (jsSub x y) = SFltb y x.
Proof.
  intros Hx Hy.
  destruct (proper_cases x Hx) as [[sx ->]|[[sx ->]|[sx [mx [ex [-> Hbx]]]]]];
    destruct (proper_cases y Hy) as [[sy ->]|[[sy ->]|[sy [my [ey [-> Hby]]]]]];
    try (apply sub_sign; unfold finite; rewrite ?Hx, ?Hy; reflexivity);
    try (destruct sx, sy; reflexivity);
    try (destruct sx; reflexivity); destruct sy; reflexivity.
Qed.

End Binary64.

(* ================================================================= *)
(** ** The store of node objects *)

Lemma length_assign s : forall r a b, length (assign s r a b) = length s.
Proof.
  induction s as [|n s IH]; intros [|r] a b; simpl; try reflexivity.
  now rewrite IH.
Qed.

Lemma obj_assign_same s :
  forall r a b, r < length s -> obj (assign s r a b) r = mkPlaced (datum (obj s r)) a b.
Proof.
  unfold obj. induction s as [|n s IH]; intros [|r] a b H; simpl in *; try lia.
  - reflexivity.
  - apply IH. lia.
Qed.

Lemma obj_assign_other s :
  forall r r' a b, r' <> r -> obj (assign s r a b) r' = obj s r'.
Proof.
  unfold obj. induction s as [|n s IH]; intros [|r] [|r'] a b H; simpl; try reflexivity.
  - contradiction.
  - apply IH. congruence.
Qed.

Lemma datum_assign s r r' a b : datum (obj (assign s r a b) r') = datum (obj s r').
Proof.
  destruct (Nat.eq_dec r' r) as [->|Hne]; [|now rewrite obj_assign_other].
  destruct (Nat.lt_ge_cases r (length s)) as [Hlt|Hge].
  - now rewrite obj_assign_same.
  - f_equal. f_equal. clear -Hge. revert r Hge.
    induction s as [|n s IH]; intros [|r] H; simpl in *; try reflexivity; try lia.
    f_equal. apply IH. lia.
Qed.

Lemma length_packAll hs order : forall y s, length (packAll hs order y s) = length s.
Proof.
  induction order as [|n order IH]; intros y s; simpl; [reflexivity|].
  now rewrite IH, length_assign.
Qed.

Lemma datum_packAll hs order :
  forall y s r, datum (obj (packAll hs order y s) r) = datum (obj s r).
Proof.
  induction order as [|n order IH]; intros y s r; simpl; [reflexivity|].
  now rewrite IH, datum_assign.
Qed.

Lemma packAll_other hs order :
  forall y s r, ~ In r order -> obj (packAll hs order y s) r = obj s r.
Proof.
  induction order as [|n order IH]; intros y s r H; simpl; [reflexivity|].
  rewrite IH by (intros C; apply H; now right).
  apply obj_assign_other. intros ->. apply H. now left.
Qed.

Lemma length_packPeers hs k nh peers :
  forall i y s, length (packPeers hs k nh peers i y s) = length s.
Proof.
  induction peers as [|p peers IH]; intros i y s; simpl; [reflexivity|].
  now rewrite IH, length_assign.
Qed.

Lemma datum_packPeers hs k nh peers :
  forall i y s r, datum (obj (packPeers hs k nh peers i y s) r) = datum (obj s r).
Proof.
  induction peers as [|p peers IH]; intros i y s r; simpl; [reflexivity|].
  now rewrite IH, datum_assign.
Qed.

Lemma packPeers_other hs k nh peers :
  forall i y s r, ~ In r peers -> obj (packPeers hs k nh peers i y s) r = obj s r.
Proof.
  induction peers as [|p peers IH]; intros i y s r H; simpl; [reflexivity|].
  rewrite IH by (intros C; apply H; now right).
  apply obj_assign_other. intros ->. apply H. now left.
Qed.

(* ================================================================= *)
(** ** Heights and stacking *)

Lemma ofList_get_other {V : Type} (l : list (string * V)) k :
  ~ In k (map fst l) ->
  forall m, JsMap.get (fold_left (fun m kv => JsMap.set m (fst kv) (snd kv)) l m) k
            = JsMap.get m k.
Proof.
  induction l as [|[k0 v0] l IH]; intros Hk m; simpl; [reflexivity|].
  rewrite IH by (intros C; apply Hk; now right).
  rewrite get_set. destruct (String.eqb_spec k0 k) as [->|]; [|reflexivity].
  exfalso. apply Hk. now left.
Qed.

Lemma ofList_get {V : Type} (l : list (string * V)) k v :
  NoDup (map fst l) -> In (k, v) l -> JsMap.get (JsMap.ofList l) k = Some v.
Proof.
  unfold JsMap.ofList. generalize (@JsMap.empty V).
  induction l as [|[k0 v0] l IH]; intros m Hnd Hin; [contradiction|].
  simpl in Hnd. inversion Hnd as [|? ? Hk0 Hnd']; subst. simpl.
  destruct Hin as [Hin|Hin].
  - injection Hin as -> ->. rewrite ofList_get_other by exact Hk0.
    rewrite get_set. now rewrite String.eqb_refl.
  - now apply IH.
Qed.

Lemma finiteLayout_obj store r :
  finiteLayout store = true ->
  finite (y0 (obj store r)) = true /\ finite (y1 (obj store r)) = true.
Proof.
  intros H. unfold finiteLayout in H. rewrite forallb_forall in H.
  destruct (Nat.lt_ge_cases r (length store)) as [Hlt|Hge].
  - assert (Hin : In (obj store r) store) by (unfold obj; now apply nth_In).
    specialize (H _ Hin). now apply andb_true_iff in H.
  - unfold obj. rewrite nth_overflow by exact Hge. split; reflexivity.
Qed.

Lemma startHeight_positive store r :
  finiteLayout store = true ->
  isPositive (startHeight store r) /\ num_le (num 8) (startHeight store r).
Proof.
  intros H. destruct (finiteLayout_obj store r H) as [H0 H1].
  unfold startHeight. now apply floor8.
Qed.

Lemma positive_truthy x : isPositive x -> truthyNumber x = true.
Proof.
  intros H. destruct (positive_cases x H) as [->|[m [e [-> _]]]]; reflexivity.
Qed.

(** After "start" the cache gives every node of the store the height it
    had in the layout, floored at 8. *)
Lemma heightOf_start store el d n r :
  NoDup (map (fun n => id (datum n)) store) ->
  finiteLayout store = true ->
  r < length store ->
  id (datum n) = id (datum (obj store r)) ->
  heightOf (orElse (__heights (onStart store el d)) JsMap.empty) n = startHeight store r.
Proof.
  intros Hnd Hfin Hr Hid. cbn [onStart __heights orElse]. unfold heightOf. rewrite Hid.
  rewrite (ofList_get _ _ (startHeight store r)).
  - now rewrite positive_truthy by (apply startHeight_positive; exact Hfin).
  - now rewrite map_map.
  - apply in_map_iff. exists (obj store r). split; [reflexivity|].
    unfold obj. now apply nth_In.
Qed.

Lemma packAll_stacked H hs order :
  NoDup order ->
  forall y s,
    (forall n, In n order -> n < length s) ->
    (forall n, In n order -> heightOf hs (obj s n) = H n) ->
    stacked H (packAll hs order y s) y order.
Proof.
  intros Hnd. induction Hnd as [|n rest Hn Hnd IH]; intros y s Hin Hh; simpl; [trivial|].
  rewrite (Hh n) by now left.
  assert (Hobj : obj (packAll hs rest (y + (H n + nodePad))%num
                        (assign s n y (y + H n)%num)) n
                 = mkPlaced (datum (obj s n)) y (y + H n)%num).
  { rewrite packAll_other by exact Hn. apply obj_assign_same. apply Hin. now left. }
  rewrite Hobj. cbn [y0 y1]. split; [reflexivity|]. split; [reflexivity|].
  apply IH.
  - intros m Hm. rewrite length_assign. apply Hin. now right.
  - intros m Hm. rewrite obj_assign_other by (intros ->; contradiction).
    apply Hh. now right.
Qed.

Lemma num_le_refl x : proper x = true -> num_le x x.
Proof. intros H. apply num_le_rank; [exact H|exact H|]. apply Z.le_refl. Qed.

(** One step of a packing loop: the node ends at or after its start and at
    least 8 lower, the next position is at or after its end. *)
Lemma pack_step y h :
  isPositive y -> isPositive h -> num_le (num 8) h ->
  isPositive (y + h)%num
  /\ isPositive (y + (h + nodePad))%num
  /\ num_le y (y + h)%num
  /\ num_le (y + num 8)%num (y + h)%num
  /\ num_le (y + h)%num (y + (h + nodePad))%num.
Proof.
  intros Hy Hh H8.
  destruct (add_positive y h Hy Hh) as [Hyh _].
  destruct (add_positive h nodePad Hh num14_positive) as [Hhp _].
  destruct (add_positive y _ Hy Hhp) as [Hnext _].
  split; [exact Hyh|]. split; [exact Hnext|]. split; [|split].
  - now apply add_above.
  - apply add_mono; [exact Hy|exact num8_positive|exact Hh|exact H8].
  - apply add_mono; [exact Hy|exact Hh|exact Hhp|]. apply add_above; [exact Hh|].
    exact num14_positive.
Qed.

Lemma stacked_below H s order :
  (forall n, In n order -> isPositive (H n) /\ num_le (num 8) (H n)) ->
  forall y n,
    isPositive y -> stacked H s y order -> In n order ->
    isPositive (y0 (obj s n)) /\ isPositive (y1 (obj s n))
    /\ num_le y (y0 (obj s n))
    /\ num_le (y0 (obj s n)) (y1 (obj s n))
    /\ num_le (y0 (obj s n) + num 8)%num (y1 (obj s n)).
Proof.
  induction order as [|m rest IH]; intros HH y n Hy Hst Hin; [contradiction|].
  cbn [stacked] in Hst. destruct Hst as [E0 [E1 Hrest]].
  destruct (HH m (or_introl eq_refl)) as [Hm H8].
  destruct (pack_step y (H m) Hy Hm H8) as [P1 [P2 [P3 [P4 P5]]]].
  destruct Hin as [->|Hin].
  - rewrite E0, E1. split; [exact Hy|]. split; [exact P1|].
    split; [apply num_le_refl, Hy|]. split; [exact P3|exact P4].
  - destruct (IH (fun k Hk => HH k (or_intror Hk)) _ n P2 Hrest Hin)
      as [Q1 [Q2 [Q3 [Q4 Q5]]]].
    split; [exact Q1|]. split; [exact Q2|]. split; [|split; [exact Q4|exact Q5]].
    apply (num_le_trans _ (y + H m)%num); [apply Hy|apply P1|apply Q1|exact P3|].
    apply (num_le_trans _ (y + (H m + nodePad))%num);
      [apply P1|apply P2|apply Q1|exact P5|exact Q3].
Qed.

(** In a stack a node ends at or before the start of every node after it. *)
Lemma stacked_before H s l1 :
  forall y n l2 p,
    (forall k, In k (l1 ++ n :: l2) -> isPositive (H k) /\ num_le (num 8) (H k)) ->
    isPositive y -> stacked H s y (l1 ++ n :: l2) -> In p l1 ->
    num_le (y1 (obj s p)) (y0 (obj s n)).
Proof.
  induction l1 as [|m l1 IH]; intros y n l2 p HH Hy Hst Hp; [contradiction|].
  cbn [app stacked] in Hst. destruct Hst as [E0 [E1 Hrest]].
  destruct (HH m (or_introl eq_refl)) as [Hm H8].
  destruct (pack_step y (H m) Hy Hm H8) as [P1 [P2 [P3 [P4 P5]]]].
  destruct Hp as [<-|Hp].
  - rewrite E1.
    destruct (stacked_below H s (l1 ++ n :: l2) (fun k Hk => HH k (or_intror Hk))
                _ n P2 Hrest) as [Q1 [_ [Q3 _]]]; [apply in_or_app; right; now left|].
    apply (num_le_trans _ (y + (H m + nodePad))%num);
      [apply P1|apply P2|apply Q1|exact P5|exact Q3].
  - apply (IH _ n l2 p (fun k Hk => HH k (or_intror Hk)) P2 Hrest Hp).
Qed.

Lemma stacked_apart H s order :
  (forall n, In n order -> isPositive (H n) /\ num_le (num 8) (H n)) ->
  forall y i j,
    isPositive y -> stacked H s y order -> In i order -> In j order -> i <> j ->
    num_le (y1 (obj s i)) (y0 (obj s j)) \/ num_le (y1 (obj s j)) (y0 (obj s i)).
Proof.
  intros HH y i j Hy Hst Hi Hj Hne.
  destruct (in_split _ _ Hj) as [l1 [l2 E]]. subst order.
  apply in_app_or in Hi. destruct Hi as [Hi|[Hi|Hi]].
  - left. now apply (stacked_before H s l1 y j l2 i).
  - congruence.
  - right. destruct (in_split _ _ Hi) as [l3 [l4 E]]. subst l2.
    replace (l1 ++ j :: l3 ++ i :: l4) with ((l1 ++ j :: l3) ++ i :: l4) in *
      by (rewrite <- app_assoc; reflexivity).
    apply (stacked_before H s (l1 ++ j :: l3) y i l4 j); try assumption.
    apply in_or_app. right. now left.
Qed.

Lemma insertSorted_perm {A : Type} (before : A -> A -> bool) (x : A) (l : list A) :
  Permutation (insertSorted before x l) (x :: l).
Proof.
  induction l as [|y l IH]; simpl; [reflexivity|].
  destruct (before x y); [reflexivity|].
  rewrite IH. apply perm_swap.
Qed.

Lemma sortStable_perm {A : Type} (before : A -> A -> bool) (l : list A) :
  Permutation (sortStable before l) l.
Proof.
  induction l as [|x l IH]; simpl; [reflexivity|].
  rewrite insertSorted_perm. now constructor.
Qed.

Lemma splice_perm l i d : Permutation (splice l i d) (d :: l).
Proof.
  unfold splice. rewrite <- Permutation_middle. constructor.
  now rewrite firstn_skipn.
Qed.

(* ================================================================= *)
(** ** The handlers of the drag *)

Lemma Side_eqb_eq a b : Side_eqb a b = true <-> a = b.
Proof. destruct a, b; simpl; split; congruence. Qed.

Lemma onStart_peers store el d :
  exists peers,
    __peers (onStart store el d) = Some peers
    /\ Permutation peers (filter (isPeer store d) (seq 0 (length store))).
Proof. eexists. split; [reflexivity|]. apply sortStable_perm. Qed.

Lemma onDrag_keeps height s el d y :
  __peers (snd (onDrag height s el d y)) = __peers el
  /\ __heights (snd (onDrag height s el d y)) = __heights el
  /\ length (fst (onDrag height s el d y)) = length s
  /\ forall r, datum (obj (fst (onDrag height s el d y)) r) = datum (obj s r).
Proof.
  unfold onDrag. simpl. repeat split.
  - now rewrite length_assign, length_packPeers.
  - intros r. now rewrite datum_assign, datum_packPeers.
Qed.

Lemma onDrag_other height s el d y r :
  ~ In r (orElse (__peers el) []) -> r <> d ->
  obj (fst (onDrag height s el d y)) r = obj s r.
Proof.
  intros Hr Hd. unfold onDrag. simpl.
  rewrite obj_assign_other by exact Hd. now apply packPeers_other.
Qed.

Lemma moves_keeps height d ys :
  forall st,
    __peers (snd (moves height d ys st)) = __peers (snd st)
    /\ __heights (snd (moves height d ys st)) = __heights (snd st)
    /\ length (fst (moves height d ys st)) = length (fst st)
    /\ (forall r, datum (obj (fst (moves height d ys st)) r) = datum (obj (fst st) r))
    /\ (forall r, ~ In r (orElse (__peers (snd st)) []) -> r <> d ->
                  obj (fst (moves height d ys st)) r = obj (fst st) r).
Proof.
  unfold moves. induction ys as [|y ys IH]; intros st; simpl.
  - repeat split; reflexivity.
  - destruct (IH (onDrag height (fst st) (snd st) d y)) as [Hp [Hh [Hl [Hd Ho]]]].
    destruct (onDrag_keeps height (fst st) (snd st) d y) as [Hp' [Hh' [Hl' Hd']]].
    repeat split.
    + now rewrite Hp.
    + now rewrite Hh.
    + now rewrite Hl.
    + intros r. now rewrite Hd.
    + intros r Hr Hne. rewrite Ho; [now apply onDrag_other| |exact Hne].
      now rewrite Hp'.
Qed.

Lemma distinct_ids store r d :
  NoDup (map (fun n => id (datum n)) store) ->
  r < length store -> d < length store ->
  id (datum (obj store r)) = id (datum (obj store d)) -> r = d.
Proof.
  intros Hnd Hr Hd He.
  apply (proj1 (NoDup_nth _ EmptyString) Hnd); rewrite ?length_map; try assumption.
  unfold obj in He.
  rewrite <- (map_nth (fun n => id (datum n)) store _ r),
          <- (map_nth (fun n => id (datum n)) store _ d) in He.
  exact He.
Qed.

Lemma isPeer_column store d r :
  NoDup (map (fun n => id (datum n)) store) ->
  r < length store -> d < length store ->
  (r = d \/ isPeer store d r = true)
  <-> side (datum (obj store r)) = side (datum (obj store d)).
Proof.
  intros Hnd Hr Hd. unfold isPeer. rewrite andb_true_iff, Side_eqb_eq, negb_true_iff.
  split.
  - intros [->|[H _]]; [reflexivity|exact H].
  - intros H.
    destruct (String.eqb_spec (id (datum (obj store r))) (id (datum (obj store d))))
      as [E|E].
    + left. now apply (distinct_ids store).
    + right. now split.
Qed.

(** What a gesture ends with, whatever the element kept from earlier
    gestures and whatever the pointer did: the final order is the column of
    the dragged node, each of its nodes once, and the nodes outside it are
    left as they were. *)
Lemma gesture_column height store el d ys :
  NoDup (map (fun n => id (datum n)) store) ->
  d < length store ->
  let final := fst (gesture height store el d ys) in
  let order := finalOrder (snd (gesture height store el d ys)) d in
  NoDup order
  /\ (forall r, In r order <->
                r < length store
                /\ side (datum (obj store r)) = side (datum (obj store d)))
  /\ (forall r, ~ In r order -> obj final r = obj store r).
Proof.
  intros Hnd Hd final order.
  destruct (onStart_peers store el d) as [peers [Hpeers Hperm]].
  destruct (moves_keeps height d ys (store, onStart store el d))
    as [Hp [Hh [Hl [Hdat Hoth]]]].
  simpl fst in *. simpl snd in Hp, Hh, Hoth.
  set (st := moves height d ys (store, onStart store el d)) in *.
  assert (Horder : Permutation order (d :: peers)).
  { unfold order, gesture, finalOrder. fold st. cbn [snd]. rewrite Hp, Hpeers.
    apply splice_perm. }
  assert (Hin : forall r, In r peers <-> r < length store /\ isPeer store d r = true).
  { intros r. split.
    - intros H. apply (Permutation_in _ Hperm) in H. apply filter_In in H.
      destruct H as [H1 H2]. apply in_seq in H1. split; [lia|exact H2].
    - intros [H1 H2]. apply (Permutation_in _ (Permutation_sym Hperm)).
      apply filter_In. split; [apply in_seq; lia|exact H2]. }
  assert (Hndp : NoDup (d :: peers)).
  { constructor.
    - intros H. apply Hin in H. destruct H as [_ H]. unfold isPeer in H.
      rewrite String.eqb_refl, andb_false_r in H. discriminate.
    - apply (Permutation_NoDup (Permutation_sym Hperm)).
      apply NoDup_filter, seq_NoDup. }
  assert (Hcol : forall r, In r order <->
                   r < length store
                   /\ side (datum (obj store r)) = side (datum (obj store d))).
  { intros r. split.
    - intros H. apply (Permutation_in _ Horder) in H. destruct H as [<-|H].
      + now split.
      + apply Hin in H. destruct H as [H1 H2]. split; [exact H1|].
        apply (isPeer_column store d r Hnd H1 Hd). now right.
    - intros [H1 H2]. apply (Permutation_in _ (Permutation_sym Horder)).
      apply (isPeer_column store d r Hnd H1 Hd) in H2.
      destruct H2 as [->|H2]; [now left|right]. apply Hin. now split. }
  split; [|split; [exact Hcol|]].
  - apply (Permutation_NoDup (Permutation_sym Horder) Hndp).
  - intros r Hr. unfold final, gesture, onEnd. fold st. cbn [fst snd]. fold order.
    rewrite packAll_other by exact Hr. apply Hoth.
    + rewrite Hpeers. simpl. intros C. apply Hr.
      apply (Permutation_in _ (Permutation_sym Horder)). now right.
    + intros ->. apply Hr.
      apply (Permutation_in _ (Permutation_sym Horder)). now left.
Qed.

(** On a finite layout the store a gesture ends with is packed along the
    final order from the top of the column, with the heights "start"
    cached. *)
Lemma gesture_packs height store el d ys :
  NoDup (map (fun n => id (datum n)) store) ->
  d < length store ->
  finiteLayout store = true ->
  stacked (startHeight store) (fst (gesture height store el d ys)) (num 20)
    (finalOrder (snd (gesture height store el d ys)) d).
Proof.
  intros Hnd Hd Hfin.
  destruct (gesture_column height store el d ys Hnd Hd) as [Hno [Hcol _]].
  destruct (moves_keeps height d ys (store, onStart store el d))
    as [_ [Hh [Hl [Hdat _]]]].
  cbn [fst snd] in Hh, Hl, Hdat.
  unfold gesture, onEnd in *. cbn [fst snd] in *.
  set (st := moves height d ys (store, onStart store el d)) in *.
  apply packAll_stacked.
  - exact Hno.
  - intros n Hn. rewrite Hl. now apply Hcol in Hn.
  - intros n Hn. rewrite Hh. apply heightOf_start; try assumption.
    + now apply Hcol in Hn.
    + now rewrite Hdat.
Qed.

Lemma gesture_datum height store el d ys r :
  datum (obj (fst (gesture height store el d ys)) r) = datum (obj store r).
Proof.
  unfold gesture, onEnd. cbn [fst]. rewrite datum_packAll.
  apply (moves_keeps height d ys (store, onStart store el d)).
Qed.

Lemma gesture_length height store el d ys :
  length (fst (gesture height store el d ys)) = length store.
Proof.
  unfold gesture, onEnd. cbn [fst]. rewrite length_packAll.
  apply (moves_keeps height d ys (store, onStart store el d)).
Qed.

Lemma overfull_distinct : NoDup (map (fun n => id (datum n)) overfull).
Proof.
  simpl. repeat constructor; simpl; intros H;
    repeat (destruct H as [H|H]; [discriminate|]); exact H.
Qed.

(** C7, the part that holds. After "start", any number of "drag" events
    and "end" on a node of a graph whose ids are distinct and whose layout
    is finite, the nodes of its column are stacked from the top of the
    column (y = 20) in the final order by the additions of the handler:
    each node ends its cached height below its start, and the next starts
    that height plus 14 below the same start, with no slot left for the
    dragged node. So two nodes of the column never overlap, none starts
    above the top, and each ends at or below its start plus 8. The sums
    are rounded, so the distance between neighbours is 14 only up to
    rounding. The nodes of the other column are not moved. Nothing is said
    of the bottom of the column. *)
Theorem drag_end_packs_without_overlap :
  forall (height : number) (store : list Placed) (el : Element) (d : nat)
         (ys : list number),
    NoDup (map (fun n => id (datum n)) store) ->
    d < length store ->
    finiteLayout store = true ->
    let final := fst (gesture height store el d ys) in
    let order := finalOrder (snd (gesture height store el d ys)) d in
    let inColumn := fun r =>
      r < length final /\ side (datum (obj final r)) = side (datum (obj final d)) in
    NoDup order
    /\ (forall r, In r order <-> inColumn r)
    /\ stacked (startHeight store) final (num 20) order
    /\ (forall i j, inColumn i -> inColumn j -> i <> j ->
          num_le (y1 (obj final i)) (y0 (obj final j))
          \/ num_le (y1 (obj final j)) (y0 (obj final i)))
    /\ (forall i, inColumn i ->
          num_le (num 20) (y0 (obj final i))
          /\ num_le (y0 (obj final i)) (y1 (obj final i))
          /\ num_le (y0 (obj final i) + num 8)%num (y1 (obj final i)))
    /\ (forall r, ~ inColumn r -> obj final r = obj store r).
Proof.
  intros height store el d ys Hnd Hd Hfin final order inColumn.
  destruct (gesture_column height store el d ys Hnd Hd) as [Hno [Hcol Hoth]].
  pose proof (gesture_packs height store el d ys Hnd Hd Hfin) as Hst.
  fold final order in Hno, Hcol, Hst, Hoth.
  assert (Hiff : forall r, In r order <-> inColumn r).
  { intros r. unfold inColumn, final.
    now rewrite gesture_length, !gesture_datum. }
  assert (HH : forall n, In n order ->
                 isPositive (startHeight store n) /\ num_le (num 8) (startHeight store n)).
  { intros n _. now apply startHeight_positive. }
  split; [exact Hno|]. split; [exact Hiff|]. split; [exact Hst|]. split; [|split].
  - intros i j Hi Hj Hne.
    apply (stacked_apart (startHeight store) final order HH (num 20));
      try assumption; try exact num20_positive; now apply Hiff.
  - intros i Hi.
    destruct (stacked_below (startHeight store) final order HH (num 20) i
                num20_positive Hst) as [_ [_ [H1 [H2 H3]]]]; [now apply Hiff|].
    split; [exact H1|]. split; [exact H2|exact H3].
  - intros r Hr. apply Hoth. intros C. apply Hr. now apply Hiff.
Qed.

Lemma drag_end_packs_without_overlap_witness :
  NoDup (map (fun n => id (datum n)) overfull)
  /\ 0 < length overfull
  /\ finiteLayout overfull = true
  /\ stacked (startHeight overfull)
       (fst (gesture (num 480) overfull freshElement 0 [num 300; num 20])) (num 20)
       (finalOrder (snd (gesture (num 480) overfull freshElement 0 [num 300; num 20])) 0).
Proof.
  assert (Hd : 0 < length overfull) by (simpl; lia).
  split; [exact overfull_distinct|]. split; [exact Hd|]. split; [reflexivity|].
  exact (proj1 (proj2 (proj2
           (drag_end_packs_without_overlap (num 480) overfull freshElement 0
              [num 300; num 20] overfull_distinct Hd eq_refl)))).
Defined.

(** C7, the bottom bound. In a container 480 high the column extends from
    20 to 460. Dragging [a] of [overfull] to the top and releasing it packs
    [a] at 20..28 and [b] at 42..465: [b], a node of the dragged node's
    column, ends below 460. *)
Lemma packed_column_passes_the_bottom :
  NoDup (map (fun n => id (datum n)) overfull)
  /\ 0 < length overfull
  /\ finiteLayout overfull = true
  /\ 1 < length (fst (gesture (num 480) overfull freshElement 0 [num 20]))
  /\ side (datum (obj (fst (gesture (num 480) overfull freshElement 0 [num 20])) 1))
     = side (datum (obj (fst (gesture (num 480) overfull freshElement 0 [num 20])) 0))
  /\ y0 (obj (fst (gesture (num 480) overfull freshElement 0 [num 20])) 1) = num 42
  /\ y1 (obj (fst (gesture (num 480) overfull freshElement 0 [num 20])) 1) = num 465
  /\ ~ num_le (y1 (obj (fst (gesture (num 480) overfull freshElement 0 [num 20])) 1))
              (num 480 - num 20)%num.
Proof.
  split; [exact overfull_distinct|].
  split; [simpl; lia|]. split; [reflexivity|].
  split; [vm_compute; lia|]. split; [reflexivity|].
  split; [vm_compute; reflexivity|]. split; [vm_compute; reflexivity|].
  unfold num_le. vm_compute. discriminate.
Qed.

(* ================================================================= *)
(** ** The insertion index of a "drag" event *)

Lemma insertIndex_spec centers c :
  insertIndex centers c <= length centers
  /\ (forall j, j < insertIndex centers c -> num_lt (nth j centers (num 0)) c)
  /\ (insertIndex centers c < length centers ->
      jsLt (nth (insertIndex centers c) centers (num 0)) c = false).
Proof.
  induction centers as [|x centers [IH1 [IH2 IH3]]]; simpl.
  - repeat split; intros; lia.
  - destruct (jsLt x c) eqn:E.
    + repeat split.
      * lia.
      * intros [|j] Hj; [exact E|]. apply IH2. lia.
      * intros H. apply IH3. lia.
    + repeat split.
      * lia.
      * intros j Hj. lia.
      * intros _. exact E.
Qed.

Lemma insertIndex_all centers c :
  (forall x, In x centers -> num_lt x c) -> insertIndex centers c = length centers.
Proof.
  induction centers as [|x centers IH]; intros H; simpl; [reflexivity|].
  assert (E : jsLt x c = true) by (apply H; now left). rewrite E.
  f_equal. apply IH. intros y Hy. apply H. now right.
Qed.

Lemma splice_end l d : splice l (length l) d = l ++ [d].
Proof. unfold splice. now rewrite firstn_all, skipn_all. Qed.

Lemma moves_last height d ys y st :
  moves height d (ys ++ [y]) st
  = onDrag height (fst (moves height d ys st)) (snd (moves height d ys st)) d y.
Proof. unfold moves. now rewrite fold_left_app. Qed.

(** The clamp of "drag" on numbers. *)
Lemma clampY_spec height nodeHeight eventY :
  let maxY := (height - num 20 - nodeHeight)%num in
  let newY0 := clampY height nodeHeight eventY in
  proper maxY = true -> proper eventY = true ->
  proper newY0 = true
  /\ num_le (num 20) newY0
  /\ (num_le (num 20) maxY -> num_le newY0 maxY)
  /\ (num_le (num 20) eventY -> num_le eventY maxY -> num_eq newY0 eventY)
  /\ (num_le eventY (num 20) -> num_eq newY0 (num 20))
  /\ (num_le (num 20) maxY -> num_le maxY eventY -> num_eq newY0 maxY).
Proof.
  intros maxY newY0 Hm He.
  destruct num20_positive as [H20 _].
  assert (Hc : proper newY0 = true
               /\ rank newY0
                  = Z.max (rank (num 20)) (Z.min (rank maxY) (rank eventY))).
  { destruct (Math_min_rank maxY eventY Hm He) as [Hp1 Hr1].
    destruct (Math_max_rank (num 20) (Math_min maxY eventY) H20 Hp1) as [Hp2 Hr2].
    split; [exact Hp2|].
    change (rank (Math_max (num 20) (Math_min maxY eventY))
            = Z.max (rank (num 20)) (Z.min (rank maxY) (rank eventY))).
    now rewrite Hr2, Hr1. }
  destruct Hc as [Hp2 Hr2].
  split; [exact Hp2|].
  split; [apply num_le_rank; [exact H20|exact Hp2|]; lia|].
  split; [|split; [|split]].
  - intros H. apply num_le_rank in H; [|assumption..].
    apply num_le_rank; [assumption..|]. lia.
  - intros H1 H2. apply num_le_rank in H1; [|assumption..].
    apply num_le_rank in H2; [|assumption..].
    apply num_eq_rank; [assumption..|]. lia.
  - intros H. apply num_le_rank in H; [|assumption..].
    apply num_eq_rank; [assumption..|]. lia.
  - intros H1 H2. apply num_le_rank in H1; [|assumption..].
    apply num_le_rank in H2; [|assumption..].
    apply num_eq_rank; [assumption..|]. lia.
Qed.

(** C6. The insertion index of a "drag" event. The top of the dragged node
    is the pointer position clamped between the top of the column and its
    bottom less the node's height. The index the handler stores counts the
    leading siblings, in the list "start" cached and which the handler does
    not change, whose centre is above the node's candidate centre, both
    centres as the handler computes them: it is the first index whose
    centre is not above the candidate, that is at or below it, or the
    length of the list when there is none. The dragged node itself is put
    at the clamped position. When the last "drag" event of a gesture finds
    every sibling's centre above the candidate centre, the index is the
    length of the list, "end" orders the column with the dragged node last,
    and packs it below every sibling. *)
Theorem drag_move_insert_index :
  forall (height : number) (store : list Placed) (el : Element) (d : nat)
         (eventY : number),
    let nodeHeightAt := fun s : list Placed =>
      Math_max (num 8) (y1 (obj s d) - y0 (obj s d))%num in
    let centerAt := fun (s : list Placed) (p : nat) =>
      ((y0 (obj s p) + y1 (obj s p)) / num 2)%num in
    let newCenterAt := fun s : list Placed =>
      (clampY height (nodeHeightAt s) eventY + nodeHeightAt s / num 2)%num in
    let maxY := (height - num 20 - nodeHeightAt store)%num in
    let newY0 := clampY height (nodeHeightAt store) eventY in
    let peers := orElse (__peers el) [] in
    let after := onDrag height store el d eventY in
    (proper maxY = true -> proper eventY = true ->
       num_le (num 20) newY0
       /\ (num_le (num 20) maxY -> num_le newY0 maxY)
       /\ (num_le (num 20) eventY -> num_le eventY maxY -> num_eq newY0 eventY)
       /\ (num_le eventY (num 20) -> num_eq newY0 (num 20))
       /\ (num_le (num 20) maxY -> num_le maxY eventY -> num_eq newY0 maxY))
    /\ __peers (snd after) = __peers el
    /\ (exists k,
          __insertIdx (snd after) = Some k
          /\ k <= length peers
          /\ (forall j, j < k ->
                num_lt (centerAt store (nth j peers 0)) (newCenterAt store))
          /\ (k < length peers ->
              ~ num_lt (centerAt store (nth k peers 0)) (newCenterAt store)
              /\ (isNaN (centerAt store (nth k peers 0)) = false ->
                  isNaN (newCenterAt store) = false ->
                  num_le (newCenterAt store) (centerAt store (nth k peers 0))))
          /\ ((forall p, In p peers -> num_lt (centerAt store p) (newCenterAt store)) ->
              k = length peers))
    /\ (d < length store ->
        y0 (obj (fst after) d) = newY0
        /\ y1 (obj (fst after) d) = (newY0 + nodeHeightAt store)%num)
    /\ (forall ys : list number,
          NoDup (map (fun n => id (datum n)) store) ->
          d < length store ->
          finiteLayout store = true ->
          let before := moves height d ys (store, onStart store el d) in
          let siblings := orElse (__peers (onStart store el d)) [] in
          (forall p, In p siblings ->
                     num_lt (centerAt (fst before) p) (newCenterAt (fst before))) ->
          let ended := gesture height store el d (ys ++ [eventY]) in
          __insertIdx (snd ended) = Some (length siblings)
          /\ finalOrder (snd ended) d = siblings ++ [d]
          /\ forall p, In p siblings ->
                       num_le (y1 (obj (fst ended) p)) (y0 (obj (fst ended) d))).
Proof.
  intros height store el d eventY nodeHeightAt centerAt newCenterAt maxY newY0 peers after.
  split; [|split; [|split; [|split]]].
  - intros Hm He.
    destruct (clampY_spec height (nodeHeightAt store) eventY Hm He) as [_ H]. exact H.
  - reflexivity.
  - exists (insertIndex (map (centerAt store) peers) (newCenterAt store)).
    destruct (insertIndex_spec (map (centerAt store) peers) (newCenterAt store))
      as [H1 [H2 H3]].
    rewrite length_map in H1, H3.
    split; [reflexivity|]. split; [exact H1|]. split; [|split].
    + intros j Hj. specialize (H2 j Hj).
      rewrite (nth_indep _ (num 0) (centerAt store 0)) in H2 by (rewrite length_map; lia).
      now rewrite map_nth in H2.
    + intros Hk. specialize (H3 Hk).
      rewrite (nth_indep _ (num 0) (centerAt store 0)) in H3 by (rewrite length_map; lia).
      rewrite map_nth in H3. split.
      * unfold num_lt. unfold jsLt in H3. rewrite H3. discriminate.
      * intros N1 N2. now apply not_lt_le.
    + intros Hall. rewrite insertIndex_all; [apply length_map|].
      intros x Hx. apply in_map_iff in Hx. destruct Hx as [p [<- Hp]]. now apply Hall.
  - intros Hd. unfold after, onDrag. cbn [fst].
    rewrite obj_assign_same by (now rewrite length_packPeers). split; reflexivity.
  - intros ys Hnd Hd Hfin before siblings Hall ended.
    destruct (moves_keeps height d ys (store, onStart store el d)) as [Hp _].
    fold before in Hp. cbn [snd] in Hp.
    assert (Hidx : __insertIdx (snd ended) = Some (length siblings)).
    { unfold ended, gesture. cbn [snd]. rewrite moves_last. fold before.
      unfold onDrag. cbn [snd __insertIdx]. rewrite Hp. fold siblings. f_equal.
      rewrite insertIndex_all; [apply length_map|].
      intros x Hx. apply in_map_iff in Hx. destruct Hx as [p [<- Hp']].
      now apply Hall. }
    assert (Hord : finalOrder (snd ended) d = siblings ++ [d]).
    { unfold finalOrder. rewrite Hidx. cbn [orElse].
      unfold ended, gesture. cbn [snd]. rewrite moves_last. fold before.
      unfold onDrag. cbn [snd __peers]. rewrite Hp. fold siblings.
      apply splice_end. }
    split; [exact Hidx|]. split; [exact Hord|].
    intros p Hin.
    pose proof (gesture_packs height store el d (ys ++ [eventY]) Hnd Hd Hfin) as Hst.
    fold ended in Hst. rewrite Hord in Hst.
    apply (stacked_before (startHeight store) _ siblings (num 20) d [] p);
      try assumption; [|exact num20_positive].
    intros k _. now apply startHeight_positive.
Qed.

Lemma drag_move_insert_index_witness :
  __insertIdx (snd (gesture (num 480) overfull freshElement 0 ([] ++ [num 300])))
  = Some 1
  /\ finalOrder (snd (gesture (num 480) overfull freshElement 0 ([] ++ [num 300]))) 0
     = [1; 0]
  /\ num_le (y1 (obj (fst (gesture (num 480) overfull freshElement 0 ([] ++ [num 300]))) 1))
            (y0 (obj (fst (gesture (num 480) overfull freshElement 0 ([] ++ [num 300]))) 0)).
Proof.
  pose proof (drag_move_insert_index (num 480) overfull freshElement 0 (num 300)) as H.
  cbv zeta in H. destruct H as [_ [_ [_ [_ H]]]].
  assert (Hd : 0 < length overfull) by (simpl; lia).
  destruct (H [] overfull_distinct Hd eq_refl) as [H1 [H2 H3]].
  - intros p Hp. vm_compute in Hp. destruct Hp as [<-|[]]. vm_compute. reflexivity.
  - split; [exact H1|]. split; [exact H2|]. apply H3. vm_compute. now left.
Defined.

(* ================================================================= *)
(** ** Two gestures from the same snapshot *)

Lemma assign_agree refs s1 s2 r a b :
  agree refs s1 s2 -> In r refs -> agree refs (assign s1 r a b) (assign s2 r a b).
Proof.
  intros H Hr r' Hr'. rewrite !length_assign.
  destruct (H r' Hr') as [H1 [H2 H3]]. split; [exact H1|]. split; [exact H2|].
  destruct (Nat.eq_dec r' r) as [->|Hne].
  - rewrite !obj_assign_same by assumption. now rewrite H3.
  - now rewrite !obj_assign_other.
Qed.

Lemma packPeers_agree refs hs k nh peers :
  incl peers refs ->
  forall i y s1 s2,
    agree refs s1 s2 ->
    agree refs (packPeers hs k nh peers i y s1) (packPeers hs k nh peers i y s2).
Proof.
  induction peers as [|p peers IH]; intros Hincl i y s1 s2 H; simpl; [exact H|].
  assert (Hp : In p refs) by (apply Hincl; now left).
  destruct (H p Hp) as [_ [_ ->]].
  apply IH; [intros x Hx; apply Hincl; now right|].
  now apply assign_agree.
Qed.

Lemma packAll_agree refs hs order :
  incl order refs ->
  forall y s1 s2,
    agree refs s1 s2 -> agree refs (packAll hs order y s1) (packAll hs order y s2).
Proof.
  induction order as [|n order IH]; intros Hincl y s1 s2 H; simpl; [exact H|].
  assert (Hn : In n refs) by (apply Hincl; now left).
  destruct (H n Hn) as [_ [_ ->]].
  apply IH; [intros x Hx; apply Hincl; now right|].
  now apply assign_agree.
Qed.

(** A "drag" event reads the element's peers and heights, not its index:
    from stores that agree on the dragged node and its peers it leaves
    stores that agree and the same properties on the element. *)
Lemma onDrag_agree height d y peers hs i1 i2 s1 s2 :
  agree (d :: peers) s1 s2 ->
  agree (d :: peers)
    (fst (onDrag height s1 (mkElement (Some peers) hs i1) d y))
    (fst (onDrag height s2 (mkElement (Some peers) hs i2) d y))
  /\ snd (onDrag height s1 (mkElement (Some peers) hs i1) d y)
     = snd (onDrag height s2 (mkElement (Some peers) hs i2) d y).
Proof.
  intros H. unfold onDrag. cbn [fst snd __peers __heights orElse].
  destruct (H d (or_introl eq_refl)) as [_ [_ Hd]]. rewrite Hd.
  assert (Hc : map (fun p => ((y0 (obj s1 p) + y1 (obj s1 p)) / num 2)%num) peers
               = map (fun p => ((y0 (obj s2 p) + y1 (obj s2 p)) / num 2)%num) peers).
  { apply map_ext_in. intros p Hp.
    destruct (H p (or_intror Hp)) as [_ [_ ->]]. reflexivity. }
  rewrite Hc. split; [|reflexivity].
  apply assign_agree; [|now left].
  apply packPeers_agree; [|exact H]. intros x Hx. now right.
Qed.

Lemma moves_agree height d peers hs ys :
  forall i s1 s2,
    agree (d :: peers) s1 s2 ->
    agree (d :: peers)
      (fst (moves height d ys (s1, mkElement (Some peers) hs i)))
      (fst (moves height d ys (s2, mkElement (Some peers) hs i)))
    /\ snd (moves height d ys (s1, mkElement (Some peers) hs i))
       = snd (moves height d ys (s2, mkElement (Some peers) hs i)).
Proof.
  unfold moves. induction ys as [|y ys IH]; intros i s1 s2 H; simpl.
  - split; [exact H|reflexivity].
  - destruct (onDrag_agree height d y peers hs i i s1 s2 H) as [Ha He].
    destruct (onDrag height s1 (mkElement (Some peers) hs i) d y) as [t1 e1] eqn:E1.
    destruct (onDrag height s2 (mkElement (Some peers) hs i) d y) as [t2 e2] eqn:E2.
    cbn [fst snd] in *. subst e2.
    assert (He1 : e1 = mkElement (Some peers) hs (__insertIdx e1)).
    { unfold onDrag in E1. injection E1 as _ <-. reflexivity. }
    rewrite He1. now apply IH.
Qed.

(** C8. Drag determinism. Take two gestures on the node [d], in stores
    whose "start" handlers cache the same peer list and the same heights
    and which hold the same objects (hence positions) for [d] and its
    peers, in containers of the same height, with the same pointer
    positions in the "drag" events. When there is at least one "drag"
    event, whatever else the stores hold and whatever the elements kept
    from earlier gestures, "end" leaves the same final order and the same
    object, so the same extent, for [d] and for each of its peers. With no
    "drag" event at all the same holds when the two elements carry the same
    index from earlier gestures. *)
Theorem drag_deterministic :
  forall (height : number) (s1 s2 : list Placed) (el1 el2 : Element) (d : nat)
         (ys : list number),
    ys <> [] \/ __insertIdx el1 = __insertIdx el2 ->
    __peers (onStart s1 el1 d) = __peers (onStart s2 el2 d) ->
    __heights (onStart s1 el1 d) = __heights (onStart s2 el2 d) ->
    agree (d :: orElse (__peers (onStart s1 el1 d)) []) s1 s2 ->
    let g1 := gesture height s1 el1 d ys in
    let g2 := gesture height s2 el2 d ys in
    finalOrder (snd g1) d = finalOrder (snd g2) d
    /\ __insertIdx (snd g1) = __insertIdx (snd g2)
    /\ forall r, In r (d :: orElse (__peers (onStart s1 el1 d)) []) ->
                 obj (fst g1) r = obj (fst g2) r.
Proof.
  intros height s1 s2 el1 el2 d ys Hys Hp Hh Hag g1 g2.
  destruct (onStart_peers s1 el1 d) as [peers [Hp1 _]].
  rewrite Hp1 in Hp, Hag. cbn [orElse] in Hag. rewrite Hp1. cbn [orElse].
  set (hs := __heights (onStart s1 el1 d)) in *.
  assert (E1 : onStart s1 el1 d = mkElement (Some peers) hs (__insertIdx el1)).
  { unfold hs. rewrite <- Hp1. reflexivity. }
  assert (E2 : onStart s2 el2 d = mkElement (Some peers) hs (__insertIdx el2)).
  { rewrite Hh, Hp. reflexivity. }
  assert (Hm : agree (d :: peers) (fst (moves height d ys (s1, onStart s1 el1 d)))
                 (fst (moves height d ys (s2, onStart s2 el2 d)))
               /\ snd (moves height d ys (s1, onStart s1 el1 d))
                  = snd (moves height d ys (s2, onStart s2 el2 d))).
  { rewrite E1, E2. destruct ys as [|y ys].
    - destruct Hys as [Hys|Hys]; [contradiction|].
      rewrite Hys. split; [exact Hag|reflexivity].
    - destruct (onDrag_agree height d y peers hs (__insertIdx el1) (__insertIdx el2)
                  s1 s2 Hag) as [Ha He].
      unfold moves. simpl fold_left. cbn [fst snd].
      destruct (onDrag height s1 (mkElement (Some peers) hs (__insertIdx el1)) d y)
        as [t1 e1] eqn:D1.
      destruct (onDrag height s2 (mkElement (Some peers) hs (__insertIdx el2)) d y)
        as [t2 e2] eqn:D2.
      cbn [fst snd] in *. subst e2.
      assert (He1 : e1 = mkElement (Some peers) hs (__insertIdx e1)).
      { unfold onDrag in D1. injection D1 as _ <-. reflexivity. }
      rewrite He1. now apply (moves_agree height d peers hs ys). }
  destruct Hm as [Hm1 Hm2].
  assert (Hel : snd g1 = snd g2) by (unfold g1, g2, gesture; cbn [snd]; exact Hm2).
  split; [now rewrite Hel|]. split; [now rewrite Hel|].
  intros r Hr. unfold g1, g2, gesture, onEnd. cbn [fst].
  rewrite <- Hm2.
  set (st := moves height d ys (s1, onStart s1 el1 d)) in *.
  assert (Hpe : __peers (snd st) = Some peers).
  { destruct (moves_keeps height d ys (s1, onStart s1 el1 d)) as [Hk _].
    fold st in Hk. rewrite Hk. cbn [snd]. exact Hp1. }
  refine (proj2 (proj2 (packAll_agree (d :: peers) _ (finalOrder (snd st) d) _ (num 20) _ _
                          Hm1 r Hr))).
  unfold finalOrder. rewrite Hpe. cbn [orElse]. intros x Hx.
  apply (Permutation_in _ (splice_perm _ _ _)) in Hx. exact Hx.
Qed.

Lemma drag_deterministic_witness :
  finalOrder (snd (gesture (num 480) overfull freshElement 0 [num 300; num 20])) 0
  = finalOrder (snd (gesture (num 480) overfullShifted usedElement 0 [num 300; num 20])) 0
  /\ __insertIdx (snd (gesture (num 480) overfull freshElement 0 [num 300; num 20]))
     = __insertIdx (snd (gesture (num 480) overfullShifted usedElement 0 [num 300; num 20]))
  /\ forall r, In r [0; 1] ->
               obj (fst (gesture (num 480) overfull freshElement 0 [num 300; num 20])) r
               = obj (fst (gesture (num 480) overfullShifted usedElement 0 [num 300; num 20])) r.
Proof.
  apply (drag_deterministic (num 480) overfull overfullShifted freshElement usedElement 0
           [num 300; num 20]).
  - left. discriminate.
  - reflexivity.
  - reflexivity.
  - intros r Hr. simpl in Hr. destruct Hr as [<-|[<-|[]]]; simpl; repeat split; lia.
Defined.

(** With no "drag" event between "start" and "end", "end" reads the index
    an earlier gesture left on the element, or 0 on a fresh element: the
    same store is ordered differently. *)
Remark release_without_move_reads_leftover_index :
  finalOrder (snd (gesture (num 480) overfull freshElement 1 [])) 1 = [1; 0]
  /\ finalOrder (snd (gesture (num 480) overfull (mkElement None None (Some 1)) 1 [])) 1
     = [0; 1].
Proof. split; reflexivity. Qed.


(* ================================================================= *)
(** ** Values without the bar character *)

Lemma append_nil_r (s : string) : (s ++ EmptyString)%string = s.
Proof. induction s as [|c s IH]; simpl; [reflexivity|now rewrite IH]. Qed.

Lemma append_snoc (p : string) (c : ascii) (r : string) :
  ((p ++ String c EmptyString) ++ r)%string = (p ++ String c r)%string.
Proof. induction p as [|x p IH]; simpl; [reflexivity|now rewrite IH]. Qed.

Lemma prefix_bar_head (c : ascii) (r : string) :
  Ascii.eqb c "|"%char = false -> prefix "|||" (String c r) = false.
Proof.
  intros H.
  change (prefix "|||" (String c r))
    with (if ascii_dec "|" c then prefix "||" r else false).
  destruct (ascii_dec "|" c) as [<-|]; [discriminate|reflexivity].
Qed.

Lemma prefix_sep (t : string) :
  prefix "|||" (String "|" (String "|" (String "|" t))) = true.
Proof. destruct t; reflexivity. Qed.

Lemma splitFrom_barFree t :
  barFree t = true ->
  forall piece, splitFrom "|||" 0 piece t = [(piece ++ t)%string].
Proof.
  induction t as [|c r IH]; simpl barFree; intros H piece.
  - simpl. now rewrite append_nil_r.
  - apply andb_true_iff in H. destruct H as [Hc Hr]. apply negb_true_iff in Hc.
    cbn [splitFrom]. rewrite (prefix_bar_head c r Hc), (IH Hr).
    now rewrite append_snoc.
Qed.

Lemma splitFrom_key s t :
  barFree s = true -> barFree t = true ->
  forall piece, splitFrom "|||" 0 piece (linkKey s t) = [(piece ++ s)%string; t].
Proof.
  unfold linkKey. induction s as [|c r IH]; simpl barFree; intros Hs Ht piece.
  - change (EmptyString ++ "|||" ++ t)%string
      with (String "|" (String "|" (String "|" t))).
    cbn [splitFrom]. rewrite prefix_sep.
    change (String.length "|||" - 1) with 2. cbn [splitFrom].
    now rewrite append_nil_r, (splitFrom_barFree t Ht EmptyString).
  - apply andb_true_iff in Hs. destruct Hs as [Hc Hr]. apply negb_true_iff in Hc.
    change (String c r ++ "|||" ++ t)%string with (String c (r ++ "|||" ++ t)%string).
    cbn [splitFrom]. rewrite (prefix_bar_head c _ Hc), (IH Hr Ht).
    now rewrite append_snoc.
Qed.

Lemma split_key s t :
  barFree s = true -> barFree t = true -> split "|||" (linkKey s t) = [s; t].
Proof. intros Hs Ht. unfold split. simpl. now apply (splitFrom_key s t Hs Ht EmptyString). Qed.

Lemma linkOf_key s t e :
  barFree s = true -> barFree t = true ->
  linkOf (linkKey s t, e) = mkLink ("S:" ++ s) ("T:" ++ t) (count e).
Proof. intros Hs Ht. unfold linkOf. cbn [fst snd]. now rewrite split_key. Qed.

(** Links and pairs when the values have no bar. When no value of an
    included row has a bar in it, every link is the link of the pair of an included row and
    both its ends are ids of nodes of the graph; every pair of an included
    row has its link; and no two links have the same ends. *)
Theorem links_match_pairs_without_bar :
  forall (rows : list Row) (a b : string),
    (forall p, In p (included a b rows 0) ->
               barFree (srcOf p) = true /\ barFree (tgtOf p) = true) ->
    exists r,
      buildGraph true rows a b = Normal r
      /\ (forall l, In l (links (graph r)) ->
            exists i s t,
              In (i, (s, t)) (included a b rows 0)
              /\ source l = ("S:" ++ s)%string /\ target l = ("T:" ++ t)%string
              /\ value l = length (positionsOf a b rows (linkKey s t))
              /\ In (source l) (map id (nodes (graph r)))
              /\ In (target l) (map id (nodes (graph r))))
      /\ (forall i s t,
            In (i, (s, t)) (included a b rows 0) ->
            exists c, In (mkLink ("S:" ++ s) ("T:" ++ t) c) (links (graph r)))
      /\ NoDup (map (fun l => (source l, target l)) (links (graph r))).
Proof.
  intros rows a b Hfree. destruct (buildGraph_loaded rows a b) as [n Hn].
  eexists. split; [exact Hn|]. cbn [graph nodes links].
  assert (Hkey : forall k e, In (k, e) (linkMap (loopEnd a b rows)) ->
            exists i s t, In (i, (s, t)) (included a b rows 0) /\ k = linkKey s t
                          /\ barFree s = true /\ barFree t = true).
  { intros k e Hin.
    assert (Hk : In k (JsMap.keys (linkMap (loopEnd a b rows)))).
    { change k with (fst (k, e)). now apply in_map. }
    rewrite loopEnd_keys in Hk. apply (proj1 (In_firstOccurrences _ _)) in Hk.
    apply in_map_iff in Hk. destruct Hk as [[i [s t]] [<- Hp]].
    destruct (Hfree _ Hp) as [Hs Ht]. now exists i, s, t. }
  split; [|split].
  - intros l Hl. apply in_map_iff in Hl. destruct Hl as [[k e] [<- Hin]].
    destruct (Hkey k e Hin) as [i [s [t [Hp [-> [Hs Ht]]]]]].
    exists i, s, t. rewrite (linkOf_key s t e Hs Ht). cbn [source target value].
    split; [exact Hp|]. split; [reflexivity|]. split; [reflexivity|].
    split; [|split].
    + apply loopEnd_entry in Hin. now destruct Hin as [_ ->].
    + rewrite loopEnd_sources, map_app. apply in_or_app. left.
      rewrite map_map. apply (in_map (fun x => id (sourceNode x))).
      apply (proj2 (In_firstOccurrences _ _)). apply (in_map srcOf) in Hp. exact Hp.
    + rewrite loopEnd_targets, map_app. apply in_or_app. right.
      rewrite map_map. apply (in_map (fun x => id (targetNode x))).
      apply (proj2 (In_firstOccurrences _ _)). apply (in_map tgtOf) in Hp. exact Hp.
  - intros i s t Hp. destruct (Hfree _ Hp) as [Hs Ht]. cbn [srcOf tgtOf fst snd] in Hs, Ht.
    assert (Hk : In (linkKey s t) (JsMap.keys (linkMap (loopEnd a b rows)))).
    { rewrite loopEnd_keys. apply (proj2 (In_firstOccurrences _ _)). apply (in_map keyOf) in Hp.
      exact Hp. }
    apply in_map_iff in Hk. destruct Hk as [[k e] [Hk Hin]]. simpl in Hk. subst k.
    exists (count e). rewrite <- (linkOf_key s t e Hs Ht). now apply in_map.
  - rewrite map_map. apply NoDup_map_NoDup_ForallPairs.
    + intros [k1 e1] [k2 e2] H1 H2 Heq.
      destruct (Hkey k1 e1 H1) as [i1 [s1 [t1 [_ [-> [Hs1 Ht1]]]]]].
      destruct (Hkey k2 e2 H2) as [i2 [s2 [t2 [_ [-> [Hs2 Ht2]]]]]].
      rewrite !linkOf_key in Heq by assumption. cbn [source target] in Heq.
      injection Heq as -> ->.
      assert (Hnd : NoDup (JsMap.keys (linkMap (loopEnd a b rows)))).
      { rewrite loopEnd_keys. apply NoDup_firstOccurrences. }
      apply (In_get _ _ _ Hnd) in H1, H2. rewrite H1 in H2. now injection H2 as ->.
    + apply (NoDup_map_inv fst). fold (JsMap.keys (linkMap (loopEnd a b rows))).
      rewrite loopEnd_keys. apply NoDup_firstOccurrences.
Qed.

Lemma links_match_pairs_without_bar_witness :
  exists r,
    buildGraph true scenarioRows "A" "B" = Normal r
    /\ NoDup (map (fun l => (source l, target l)) (links (graph r))).
Proof.
  destruct (links_match_pairs_without_bar scenarioRows "A" "B")
    as [r [Hr [_ [_ Hnd]]]].
  - intros p Hp. vm_compute in Hp.
    repeat (destruct Hp as [<-|Hp]; [split; reflexivity|]). contradiction.
  - exists r. split; [exact Hr|exact Hnd].
Defined.

(** The scenario of the specification: three nodes, two links, row 4 left
    out. *)
Example scenario_build :
  buildGraph true scenarioRows "A" "B"
  = Normal (mkBuildResult
              (mkGraph [ mkNode "S:x" "x" left; mkNode "S:y" "y" left;
                         mkNode "T:p" "p" right ]
                       [ mkLink "S:x" "T:p" 2; mkLink "S:y" "T:p" 1 ])
              [ ("x|||p", mkEntry 2 [1; 2]); ("y|||p", mkEntry 1 [3]) ]
              2).
Proof. reflexivity. Qed.


(* ================================================================= *)
(** ** The order of the output *)

Lemma key_injective s t s' t' :
  barFree s = true -> barFree t = true -> barFree s' = true -> barFree t' = true ->
  linkKey s t = linkKey s' t' -> s = s' /\ t = t'.
Proof.
  intros Hs Ht Hs' Ht' E.
  pose proof (split_key s t Hs Ht) as H1. rewrite E in H1.
  rewrite (split_key s' t' Hs' Ht') in H1. injection H1 as -> ->. now split.
Qed.

Lemma In_firstPairs l x : In x (firstPairs l) -> In x l.
Proof.
  revert x. induction l as [|y l IH]; intros x; simpl; [trivial|].
  intros [->|H]; [now left|right]. apply filter_In in H. apply IH, H.
Qed.

Lemma filter_map_swap {A B : Type} (f : A -> B) (p : B -> bool) (l : list A) :
  filter p (map f l) = map f (filter (fun x => p (f x)) l).
Proof.
  induction l as [|x l IH]; simpl; [reflexivity|].
  destruct (p (f x)); simpl; now rewrite IH.
Qed.

Lemma pairEqb_key x y :
  barFree (fst x) = true -> barFree (snd x) = true ->
  barFree (fst y) = true -> barFree (snd y) = true ->
  (linkKey (fst y) (snd y) =? linkKey (fst x) (snd x))%string = pairEqb y x.
Proof.
  intros H1 H2 H3 H4. unfold pairEqb.
  destruct (String.eqb_spec (linkKey (fst y) (snd y)) (linkKey (fst x) (snd x))) as [E|E].
  - destruct (key_injective _ _ _ _ H3 H4 H1 H2 E) as [-> ->].
    now rewrite !String.eqb_refl.
  - destruct (String.eqb_spec (fst y) (fst x)) as [E1|]; [|reflexivity].
    destruct (String.eqb_spec (snd y) (snd x)) as [E2|]; [|reflexivity].
    exfalso. apply E. now rewrite E1, E2.
Qed.

(** When no value has a bar, the keys first met are the keys of the pairs
    first met. *)
Lemma firstOccurrences_keys l :
  (forall x, In x l -> barFree (fst x) = true /\ barFree (snd x) = true) ->
  firstOccurrences (map (fun st => linkKey (fst st) (snd st)) l)
  = map (fun st => linkKey (fst st) (snd st)) (firstPairs l).
Proof.
  induction l as [|x l IH]; intros H; simpl; [reflexivity|].
  f_equal. rewrite IH by (intros y Hy; apply H; now right).
  rewrite filter_map_swap. f_equal. apply filter_ext_in. intros y Hy.
  apply In_firstPairs in Hy. f_equal.
  destruct (H x (or_introl eq_refl)) as [H1 H2].
  destruct (H y (or_intror Hy)) as [H3 H4].
  now apply pairEqb_key.
Qed.

Lemma positionsOf_pair a b rows s t :
  (forall p, In p (included a b rows 0) ->
             barFree (srcOf p) = true /\ barFree (tgtOf p) = true) ->
  barFree s = true -> barFree t = true ->
  positionsOf a b rows (linkKey s t) = positionsOfPair a b rows s t.
Proof.
  intros Hfree Hs Ht. unfold positionsOf, positionsOfPair. f_equal.
  apply filter_ext_in. intros p Hp. destruct (Hfree p Hp) as [H1 H2].
  unfold keyOf.
  exact (pairEqb_key (s, t) (srcOf p, tgtOf p) Hs Ht H1 H2).
Qed.

(** X23. The order of the output. The nodes are the source nodes in the
    order their values are first met followed by the target nodes in the
    order theirs are first met; the entries of [byLinkKey] come in the
    order their keys are first met, each with the count and the positions
    of its rows. When no value of a qualifying row has a bar in it, the
    links are, in the order the pairs of values are first met, one for
    each pair: from the source node of its first value to the target node
    of its second, with the number of qualifying rows holding the pair as
    its value. *)
Theorem output_in_first_encounter_order :
  forall (rows : list Row) (a b : string),
  exists r,
    buildGraph true rows a b = Normal r
    /\ nodes (graph r)
       = map sourceNode (firstOccurrences (map srcOf (included a b rows 0)))
         ++ map targetNode (firstOccurrences (map tgtOf (included a b rows 0)))
    /\ byLinkKey r
       = map (fun k => (k, mkEntry (length (positionsOf a b rows k))
                                   (positionsOf a b rows k)))
             (firstOccurrences (map keyOf (included a b rows 0)))
    /\ ((forall p, In p (included a b rows 0) ->
                   barFree (srcOf p) = true /\ barFree (tgtOf p) = true) ->
        links (graph r)
        = map (fun st => mkLink (id (sourceNode (fst st))) (id (targetNode (snd st)))
                           (length (positionsOfPair a b rows (fst st) (snd st))))
              (firstPairs (map snd (included a b rows 0)))).
Proof.
  intros rows a b. destruct (buildGraph_loaded rows a b) as [n Hn].
  eexists. split; [exact Hn|]. cbn [graph nodes links byLinkKey].
  assert (Hmap : linkMap (loopEnd a b rows)
                 = map (fun k => (k, mkEntry (length (positionsOf a b rows k))
                                             (positionsOf a b rows k)))
                       (firstOccurrences (map keyOf (included a b rows 0)))).
  { rewrite <- loopEnd_keys. apply entries_from_keys.
    intros k e Hin. now apply loopEnd_entry in Hin. }
  split; [now rewrite loopEnd_sources, loopEnd_targets|]. split; [exact Hmap|].
  intros Hfree. unfold JsMap.entries. rewrite Hmap.
  assert (Hkeys : map keyOf (included a b rows 0)
                  = map (fun st => linkKey (fst st) (snd st))
                        (map snd (included a b rows 0))).
  { rewrite map_map. reflexivity. }
  assert (Hfree' : forall x, In x (map snd (included a b rows 0)) ->
                     barFree (fst x) = true /\ barFree (snd x) = true).
  { intros x Hx. apply in_map_iff in Hx. destruct Hx as [p [<- Hp]].
    exact (Hfree p Hp). }
  rewrite Hkeys, (firstOccurrences_keys _ Hfree'), !map_map.
  apply map_ext_in. intros [s t] Hst. cbn [fst snd].
  apply In_firstPairs in Hst. destruct (Hfree' _ Hst) as [Hs Ht]. cbn [fst snd] in Hs, Ht.
  rewrite (linkOf_key s t _ Hs Ht). cbn [count sourceNode targetNode id].
  now rewrite (positionsOf_pair a b rows s t Hfree Hs Ht).
Qed.

Lemma output_in_first_encounter_order_witness :
  exists r,
    buildGraph true scenarioRows "A" "B" = Normal r
    /\ links (graph r) = [mkLink "S:x" "T:p" 2; mkLink "S:y" "T:p" 1].
Proof.
  destruct (output_in_first_encounter_order scenarioRows "A" "B")
    as [r [Hr [_ [_ Hl]]]].
  exists r. split; [exact Hr|]. rewrite Hl; [reflexivity|].
  intros p Hp. vm_compute in Hp.
  repeat (destruct Hp as [<-|Hp]; [split; reflexivity|]). contradiction.
Defined.

(* ================================================================= *)
(** ** More on the graph builder *)

Lemma loopEnd_linkMap a b rows :
  linkMap (loopEnd a b rows)
  = map (fun k => (k, mkEntry (length (positionsOf a b rows k)) (positionsOf a b rows k)))
        (firstOccurrences (map keyOf (included a b rows 0))).
Proof.
  rewrite <- loopEnd_keys. apply entries_from_keys.
  intros k e Hin. now apply loopEnd_entry in Hin.
Qed.

Lemma filter_split_perm {A : Type} (p : A -> bool) (l : list A) :
  Permutation (filter p l ++ filter (fun x => negb (p x)) l) l.
Proof.
  induction l as [|x l IH]; simpl; [constructor|].
  destruct (p x); simpl.
  - now constructor.
  - rewrite <- Permutation_middle. now constructor.
Qed.

(** Grouping a list by the values of a key, over a duplicate-free list of
    keys that covers it, only rearranges the list. *)
Lemma group_by_key_perm {A : Type} (f : A -> string) (ks : list string) :
  NoDup ks ->
  forall l, (forall x, In x l -> In (f x) ks) ->
            Permutation (concat (map (fun k => filter (fun x => (f x =? k)%string) l) ks)) l.
Proof.
  induction 1 as [|k ks Hk Hnd IH]; intros l Hcov; simpl.
  - destruct l as [|x l]; [constructor|]. destruct (Hcov x (or_introl eq_refl)).
  - apply (Permutation_trans
             (l' := filter (fun x => (f x =? k)%string) l
                    ++ filter (fun x => negb (f x =? k)%string) l));
      [|apply filter_split_perm].
    apply Permutation_app_head.
    rewrite <- (IH (filter (fun x => negb (f x =? k)%string) l)).
    + apply Permutation_refl'. f_equal. apply map_ext_in. intros k' Hk'.
      rewrite filter_filter. apply filter_ext. intros x.
      destruct (String.eqb_spec (f x) k') as [E|E]; [|now rewrite andb_false_r].
      destruct (String.eqb_spec (f x) k) as [E'|E']; [|reflexivity].
      exfalso. apply Hk. congruence.
    + intros x Hx. apply filter_In in Hx. destruct Hx as [Hx Hne].
      destruct (Hcov x Hx) as [E|E]; [|exact E].
      rewrite E, String.eqb_refl in Hne. discriminate.
Qed.

Lemma length_concat_sum {A : Type} (ls : list (list A)) :
  length (concat ls) = list_sum (map (@length A) ls).
Proof.
  induction ls as [|l ls IH]; simpl; [reflexivity|].
  now rewrite length_app, IH.
Qed.

Lemma included_length a b rows :
  forall idx, length (included a b rows idx) = length (filter (qualifies a b) rows).
Proof.
  induction rows as [|row rows IH]; intros idx; simpl; [reflexivity|].
  unfold qualifies at 1.
  destruct ((getVal row a =? EmptyString)%string || (getVal row b =? EmptyString)%string);
    simpl; now rewrite IH.
Qed.

(** X1. The reference lists of the links partition the qualifying rows:
    put end to end they hold the 1-based position of every qualifying row
    once and nothing else, and the link values add up to the number of
    qualifying rows. *)
Theorem reference_ids_partition_the_rows :
  forall (rows : list Row) (a b : string),
  exists r,
    buildGraph true rows a b = Normal r
    /\ Permutation (concat (map (fun kv => refIds (snd kv)) (byLinkKey r)))
                   (map fst (included a b rows 0))
    /\ list_sum (map value (links (graph r))) = length (filter (qualifies a b) rows)
    /\ length (included a b rows 0) = length (filter (qualifies a b) rows).
Proof.
  intros rows a b. destruct (buildGraph_loaded rows a b) as [n Hn].
  eexists. split; [exact Hn|]. cbn [graph links byLinkKey].
  assert (Hperm : Permutation
            (concat (map (fun kv => refIds (snd kv)) (linkMap (loopEnd a b rows))))
            (map fst (included a b rows 0))).
  { rewrite loopEnd_linkMap, map_map. cbn [snd refIds]. unfold positionsOf.
    rewrite <- (map_map (fun k => filter (fun p => (keyOf p =? k)%string)
                                        (included a b rows 0)) (map fst)).
    rewrite <- concat_map. apply Permutation_map.
    apply group_by_key_perm; [apply NoDup_firstOccurrences|].
    intros x Hx. apply In_firstOccurrences. now apply in_map. }
  pose proof (included_length a b rows 0) as Hlen.
  split; [exact Hperm|]. split; [|exact Hlen].
  rewrite <- Hlen, <- (length_map fst), <- (Permutation_length Hperm), length_concat_sum.
  f_equal. rewrite !map_map. apply map_ext_in. intros [k e] Hin. cbn [snd].
  unfold linkOf. cbn [value snd].
  apply loopEnd_entry in Hin. now destruct Hin as [_ ->].
Qed.

Lemma qualifies_false a b row : qualifies a b row = false <-> excluded a b row.
Proof.
  unfold qualifies, excluded. rewrite negb_false_iff, orb_true_iff.
  now rewrite !String.eqb_eq.
Qed.

Lemma included_nil a b rows :
  forall idx, included a b rows idx = [] <-> (forall row, In row rows -> excluded a b row).
Proof.
  intros idx. split; [|intros H; now apply included_none].
  revert idx. induction rows as [|row rows IH]; intros idx H r Hr; [contradiction|].
  simpl in H. destruct (qualifies a b row) eqn:E.
  - unfold qualifies in E. apply negb_true_iff in E. rewrite E in H. discriminate.
  - destruct Hr as [<-|Hr]; [now apply qualifies_false|].
    unfold qualifies in E. apply negb_false_iff in E. rewrite E in H.
    now apply (IH (S idx)).
Qed.

Lemma firstOccurrences_nil l : firstOccurrences l = [] <-> l = [].
Proof. destruct l; simpl; split; intros H; try reflexivity; discriminate. Qed.

Lemma some_row_qualifies a b rows :
  ~ (forall row, In row rows -> excluded a b row) <->
  exists row, In row rows /\ qualifies a b row = true.
Proof.
  split.
  - induction rows as [|row rows IH]; intros H; [exfalso; apply H; intros ? []|].
    destruct (qualifies a b row) eqn:E; [exists row; split; [now left|exact E]|].
    destruct IH as [r [Hr Hq]].
    + intros C. apply H. intros r [<-|Hr]; [now apply qualifies_false|now apply C].
    + exists r. split; [now right|exact Hq].
  - intros [row [Hr Hq]] C. apply C in Hr. apply qualifies_false in Hr. congruence.
Qed.

Lemma loopEnd_links_empty a b rows :
  map linkOf (linkMap (loopEnd a b rows)) = []
  <-> forall row, In row rows -> excluded a b row.
Proof.
  rewrite loopEnd_linkMap, <- (included_nil a b rows 0).
  destruct (included a b rows 0) as [|p l]; simpl; split; intros H;
    try reflexivity; discriminate.
Qed.

Lemma build_links_empty rows a b :
  exists r,
    buildGraph true rows a b = Normal r
    /\ (links (graph r) = [] <-> forall row, In row rows -> excluded a b row).
Proof.
  destruct (buildGraph_loaded rows a b) as [n Hn].
  eexists. split; [exact Hn|]. apply loopEnd_links_empty.
Qed.

(** X2. The graph is empty exactly when no row qualifies: there are no
    links if and only if there are no nodes, if and only if every row has an
    empty trimmed value in one of the two columns. *)
Theorem graph_empty_iff_no_row_qualifies :
  forall (rows : list Row) (a b : string),
  exists r,
    buildGraph true rows a b = Normal r
    /\ (links (graph r) = [] <-> forall row, In row rows -> excluded a b row)
    /\ (nodes (graph r) = [] <-> forall row, In row rows -> excluded a b row)
    /\ (byLinkKey r = [] <-> forall row, In row rows -> excluded a b row).
Proof.
  intros rows a b. destruct (buildGraph_loaded rows a b) as [n Hn].
  eexists. split; [exact Hn|]. cbn [graph links nodes byLinkKey].
  rewrite loopEnd_sources, loopEnd_targets, loopEnd_linkMap.
  rewrite <- (included_nil a b rows 0).
  destruct (included a b rows 0) as [|p l]; simpl.
  - repeat split; reflexivity.
  - repeat split; intros H; discriminate.
Qed.

(** X3. What [renderSankey] does, with D3 loaded, is decided by the
    selection and by the rows alone: it writes the "select" placeholder
    exactly when a column is unset, the "no connections" placeholder
    exactly when both are set and no row qualifies, and it goes on to draw
    exactly when both are set and some row qualifies; the drawing gets the
    graph [buildGraph] returns and the client size, or 800 by 480 where the
    client size is 0. *)
Theorem renderSankey_outcomes :
  forall (rows : list Row) (config : Config) (w h : Q),
    let a := orElse (cfgSourceCol config) EmptyString in
    let b := orElse (cfgTargetCol config) EmptyString in
    let selected := unset (cfgSourceCol config) = false
                    /\ unset (cfgTargetCol config) = false in
    (renderSankey true w h rows config = Normal (Placeholder (placeholder msgSelect))
     <-> ~ selected)
    /\ (renderSankey true w h rows config = Normal (Placeholder (placeholder msgNoLinks))
        <-> selected /\ forall row, In row rows -> excluded a b row)
    /\ ((exists width height built,
           renderSankey true w h rows config = Normal (Drawing width height built))
        <-> selected /\ exists row, In row rows /\ qualifies a b row = true)
    /\ (forall width height built,
          renderSankey true w h rows config = Normal (Drawing width height built) ->
          width = sizeOr w 800 /\ height = sizeOr h 480
          /\ buildGraph true rows a b = Normal built).
Proof.
  intros rows config w h a b selected. unfold selected, renderSankey. fold a b.
  destruct (build_links_empty rows a b) as [r [Hr Hl]].
  rewrite Hr. rewrite <- some_row_qualifies, <- Hl.
  assert (Hmsg : @Normal Rendering (Placeholder (placeholder msgSelect))
                 <> Normal (Placeholder (placeholder msgNoLinks)))
    by (vm_compute; discriminate).
  destruct (unset (cfgSourceCol config)); simpl.
  { split; [|split; [|split]].
    - split; [intros _ [C _]; discriminate|reflexivity].
    - split; [intros C; contradiction (Hmsg C)|intros [[C _] _]; discriminate].
    - split; [intros [? [? [? C]]]; discriminate|intros [[C _] _]; discriminate].
    - intros; discriminate. }
  destruct (unset (cfgTargetCol config)); simpl.
  { split; [|split; [|split]].
    - split; [intros _ [_ C]; discriminate|reflexivity].
    - split; [intros C; contradiction (Hmsg C)|intros [[_ C] _]; discriminate].
    - split; [intros [? [? [? C]]]; discriminate|intros [[_ C] _]; discriminate].
    - intros; discriminate. }
  destruct (links (graph r)) as [|l ls] eqn:E.
  - split; [|split; [|split]].
    + split; [intros C; symmetry in C; contradiction (Hmsg C)|].
      intros C. exfalso. apply C. now split.
    + split; [intros _; repeat split|reflexivity].
    + split; [intros [? [? [? C]]]; discriminate|intros [_ C]; now contradiction C].
    + intros; discriminate.
  - split; [|split; [|split]].
    + split; [discriminate|]. intros C. exfalso. apply C. now split.
    + split; [discriminate|intros [_ C]; discriminate].
    + split; [intros _; split; [now split|discriminate]|].
      intros _. do 3 eexists. reflexivity.
    + intros ? ? ? C. injection C as <- <- <-. repeat split.
Qed.

(* ================================================================= *)
(** ** Trimming *)

Lemma trimStart_head s : startsWithWhiteSpace (trimStart s) = false.
Proof.
  induction s as [|c s IH]; simpl; [reflexivity|].
  destruct (isWhiteSpace c) eqn:E; [exact IH|]. simpl. exact E.
Qed.

Lemma trimEnd_head s :
  startsWithWhiteSpace s = false -> startsWithWhiteSpace (trimEnd s) = false.
Proof.
  destruct s as [|c s]; simpl; [reflexivity|]. intros H.
  destruct (trimEnd s); [rewrite H|]; simpl; exact H.
Qed.

Lemma trimEnd_last s : endsWithWhiteSpace (trimEnd s) = false.
Proof.
  induction s as [|c s IH]; simpl; [reflexivity|].
  destruct (trimEnd s) as [|c' s'] eqn:E.
  - destruct (isWhiteSpace c) eqn:Ec; simpl; [reflexivity|exact Ec].
  - exact IH.
Qed.

Lemma trimStart_fixed s : startsWithWhiteSpace s = false -> trimStart s = s.
Proof. destruct s as [|c s]; simpl; [reflexivity|]. now intros ->. Qed.

Lemma trimEnd_fixed s : endsWithWhiteSpace s = false -> trimEnd s = s.
Proof.
  induction s as [|c s IH]; [reflexivity|].
  destruct s as [|c' s'].
  - simpl. now intros ->.
  - intros H. change (endsWithWhiteSpace (String c (String c' s')))
      with (endsWithWhiteSpace (String c' s')) in H.
    change (trimEnd (String c (String c' s')))
      with (match trimEnd (String c' s') with
            | EmptyString => if isWhiteSpace c then EmptyString else String c EmptyString
            | String x r => String c (String x r)
            end).
    now rewrite (IH H).
Qed.

Lemma trim_trimmed s :
  startsWithWhiteSpace (trim s) = false /\ endsWithWhiteSpace (trim s) = false
  /\ trim (trim s) = trim s.
Proof.
  assert (H1 : startsWithWhiteSpace (trim s) = false)
    by (apply trimEnd_head, trimStart_head).
  assert (H2 : endsWithWhiteSpace (trim s) = false) by apply trimEnd_last.
  repeat split; try assumption.
  unfold trim at 1. now rewrite (trimStart_fixed _ H1), (trimEnd_fixed _ H2).
Qed.

Lemma getVal_trimmed row col :
  startsWithWhiteSpace (getVal row col) = false
  /\ endsWithWhiteSpace (getVal row col) = false
  /\ trim (getVal row col) = getVal row col.
Proof.
  unfold getVal, safeStr.
  destruct (prop row col); try apply trim_trimmed; repeat split.
Qed.

(** X4. Node names are trimmed values: the name of every node
    [buildGraph] returns is the trimmed string of some row's value in the
    node's column; it is not empty, and neither its first nor its last
    code unit is white space, so trimming it again changes nothing. *)
Theorem node_names_are_trimmed :
  forall (rows : list Row) (a b : string),
  exists r,
    buildGraph true rows a b = Normal r
    /\ forall n, In n (nodes (graph r)) ->
         (exists row, In row rows
                      /\ name n = getVal row (match side n with left => a | right => b end))
         /\ name n <> EmptyString
         /\ startsWithWhiteSpace (name n) = false
         /\ endsWithWhiteSpace (name n) = false
         /\ trim (name n) = name n.
Proof.
  intros rows a b. destruct (buildGraph_loaded rows a b) as [k Hk].
  eexists. split; [exact Hk|]. cbn [graph nodes].
  rewrite loopEnd_sources, loopEnd_targets.
  intros n Hn. apply in_app_or in Hn.
  destruct Hn as [Hn|Hn]; apply in_map_iff in Hn; destruct Hn as [v [<- Hv]];
    apply (proj1 (In_firstOccurrences _ _)) in Hv; apply in_map_iff in Hv;
    destruct Hv as [[i [s t]] [Hv Hp]]; apply included_spec in Hp;
    destruct Hp as [row [_ [Hrow [Hs [Ht [Hs' Ht']]]]]]; apply nth_error_In in Hrow;
    cbn in Hv; subst v; cbn [name side sourceNode targetNode].
  - subst s. split; [now exists row|]. split; [exact Hs'|]. apply getVal_trimmed.
  - subst t. split; [now exists row|]. split; [exact Ht'|]. apply getVal_trimmed.
Qed.

(* ================================================================= *)
(** ** The largest link value *)

Lemma fold_max_spec {A : Type} (f : A -> nat) (l : list A) :
  forall m0,
    let m := fold_left (fun m y => Nat.max m (f y)) l m0 in
    m0 <= m /\ (forall x, In x l -> f x <= m) /\ (m = m0 \/ exists x, In x l /\ f x = m).
Proof.
  induction l as [|y l IH]; intros m0; simpl.
  - repeat split; [lia|intros x []|now left].
  - destruct (IH (Nat.max m0 (f y))) as [H1 [H2 H3]]. cbv zeta in *.
    split; [lia|]. split.
    + intros x [<-|Hx]; [lia|now apply H2].
    + destruct H3 as [H3|[x [Hx H3]]].
      * destruct (Nat.max_spec m0 (f y)) as [[_ E]|[_ E]].
        -- right. exists y. split; [now left|]. rewrite H3. now rewrite E.
        -- left. rewrite H3. exact E.
      * right. exists x. split; [now right|exact H3].
Qed.

(** X5. [refCountMax] is the largest link value: every link value is at
    least 1 and at most [refCountMax], some link has exactly that value
    when there is a link, and it is 1 when there is none. *)
Theorem refCountMax_is_the_largest_value :
  forall (rows : list Row) (a b : string),
  exists r,
    buildGraph true rows a b = Normal r
    /\ 1 <= refCountMax r
    /\ (forall l, In l (links (graph r)) -> 1 <= value l <= refCountMax r)
    /\ (links (graph r) <> [] ->
        exists l, In l (links (graph r)) /\ value l = refCountMax r)
    /\ (links (graph r) = [] -> refCountMax r = 1).
Proof.
  intros rows a b. unfold buildGraph. fold noMaps. fold (loopEnd a b rows).
  eexists. split; [reflexivity|]. cbn [graph links refCountMax].
  set (ls := map linkOf (JsMap.entries (linkMap (loopEnd a b rows)))).
  assert (Hpos : forall l, In l ls -> 1 <= value l).
  { intros l Hl. apply in_map_iff in Hl. destruct Hl as [[k e] [<- Hin]].
    apply loopEnd_entry in Hin. destruct Hin as [Hne ->]. cbn.
    destruct (positionsOf a b rows k); [contradiction|simpl; lia]. }
  destruct ls as [|l0 ls'] eqn:E; cbn [d3_max].
  - repeat split; try lia; try contradiction; try reflexivity.
  - destruct (fold_max_spec value ls' (value l0)) as [H1 [H2 H3]]. cbv zeta in *.
    set (m := fold_left (fun m y => Nat.max m (value y)) ls' (value l0)) in *.
    assert (Hm : 1 <= m) by (specialize (Hpos l0 (or_introl eq_refl)); lia).
    assert (Hr : match m with 0 => 1 | S _ => m end = m) by (destruct m; [lia|reflexivity]).
    rewrite Hr. split; [exact Hm|]. split; [|split].
    + intros l Hl. split; [now apply Hpos|].
      destruct Hl as [<-|Hl]; [exact H1|now apply H2].
    + intros _. destruct H3 as [H3|[x [Hx H3]]].
      * exists l0. split; [now left|now symmetry].
      * exists x. split; [now right|exact H3].
    + discriminate.
Qed.

(* ================================================================= *)
(** ** Appending rows *)

Lemma included_app a b rows more :
  forall idx,
    included a b (rows ++ more) idx
    = included a b rows idx ++ included a b more (idx + length rows).
Proof.
  induction rows as [|row rows IH]; intros idx; simpl.
  - now rewrite Nat.add_0_r.
  - rewrite IH. replace (S idx + length rows) with (idx + S (length rows)) by lia.
    now destruct ((getVal row a =? EmptyString)%string
                  || (getVal row b =? EmptyString)%string).
Qed.

Lemma firstOccurrences_app l l' :
  firstOccurrences (l ++ l')
  = firstOccurrences l ++ filter (fresh (firstOccurrences l)) (firstOccurrences l').
Proof.
  set (g := fun (m : list string) (x : string) =>
              if existsb (String.eqb x) m then m else m ++ [x]).
  assert (Hg : forall m x, (fun m => m) (g m x)
                 = if existsb (String.eqb ((fun x => x) x)) ((fun m => m) m)
                   then (fun m => m) m else (fun m => m) m ++ [(fun x => x) x])
    by reflexivity.
  assert (H0 : forall l0, fold_left g l0 [] = firstOccurrences l0).
  { intros l0.
    rewrite (fold_keys_empty (fun m => m) (fun x => x) g Hg l0 [] eq_refl).
    now rewrite map_id. }
  rewrite <- (H0 (l ++ l')), fold_left_app, H0.
  rewrite (fold_keys (fun m => m) (fun x => x) g Hg l' (firstOccurrences l)).
  now rewrite map_id.
Qed.

Lemma prefixOf_map {A B : Type} (f : A -> B) (l l' : list A) :
  prefixOf l l' -> prefixOf (map f l) (map f l').
Proof. intros [t ->]. exists (map f t). apply map_app. Qed.

Lemma filter_side_nodes ss ts :
  filter (fun n => Side_eqb (side n) left) (map sourceNode ss ++ map targetNode ts)
  = map sourceNode ss
  /\ filter (fun n => Side_eqb (side n) right) (map sourceNode ss ++ map targetNode ts)
     = map targetNode ts.
Proof.
  rewrite !filter_app. split.
  - replace (filter _ (map targetNode ts)) with (@nil Node)
      by (induction ts; simpl; auto).
    rewrite app_nil_r. induction ss; simpl; [reflexivity|now f_equal].
  - replace (filter _ (map sourceNode ss)) with (@nil Node)
      by (induction ss; simpl; auto).
    simpl. induction ts; simpl; [reflexivity|now f_equal].
Qed.

(** X6. Appending rows only extends the graph. The source nodes, the
    target nodes, the link keys and the ends of the links built from
    [rows] are initial segments of those built from [rows ++ more], in the
    same order; and every entry keeps its key, with a reference list that
    only grows at its end. *)
Theorem appending_rows_extends_the_graph :
  forall (rows more : list Row) (a b : string),
  exists r r',
    buildGraph true rows a b = Normal r
    /\ buildGraph true (rows ++ more) a b = Normal r'
    /\ prefixOf (filter (fun n => Side_eqb (side n) left) (nodes (graph r)))
                (filter (fun n => Side_eqb (side n) left) (nodes (graph r')))
    /\ prefixOf (filter (fun n => Side_eqb (side n) right) (nodes (graph r)))
                (filter (fun n => Side_eqb (side n) right) (nodes (graph r')))
    /\ prefixOf (JsMap.keys (byLinkKey r)) (JsMap.keys (byLinkKey r'))
    /\ prefixOf (map (fun l => (source l, target l)) (links (graph r)))
                (map (fun l => (source l, target l)) (links (graph r')))
    /\ forall k e,
         In (k, e) (byLinkKey r) ->
         exists e', In (k, e') (byLinkKey r')
                    /\ prefixOf (refIds e) (refIds e') /\ count e <= count e'.
Proof.
  intros rows more a b.
  destruct (buildGraph_loaded rows a b) as [n Hn].
  destruct (buildGraph_loaded (rows ++ more) a b) as [n' Hn'].
  eexists. eexists. split; [exact Hn|]. split; [exact Hn'|].
  cbn [graph nodes links byLinkKey].
  rewrite !loopEnd_sources, !loopEnd_targets.
  destruct (filter_side_nodes
              (firstOccurrences (map srcOf (included a b rows 0)))
              (firstOccurrences (map tgtOf (included a b rows 0)))) as [-> ->].
  destruct (filter_side_nodes
              (firstOccurrences (map srcOf (included a b (rows ++ more) 0)))
              (firstOccurrences (map tgtOf (included a b (rows ++ more) 0)))) as [-> ->].
  rewrite included_app, !map_app, !firstOccurrences_app.
  assert (Hkeys : prefixOf (JsMap.keys (linkMap (loopEnd a b rows)))
                    (JsMap.keys (linkMap (loopEnd a b (rows ++ more))))).
  { rewrite !loopEnd_keys, included_app, map_app, firstOccurrences_app.
    eexists. reflexivity. }
  split; [apply prefixOf_map; eexists; reflexivity|].
  split; [apply prefixOf_map; eexists; reflexivity|].
  split; [exact Hkeys|]. split.
  - rewrite !map_map.
    assert (Hends : forall m : JsMap.t Entry,
              map (fun kv => (source (linkOf kv), target (linkOf kv))) m
              = map (fun k => (source (linkOf (k, mkEntry 0 [])),
                               target (linkOf (k, mkEntry 0 []))))
                    (JsMap.keys m)).
    { intros m. unfold JsMap.keys. rewrite map_map. apply map_ext. now intros [k e]. }
    rewrite !Hends. now apply prefixOf_map.
  - intros k e Hin. apply loopEnd_entry in Hin. destruct Hin as [Hne ->].
    assert (Happ : positionsOf a b (rows ++ more) k
                   = positionsOf a b rows k
                     ++ map fst (filter (fun p => (keyOf p =? k)%string)
                                        (included a b more (0 + length rows)))).
    { unfold positionsOf. now rewrite included_app, filter_app, map_app. }
    exists (mkEntry (length (positionsOf a b (rows ++ more) k))
                    (positionsOf a b (rows ++ more) k)).
    split; [|split].
    + apply loopEnd_entry. split; [|reflexivity]. rewrite Happ.
      destruct (positionsOf a b rows k); [contradiction|discriminate].
    + cbn [refIds]. rewrite Happ. eexists. reflexivity.
    + cbn [count]. rewrite Happ, length_app. lia.
Qed.

(* ================================================================= *)
(** ** More on the drag: the order of the siblings *)

Lemma numericTops_obj store r :
  numericTops store = true -> proper (y0 (obj store r)) = true.
Proof.
  intros H. unfold numericTops in H. rewrite forallb_forall in H.
  destruct (Nat.lt_ge_cases r (length store)) as [Hlt|Hge].
  - apply H. unfold obj. now apply nth_In.
  - unfold obj. rewrite nth_overflow by exact Hge. reflexivity.
Qed.

(** When the tops are numbers the comparator of "start" orders the nodes
    by the rank of their tops. *)
Lemma byTop_rank store a b :
  numericTops store = true ->
  byTop store a b = (rank (y0 (obj store a)) <=? rank (y0 (obj store b)))%Z.
Proof.
  intros H. unfold byTop.
  pose proof (numericTops_obj store a H) as Ha.
  pose proof (numericTops_obj store b H) as Hb.
  rewrite sub_sign_proper by assumption.
  rewrite ltb_rank by assumption.
  now rewrite Z.leb_antisym.
Qed.

Lemma sortedBefore_rank store p q :
  numericTops store = true ->
  sortedBefore store p q
  <-> (rank (y0 (obj store p)) < rank (y0 (obj store q)))%Z
      \/ (rank (y0 (obj store p)) = rank (y0 (obj store q)) /\ p < q).
Proof.
  intros H. unfold sortedBefore.
  rewrite num_lt_rank, num_eq_rank by (now apply numericTops_obj). reflexivity.
Qed.

Lemma insertSorted_sortedBefore store x l :
  numericTops store = true ->
  Forall (fun y => x < y) l ->
  StronglySorted (sortedBefore store) l ->
  StronglySorted (sortedBefore store) (insertSorted (byTop store) x l).
Proof.
  intros Hfin Hlt Hs. induction Hs as [|y l Hs IH Hy]; simpl.
  - repeat constructor.
  - inversion Hlt as [|? ? Hxy Hlt']; subst.
    rewrite (byTop_rank store x y Hfin).
    destruct (Z.leb_spec (rank (y0 (obj store x))) (rank (y0 (obj store y)))) as [E|E].
    + assert (Hx : sortedBefore store x y).
      { apply sortedBefore_rank; [exact Hfin|]. lia. }
      constructor; [now constructor|]. constructor; [exact Hx|].
      rewrite Forall_forall in *. intros z Hz.
      specialize (Hy z Hz). specialize (Hlt' z Hz).
      apply sortedBefore_rank in Hy; [|exact Hfin].
      apply sortedBefore_rank; [exact Hfin|]. lia.
    + constructor; [now apply IH|].
      assert (Hperm := insertSorted_perm (byTop store) x l).
      rewrite Forall_forall in *. intros z Hz.
      apply (Permutation_in _ Hperm) in Hz. destruct Hz as [<-|Hz].
      * apply sortedBefore_rank; [exact Hfin|]. lia.
      * now apply Hy.
Qed.

Lemma sortStable_sortedBefore store l :
  numericTops store = true ->
  StronglySorted lt l ->
  StronglySorted (sortedBefore store) (sortStable (byTop store) l).
Proof.
  intros Hfin. induction 1 as [|x l Hs IH Hx]; simpl; [constructor|].
  apply insertSorted_sortedBefore; [exact Hfin| |exact IH].
  rewrite Forall_forall in *. intros y Hy. apply Hx.
  exact (Permutation_in _ (sortStable_perm _ l) Hy).
Qed.

Lemma StronglySorted_filter {A : Type} (R : A -> A -> Prop) (f : A -> bool) (l : list A) :
  StronglySorted R l -> StronglySorted R (filter f l).
Proof.
  induction 1 as [|x l Hs IH Hx]; simpl; [constructor|].
  destruct (f x); [|exact IH]. constructor; [exact IH|].
  rewrite Forall_forall in *. intros y Hy. apply Hx. apply filter_In in Hy. tauto.
Qed.

Lemma seq_sorted n : forall s, StronglySorted lt (seq s n).
Proof.
  induction n as [|n IH]; intros s; simpl; constructor; [apply IH|].
  rewrite Forall_forall. intros y Hy. apply in_seq in Hy. lia.
Qed.

Lemma filter_splice_out l i d :
  ~ In d l -> filter (fun r => negb (r =? d)) (splice l i d) = l.
Proof.
  intros Hd. unfold splice. rewrite filter_app. simpl. rewrite Nat.eqb_refl. simpl.
  rewrite <- filter_app, firstn_skipn.
  induction l as [|x l IH]; simpl; [reflexivity|].
  destruct (Nat.eqb_spec x d) as [->|Hne]; [exfalso; apply Hd; now left|].
  simpl. f_equal. apply IH. intros C. apply Hd. now right.
Qed.

(** X7. A gesture never reorders the siblings among themselves. The peer
    list "start" caches holds the other nodes of the column (same side,
    different id); when the tops the layout wrote are numbers, none of
    them NaN, it is sorted by their top, nodes with equal tops staying in
    the order of [graph.nodes]. Whatever the pointer does, the order "end"
    packs is this list with the dragged node put in at one place. *)
Theorem drag_keeps_the_order_of_the_siblings :
  forall (height : number) (store : list Placed) (el : Element) (d : nat)
         (ys : list number),
    let peers := orElse (__peers (onStart store el d)) [] in
    let ended := gesture height store el d ys in
    (numericTops store = true -> StronglySorted (sortedBefore store) peers)
    /\ (forall r, In r peers <-> r < length store /\ isPeer store d r = true)
    /\ ~ In d peers
    /\ __peers (snd ended) = Some peers
    /\ filter (fun r => negb (r =? d)) (finalOrder (snd ended) d) = peers
    /\ exists i, finalOrder (snd ended) d = firstn i peers ++ d :: skipn i peers.
Proof.
  intros height store el d ys peers ended.
  assert (Hin : forall r, In r peers <-> r < length store /\ isPeer store d r = true).
  { intros r. unfold peers. cbn [onStart __peers orElse]. split.
    - intros H. apply (Permutation_in _ (sortStable_perm _ _)) in H.
      apply filter_In in H. destruct H as [H1 H2]. apply in_seq in H1.
      split; [lia|exact H2].
    - intros [H1 H2]. apply (Permutation_in _ (Permutation_sym (sortStable_perm _ _))).
      apply filter_In. split; [apply in_seq; lia|exact H2]. }
  assert (Hd : ~ In d peers).
  { intros C. apply Hin in C. destruct C as [_ C]. unfold isPeer in C.
    rewrite String.eqb_refl, andb_false_r in C. discriminate. }
  assert (Hp : __peers (snd ended) = Some peers).
  { unfold ended, gesture. cbn [snd].
    destruct (moves_keeps height d ys (store, onStart store el d)) as [-> _].
    reflexivity. }
  split; [|split; [exact Hin|split; [exact Hd|split; [exact Hp|split]]]].
  - intros Hfin. unfold peers. cbn [onStart __peers orElse].
    apply sortStable_sortedBefore; [exact Hfin|].
    apply StronglySorted_filter, seq_sorted.
  - unfold finalOrder. rewrite Hp. cbn [orElse]. now apply filter_splice_out.
  - unfold finalOrder. rewrite Hp. cbn [orElse]. eexists. reflexivity.
Qed.

(** X8. Releasing without moving. When no "drag" event comes between
    "start" and "end" and the element carries no index from an earlier
    gesture, "end" packs the pressed node first: it goes to the top of its
    column (y = 20), and every sibling starts at or below its end. *)
Theorem release_without_move_puts_the_node_on_top :
  forall (height : number) (store : list Placed) (el : Element) (d : nat),
    NoDup (map (fun n => id (datum n)) store) ->
    d < length store ->
    finiteLayout store = true ->
    __insertIdx el = None ->
    let ended := gesture height store el d [] in
    finalOrder (snd ended) d = d :: orElse (__peers (onStart store el d)) []
    /\ y0 (obj (fst ended) d) = num 20
    /\ forall p, In p (orElse (__peers (onStart store el d)) []) ->
                 num_le (y1 (obj (fst ended) d)) (y0 (obj (fst ended) p)).
Proof.
  intros height store el d Hnd Hd Hfin Hidx ended.
  assert (Hord : finalOrder (snd ended) d = d :: orElse (__peers (onStart store el d)) []).
  { unfold ended, gesture, moves, finalOrder. cbn [fold_left snd onStart __insertIdx __peers].
    rewrite Hidx. reflexivity. }
  pose proof (gesture_packs height store el d [] Hnd Hd Hfin) as Hst.
  fold ended in Hst. rewrite Hord in Hst. split; [exact Hord|].
  split; [exact (proj1 Hst)|].
  intros p Hp. destruct (in_split _ _ Hp) as [l3 [l4 E]]. rewrite E in Hst.
  apply (stacked_before (startHeight store) (fst ended) (d :: l3) (num 20) p l4 d).
  - intros k _. now apply startHeight_positive.
  - exact num20_positive.
  - exact Hst.
  - now left.
Qed.

Lemma release_without_move_puts_the_node_on_top_witness :
  finalOrder (snd (gesture (num 480) overfull freshElement 1 [])) 1 = [1; 0]
  /\ y0 (obj (fst (gesture (num 480) overfull freshElement 1 [])) 1) = num 20.
Proof.
  assert (Hd : 1 < length overfull) by (simpl; lia).
  destruct (release_without_move_puts_the_node_on_top (num 480) overfull freshElement 1
              overfull_distinct Hd eq_refl eq_refl) as [H1 [H2 _]].
  split; [exact H1|exact H2].
Defined.

(* ================================================================= *)
(** ** More on the drag: heights and the bottom of the column *)

Lemma stacked_extent H s order :
  forall y n, stacked H s y order -> In n order ->
              y1 (obj s n) = (y0 (obj s n) + H n)%num.
Proof.
  induction order as [|m rest IH]; intros y n Hst Hin; [contradiction|].
  cbn [stacked] in Hst. destruct Hst as [E0 [E1 Hrest]].
  destruct Hin as [->|Hin]; [now rewrite E1, E0|].
  now apply (IH _ n Hrest).
Qed.

Lemma columnOf_spec store d r :
  In r (columnOf store d)
  <-> r < length store /\ side (datum (obj store r)) = side (datum (obj store d)).
Proof.
  unfold columnOf. rewrite filter_In, in_seq, Side_eqb_eq. split; intros [H1 H2];
    (split; [lia|exact H2]).
Qed.

Lemma gesture_heights :
  forall (height : number) (store : list Placed) (el : Element) (d : nat)
         (ys : list number),
    NoDup (map (fun n => id (datum n)) store) ->
    d < length store ->
    finiteLayout store = true ->
    forall r, In r (columnOf store d) ->
      y1 (obj (fst (gesture height store el d ys)) r)
      = (y0 (obj (fst (gesture height store el d ys)) r) + startHeight store r)%num
      /\ num_le (num 8) (startHeight store r).
Proof.
  intros height store el d ys Hnd Hd Hfin r Hr.
  split; [|now apply startHeight_positive].
  destruct (gesture_column height store el d ys Hnd Hd) as [_ [Hcol _]].
  apply columnOf_spec in Hr.
  apply (stacked_extent (startHeight store) (fst (gesture height store el d ys))
           (finalOrder (snd (gesture height store el d ys)) d) (num 20));
    [now apply gesture_packs|now apply Hcol].
Qed.

(** X9. "end" gives every node of the column the height "start" cached
    for it: its end is its start plus that height, the height it had in
    the layout raised to 8 when it was lower. A node drawn 8 high over a
    lower layout height has that height in the data after the first
    gesture in its column. *)
Theorem end_restores_the_start_heights :
  forall (height : number) (store : list Placed) (el : Element) (d : nat)
         (ys : list number),
    NoDup (map (fun n => id (datum n)) store) ->
    d < length store ->
    finiteLayout store = true ->
    forall r, In r (columnOf store d) ->
      y1 (obj (fst (gesture height store el d ys)) r)
      = (y0 (obj (fst (gesture height store el d ys)) r) + startHeight store r)%num
      /\ num_le (num 8) (startHeight store r).
Proof. exact gesture_heights. Qed.

Lemma end_restores_the_start_heights_witness :
  y1 (obj (fst (gesture (num 480) overfull freshElement 1 [num 100])) 0)
  = (y0 (obj (fst (gesture (num 480) overfull freshElement 1 [num 100])) 0) + num 8)%num.
Proof.
  assert (Hd : 1 < length overfull) by (simpl; lia).
  assert (Hr : In 0 (columnOf overfull 1)) by (vm_compute; now left).
  destruct (end_restores_the_start_heights (num 480) overfull freshElement 1 [num 100]
              overfull_distinct Hd eq_refl 0 Hr) as [H _].
  exact H.
Defined.

Lemma stacked_bottom H s l :
  forall y n,
    stacked H s y (l ++ [n]) ->
    y1 (obj s n) = bottomFrom y (map H (l ++ [n])).
Proof.
  induction l as [|m l IH]; intros y n Hst.
  - cbn in Hst. destruct Hst as [_ [E1 _]]. exact E1.
  - cbn [app stacked] in Hst. destruct Hst as [_ [_ Hrest]].
    rewrite (IH _ n Hrest). cbn [app map bottomFrom].
    destruct (map H (l ++ [n])) eqn:E; [|reflexivity].
    apply map_eq_nil in E. now destruct l.
Qed.

(** X10. Where the column ends after "end". The node packed last ends
    lowest: no node of the column ends below it, and its end is what the
    sums of the handler give along the final order, from 20, with the
    cached heights and 14 between neighbours. *)
Theorem column_bottom_after_end :
  forall (height : number) (store : list Placed) (el : Element) (d : nat)
         (ys : list number),
    NoDup (map (fun n => id (datum n)) store) ->
    d < length store ->
    finiteLayout store = true ->
    let final := fst (gesture height store el d ys) in
    let order := finalOrder (snd (gesture height store el d ys)) d in
    exists n,
      In n (columnOf store d)
      /\ last order d = n
      /\ y1 (obj final n) = bottomFrom (num 20) (map (startHeight store) order)
      /\ forall r, In r (columnOf store d) ->
                   num_le (y1 (obj final r)) (y1 (obj final n)).
Proof.
  intros height store el d ys Hnd Hd Hfin final order.
  destruct (gesture_column height store el d ys Hnd Hd) as [Hno [Hcol _]].
  pose proof (gesture_packs height store el d ys Hnd Hd Hfin) as Hst.
  fold final order in Hno, Hcol, Hst.
  assert (HH : forall k, In k order ->
                 isPositive (startHeight store k) /\ num_le (num 8) (startHeight store k)).
  { intros k _. now apply startHeight_positive. }
  assert (Hne : order <> []).
  { intros C. assert (Hin : In d order) by (apply Hcol; now split).
    rewrite C in Hin. contradiction. }
  destruct (exists_last Hne) as [l [n Hl]].
  assert (Hn : In n order) by (rewrite Hl; apply in_or_app; right; now left).
  exists n. split; [apply columnOf_spec; now apply Hcol|].
  split; [rewrite Hl; apply last_last|].
  split; [rewrite Hl in Hst |- *; now apply stacked_bottom|].
  intros r Hr. apply columnOf_spec in Hr. apply Hcol in Hr.
  destruct (stacked_below _ _ _ HH (num 20) n num20_positive Hst Hn)
    as [Pn0 [Pn1 [_ [Hn01 _]]]].
  destruct (stacked_below _ _ _ HH (num 20) r num20_positive Hst Hr)
    as [_ [Pr1 _]].
  rewrite Hl in Hr, Hst, HH. apply in_app_or in Hr. destruct Hr as [Hr|[<-|[]]].
  - apply (num_le_trans _ (y0 (obj final n))); [apply Pr1|apply Pn0|apply Pn1| |exact Hn01].
    now apply (stacked_before (startHeight store) final l (num 20) n [] r).
  - apply num_le_refl, Pn1.
Qed.

Lemma column_bottom_after_end_witness :
  exists n,
    In n (columnOf overfull 0)
    /\ y1 (obj (fst (gesture (num 480) overfull freshElement 0 [num 20])) n) = num 465.
Proof.
  assert (Hd : 0 < length overfull) by (simpl; lia).
  destruct (column_bottom_after_end (num 480) overfull freshElement 0 [num 20]
              overfull_distinct Hd eq_refl)
    as [n [Hn [_ [Hb _]]]].
  exists n. split; [exact Hn|]. rewrite Hb. vm_compute. reflexivity.
Defined.

(* ================================================================= *)
(** ** More on the drag: the siblings during a "drag" event *)

Lemma ordered_lower s order :
  forall y n, proper y = true -> ordered s y order -> In n order ->
              num_le y (y0 (obj s n)).
Proof.
  induction order as [|m rest IH]; intros y n Hy Ho Hin; [contradiction|].
  cbn [ordered] in Ho. destruct Ho as [P0 [P1 [L0 [L1 Hrest]]]].
  destruct Hin as [->|Hin]; [exact L0|].
  apply (num_le_trans _ (y1 (obj s m))); [exact Hy|apply P1|
    |apply (num_le_trans _ (y0 (obj s m))); [exact Hy|apply P0|apply P1|exact L0|exact L1]
    |apply IH; [apply P1|exact Hrest|exact Hin]].
  assert (Hn : In n rest) by exact Hin.
  clear -Hrest Hn. revert Hrest Hn. generalize (y1 (obj s m)).
  induction rest as [|k rest IH]; intros y Ho Hin; [contradiction|].
  cbn [ordered] in Ho. destruct Ho as [P0 [P1 [_ [_ Hrest]]]].
  destruct Hin as [->|Hin]; [apply P0|]. now apply (IH (y1 (obj s k))).
Qed.

Lemma ordered_before s l1 :
  forall y n l2 p, ordered s y (l1 ++ n :: l2) -> In p l1 ->
                   num_le (y1 (obj s p)) (y0 (obj s n)).
Proof.
  induction l1 as [|m l1 IH]; intros y n l2 p Ho Hp; [contradiction|].
  cbn [app ordered] in Ho. destruct Ho as [_ [P1 [_ [_ Hrest]]]].
  destruct Hp as [<-|Hp].
  - apply (ordered_lower s (l1 ++ n :: l2)); [apply P1|exact Hrest|].
    apply in_or_app. right. now left.
  - now apply (IH _ n l2 p Hrest).
Qed.

Lemma ordered_apart s order :
  forall y i j, ordered s y order -> In i order -> In j order -> i <> j ->
    num_le (y1 (obj s i)) (y0 (obj s j)) \/ num_le (y1 (obj s j)) (y0 (obj s i)).
Proof.
  intros y i j Ho Hi Hj Hne.
  destruct (in_split _ _ Hj) as [l1 [l2 E]]. subst order.
  apply in_app_or in Hi. destruct Hi as [Hi|[Hi|Hi]].
  - left. now apply (ordered_before s l1 y j l2 i).
  - congruence.
  - right. destruct (in_split _ _ Hi) as [l3 [l4 E]]. subst l2.
    replace (l1 ++ j :: l3 ++ i :: l4) with ((l1 ++ j :: l3) ++ i :: l4) in Ho
      by (rewrite <- app_assoc; reflexivity).
    apply (ordered_before s (l1 ++ j :: l3) y i l4 j Ho).
    apply in_or_app. right. now left.
Qed.

Lemma ordered_weaken s order y y' :
  proper y' = true -> ordered s y order ->
  (forall n, In n order -> num_le y' (y0 (obj s n))) ->
  ordered s y' order.
Proof.
  destruct order as [|n rest]; [trivial|]. cbn [ordered].
  intros Hy [P0 [P1 [_ [L1 Hrest]]]] H.
  repeat (split; [assumption|]). split; [apply H; now left|]. split; assumption.
Qed.

Lemma packPeers_stackedGap H hs k nh peers :
  NoDup peers ->
  forall i y s,
    (forall n, In n peers -> n < length s) ->
    (forall n, In n peers -> heightOf hs (obj s n) = H n) ->
    stackedGap H (packPeers hs k nh peers i y s) k (nh + nodePad)%num i y peers.
Proof.
  intros Hnd. induction Hnd as [|n rest Hn Hnd IH]; intros i y s Hin Hh;
    cbn [packPeers stackedGap]; [trivial|].
  rewrite (Hh n) by now left.
  set (y' := if i =? k then (y + (nh + nodePad))%num else y).
  assert (Hobj : obj (packPeers hs k nh rest (S i) (y' + (H n + nodePad))%num
                        (assign s n y' (y' + H n)%num)) n
                 = mkPlaced (datum (obj s n)) y' (y' + H n)%num).
  { rewrite packPeers_other by exact Hn. apply obj_assign_same. apply Hin. now left. }
  rewrite Hobj. cbn [y0 y1]. split; [reflexivity|]. split; [reflexivity|].
  apply IH.
  - intros m Hm. rewrite length_assign. apply Hin. now right.
  - intros m Hm. rewrite obj_assign_other by (intros ->; contradiction).
    apply Hh. now right.
Qed.

Lemma stackedGap_ext H s s' gapAt gap order :
  (forall n, In n order -> obj s' n = obj s n) ->
  forall i y, stackedGap H s gapAt gap i y order -> stackedGap H s' gapAt gap i y order.
Proof.
  induction order as [|n rest IH]; intros Hsame i y; cbn [stackedGap]; [trivial|].
  intros [E0 [E1 Hrest]]. rewrite (Hsame n) by now left.
  split; [exact E0|]. split; [exact E1|].
  apply IH; [|exact Hrest]. intros m Hm. apply Hsame. now right.
Qed.

Lemma stackedGap_ordered H s gapAt gap order :
  (forall n, In n order -> isPositive (H n) /\ num_le (num 8) (H n)) ->
  isPositive gap ->
  forall i y, isPositive y -> stackedGap H s gapAt gap i y order -> ordered s y order.
Proof.
  intros HH Hgap. induction order as [|n rest IH]; intros i y Hy; cbn [stackedGap ordered];
    [trivial|].
  set (y' := if i =? gapAt then (y + gap)%num else y).
  intros [E0 [E1 Hrest]].
  assert (Hy' : isPositive y' /\ num_le y y').
  { unfold y'. destruct (i =? gapAt).
    - split; [now apply add_positive|now apply add_above].
    - split; [exact Hy|apply num_le_refl, Hy]. }
  destruct Hy' as [Hy' Hle].
  destruct (HH n (or_introl eq_refl)) as [Hn H8].
  destruct (pack_step y' (H n) Hy' Hn H8) as [P1 [P2 [P3 [_ P5]]]].
  rewrite E0, E1. split; [exact Hy'|]. split; [exact P1|]. split; [exact Hle|].
  split; [exact P3|].
  assert (Ho : ordered s (y' + (H n + nodePad))%num rest).
  { apply (IH (fun m Hm => HH m (or_intror Hm)) (S i)); assumption. }
  apply (ordered_weaken s rest (y' + (H n + nodePad))%num); [apply P1|exact Ho|].
  intros m Hm.
  apply (num_le_trans _ (y' + (H n + nodePad))%num); [apply P1|apply P2| |exact P5|].
  - destruct rest as [|r0 rest']; [contradiction|].
    clear -Ho Hm. revert Ho Hm. generalize (y' + (H n + nodePad))%num.
    generalize (r0 :: rest'). clear. intros l.
    induction l as [|k l IH]; intros y Ho Hin; [contradiction|].
    cbn [ordered] in Ho. destruct Ho as [P0 [P1 [_ [_ Hrest]]]].
    destruct Hin as [->|Hin]; [apply P0|]. now apply (IH (y1 (obj s k))).
  - now apply (ordered_lower s rest _ m (proj1 P2) Ho).
Qed.

Lemma start_peers_valid store el d :
  let peers := orElse (__peers (onStart store el d)) [] in
  (forall r, In r peers -> r < length store)
  /\ ~ In d peers
  /\ NoDup peers.
Proof.
  cbn [onStart __peers orElse].
  assert (Hin : forall r,
            In r (sortStable (byTop store)
                    (filter (isPeer store d) (seq 0 (length store)))) ->
            r < length store /\ isPeer store d r = true).
  { intros r H. apply (Permutation_in _ (sortStable_perm _ _)) in H.
    apply filter_In in H. destruct H as [H1 H2]. apply in_seq in H1.
    split; [lia|exact H2]. }
  split; [|split].
  - intros r H. now apply Hin in H.
  - intros C. apply Hin in C. destruct C as [_ C]. unfold isPeer in C.
    rewrite String.eqb_refl, andb_false_r in C. discriminate.
  - apply (Permutation_NoDup (Permutation_sym (sortStable_perm _ _))).
    apply NoDup_filter, seq_NoDup.
Qed.

(** X11. The siblings during a drag. After every "drag" event of a gesture
    on a finite layout the siblings are stacked from the top of the column
    in their cached order by the sums of the handler, with their cached
    heights and 14 between them, except that the sibling at the insertion
    index starts lower by the dragged node's height plus 14: the slot kept
    for the dragged node, which itself follows the pointer and ends its
    height below its start. As long as that height is a number, which it is
    at the first event, no two siblings overlap while the node is
    dragged. *)
Theorem siblings_are_packed_around_the_slot :
  forall (height : number) (store : list Placed) (el : Element) (d : nat)
         (ys : list number) (eventY : number),
    NoDup (map (fun n => id (datum n)) store) ->
    d < length store ->
    finiteLayout store = true ->
    let before := moves height d ys (store, onStart store el d) in
    let st := moves height d (ys ++ [eventY]) (store, onStart store el d) in
    let peers := orElse (__peers (onStart store el d)) [] in
    let nodeHeight :=
      Math_max (num 8) (y1 (obj (fst before) d) - y0 (obj (fst before) d))%num in
    exists k,
      __insertIdx (snd st) = Some k
      /\ k <= length peers
      /\ y1 (obj (fst st) d) = (y0 (obj (fst st) d) + nodeHeight)%num
      /\ stackedGap (startHeight store) (fst st) k (nodeHeight + nodePad)%num 0 (num 20)
           peers
      /\ (ys = [] -> isPositive nodeHeight)
      /\ (isPositive nodeHeight ->
          forall p q, In p peers -> In q peers -> p <> q ->
            num_le (y1 (obj (fst st) p)) (y0 (obj (fst st) q))
            \/ num_le (y1 (obj (fst st) q)) (y0 (obj (fst st) p))).
Proof.
  intros height store el d ys eventY Hnd Hd Hfin before st peers nodeHeight.
  destruct (start_peers_valid store el d) as [Hin [Hdp Hndp]].
  fold peers in Hin, Hdp, Hndp.
  destruct (moves_keeps height d ys (store, onStart store el d))
    as [Hp [Hh [Hl [Hdat _]]]].
  fold before in Hp, Hh, Hl, Hdat. cbn [fst snd] in Hp, Hh, Hl, Hdat.
  unfold st. rewrite moves_last. fold before.
  unfold onDrag. cbn [fst snd __insertIdx]. rewrite Hp, Hh. fold peers. fold nodeHeight.
  set (hs := orElse (__heights (onStart store el d)) JsMap.empty).
  set (newY0 := clampY height nodeHeight eventY).
  set (k := insertIndex
              (map (fun p => ((y0 (obj (fst before) p) + y1 (obj (fst before) p))
                              / num 2)%num) peers)
              (newY0 + nodeHeight / num 2)%num).
  assert (Hgap : stackedGap (startHeight store)
                   (assign (packPeers hs k nodeHeight peers 0 (num 20) (fst before)) d
                           newY0 (newY0 + nodeHeight)%num)
                   k (nodeHeight + nodePad)%num 0 (num 20) peers).
  { apply (stackedGap_ext _ (packPeers hs k nodeHeight peers 0 (num 20) (fst before))).
    - intros n Hn. apply obj_assign_other. intros ->. contradiction.
    - apply packPeers_stackedGap; [exact Hndp| |].
      + intros n Hn. rewrite Hl. now apply Hin in Hn.
      + intros n Hn. apply heightOf_start; try assumption.
        * now apply Hin in Hn.
        * now rewrite Hdat. }
  exists k. split; [reflexivity|]. split.
  { unfold k. destruct (insertIndex_spec
        (map (fun p => ((y0 (obj (fst before) p) + y1 (obj (fst before) p))
                        / num 2)%num) peers)
        (newY0 + nodeHeight / num 2)%num) as [H _]. now rewrite length_map in H. }
  split.
  { rewrite obj_assign_same by (rewrite length_packPeers, Hl; exact Hd). reflexivity. }
  split; [exact Hgap|]. split.
  { intros ->. unfold nodeHeight, before. cbn [moves fold_left fst].
    now apply startHeight_positive. }
  intros Hnh p q Hp' Hq' Hne.
  apply (ordered_apart _ peers (num 20)); try assumption.
  apply (stackedGap_ordered (startHeight store) _ k (nodeHeight + nodePad)%num peers)
    with (i := 0).
  - intros n _. now apply startHeight_positive.
  - apply add_positive; [exact Hnh|exact num14_positive].
  - exact num20_positive.
  - exact Hgap.
Qed.

Lemma siblings_are_packed_around_the_slot_witness :
  exists k,
    __insertIdx (snd (moves (num 480) 0 ([] ++ [num 300])
                        (overfull, onStart overfull freshElement 0))) = Some k
    /\ stackedGap (startHeight overfull)
         (fst (moves (num 480) 0 ([] ++ [num 300])
                 (overfull, onStart overfull freshElement 0)))
         k (num 8 + nodePad)%num 0 (num 20)
         (orElse (__peers (onStart overfull freshElement 0)) []).
Proof.
  assert (Hd : 0 < length overfull) by (simpl; lia).
  destruct (siblings_are_packed_around_the_slot (num 480) overfull freshElement 0 []
              (num 300) overfull_distinct Hd eq_refl) as [k [H1 [_ [_ [H3 _]]]]].
  exists k. split; [exact H1|exact H3].
Defined.

(* ================================================================= *)
(** ** The rounding of the sums *)

(** The sums of the packing loops are rounded. In a column laid out as
    [a] = 20..30.3 and [b] = 44.3..64.4, pressing and releasing [a] packs
    [a] first and [b] after it; the distance from the end of [a] to the
    start of [b], as subtraction gives it, is then below 14. In a column
    laid out as [a] = 20..42.1 and [b] = 56.1..59.1 the same gesture leaves
    [b], whose cached height is 8, with an extent that subtraction gives
    below 8. *)
Remark neighbours_are_14_apart_up_to_rounding :
  (let final :=
     fst (gesture (num 480)
            [ mkPlaced (mkNode "S:a" "a" left) (num 20) (decimal 303);
              mkPlaced (mkNode "S:b" "b" left) (decimal 443) (decimal 644) ]
            freshElement 0 []) in
   num_lt (y0 (obj final 1) - y1 (obj final 0))%num (num 14)
   /\ num_le (y1 (obj final 0)) (y0 (obj final 1)))
  /\ (let final :=
        fst (gesture (num 480)
               [ mkPlaced (mkNode "S:a" "a" left) (num 20) (decimal 421);
                 mkPlaced (mkNode "S:b" "b" left) (decimal 561) (decimal 591) ]
               freshElement 0 []) in
      num_lt (y1 (obj final 1) - y0 (obj final 1))%num (num 8)
      /\ num_le (y0 (obj final 1) + num 8)%num (y1 (obj final 1))).
Proof. split; split; vm_compute; reflexivity. Qed.

(* ================================================================= *)
(** ** Substrings *)

Lemma append_assoc (a b c : string) : ((a ++ b) ++ c)%string = (a ++ (b ++ c))%string.
Proof. induction a as [|x a IH]; simpl; [reflexivity|now rewrite IH]. Qed.

Lemma prefix_iff (a s : string) :
  prefix a s = true <-> exists post, s = (a ++ post)%string.
Proof.
  revert s. induction a as [|x a IH]; intros s.
  - split; [intros _; now exists s|]. intros _. now destruct s.
  - destruct s as [|y s]; simpl.
    + split; [discriminate|]. intros [post H]. discriminate.
    + destruct (ascii_dec x y) as [<-|Hne].
      * rewrite IH. split; intros [post H]; exists post.
        -- now rewrite H.
        -- now injection H.
      * split; [discriminate|]. intros [post H]. congruence.
Qed.

Lemma includes_iff (s sub : string) :
  includes s sub = true <-> exists pre post, s = (pre ++ sub ++ post)%string.
Proof.
  induction s as [|c s IH].
  - change (includes EmptyString sub) with (prefix sub EmptyString || false).
    rewrite orb_true_iff, prefix_iff. split.
    + intros [[post H]|H]; [|discriminate]. now exists EmptyString, post.
    + intros [pre [post H]]. left. destruct pre; [now exists post|discriminate].
  - change (includes (String c s) sub) with (prefix sub (String c s) || includes s sub).
    rewrite orb_true_iff, prefix_iff, IH. split.
    + intros [[post H]|[pre [post H]]].
      * now exists EmptyString, post.
      * exists (String c pre), post. simpl. now rewrite H.
    + intros [pre [post H]]. destruct pre as [|x pre].
      * left. now exists post.
      * right. injection H as _ H. now exists pre, post.
Qed.

Lemma includes_refl s : includes s s = true.
Proof.
  apply includes_iff. exists EmptyString, EmptyString. simpl. now rewrite append_nil_r.
Qed.

Lemma includes_trans s b b' :
  includes s b = true -> includes b b' = true -> includes s b' = true.
Proof.
  rewrite !includes_iff. intros [pre [post ->]] [pre' [post' ->]].
  exists (pre ++ pre')%string, (post' ++ post)%string.
  now rewrite !append_assoc.
Qed.

(* ================================================================= *)
(** ** main.js: the columns offered and the defaults *)

Lemma existsb_pointwise {A : Type} (f g : A -> bool) (l : list A) :
  (forall x, f x = g x) -> existsb f l = existsb g l.
Proof. intros H. induction l as [|x l IH]; simpl; [reflexivity|now rewrite H, IH]. Qed.

(** X12. Which columns are hidden from the two selects. The test of
    [isArticleNumberColumn] comes down to seven words: a column is hidden
    exactly when its name, in lower case and trimmed, contains "id",
    "number", "index", "row", "refno", "article no" or "article #"; the
    other ten entries of the list and the test for equality add nothing.
    So a name such as "Width" or "Narrow band" is hidden too. *)
Theorem hidden_columns_contain_one_of_seven_words :
  forall name : string,
    isArticleNumberColumn name
    = existsb (includes (trim (toLowerCase name)))
        ["article no"; "article #"; "refno"; "id"; "number"; "index"; "row"].
Proof.
  intros name. unfold isArticleNumberColumn.
  set (n := trim (toLowerCase name)).
  assert (Heq : forall b, ((n =? b)%string || includes n b) = includes n b).
  { intros b. destruct (String.eqb_spec n b) as [<-|]; [|reflexivity].
    simpl. now rewrite includes_refl. }
  rewrite (existsb_pointwise _ _ bads Heq).
  apply eq_true_iff_eq. rewrite !existsb_exists. split.
  - intros [b [Hb Hn]]. unfold bads in Hb. simpl in Hb.
    repeat (destruct Hb as [<-|Hb];
            [first
               [ exists "id"; split; [simpl; tauto|];
                 apply (includes_trans _ _ _ Hn); reflexivity
               | exists "number"; split; [simpl; tauto|];
                 apply (includes_trans _ _ _ Hn); reflexivity
               | exists "row"; split; [simpl; tauto|];
                 apply (includes_trans _ _ _ Hn); reflexivity
               | exists "index"; split; [simpl; tauto|];
                 apply (includes_trans _ _ _ Hn); reflexivity
               | exists "refno"; split; [simpl; tauto|];
                 apply (includes_trans _ _ _ Hn); reflexivity
               | exists "article no"; split; [simpl; tauto|];
                 apply (includes_trans _ _ _ Hn); reflexivity
               | exists "article #"; split; [simpl; tauto|];
                 apply (includes_trans _ _ _ Hn); reflexivity ]|]).
    contradiction.
  - intros [b [Hb Hn]]. exists b. split; [|exact Hn].
    unfold bads. simpl in Hb. simpl. tauto.
Qed.

Lemma whiteSpace_not_letter c : isWhiteSpace c = true -> isAsciiLetter c = false.
Proof.
  destruct c as [[|] [|] [|] [|] [|] [|] [|] [|]]; vm_compute; congruence.
Qed.

Lemma digit_not_letter c : isDigit c = true -> isAsciiLetter c = false.
Proof.
  destruct c as [[|] [|] [|] [|] [|] [|] [|] [|]]; vm_compute; congruence.
Qed.

Lemma keepChars_trimStart p s :
  (forall c, isWhiteSpace c = true -> p c = false) ->
  keepChars p (trimStart s) = keepChars p s.
Proof.
  intros H. induction s as [|c s IH]; simpl; [reflexivity|].
  destruct (isWhiteSpace c) eqn:E; [|reflexivity]. now rewrite (H c E).
Qed.

Lemma keepChars_trimEnd p s :
  (forall c, isWhiteSpace c = true -> p c = false) ->
  keepChars p (trimEnd s) = keepChars p s.
Proof.
  intros H. induction s as [|c s IH]; simpl; [reflexivity|].
  destruct (trimEnd s) as [|c' s'] eqn:E.
  - rewrite <- IH. simpl. destruct (isWhiteSpace c) eqn:Ec.
    + now rewrite (H c Ec).
    + simpl. now destruct (p c).
  - simpl. now rewrite <- IH.
Qed.

Lemma keepChars_digits s : allChars isDigit s = true -> keepChars isAsciiLetter s = EmptyString.
Proof.
  induction s as [|c s IH]; simpl; [reflexivity|].
  intros H. apply andb_true_iff in H. destruct H as [Hc Hs].
  now rewrite (digit_not_letter c Hc), IH.
Qed.

(** X13. What [isMeaningful] decides. A string is meaningful exactly when
    it has at least two letters A to Z or a to z; the tests for an empty
    string and for a string of digits change nothing. *)
Theorem isMeaningful_counts_letters :
  forall v : string,
    isMeaningful v = (2 <=? String.length (keepChars isAsciiLetter v)).
Proof.
  intros v. unfold isMeaningful.
  assert (Hk : keepChars isAsciiLetter (trim v) = keepChars isAsciiLetter v).
  { unfold trim.
    now rewrite (keepChars_trimEnd _ _ whiteSpace_not_letter),
                (keepChars_trimStart _ _ whiteSpace_not_letter). }
  rewrite <- Hk.
  destruct (String.eqb_spec (trim v) EmptyString) as [->|_]; [reflexivity|].
  destruct (allChars isDigit (trim v)) eqn:E; [|reflexivity].
  now rewrite (keepChars_digits _ E).
Qed.

(** X14. A year is never meaningful: a string [isYearStr] accepts is
    rejected by [isMeaningful], so no list filtered by [isMeaningful] holds
    a year. *)
Theorem meaningful_strings_are_not_years :
  forall v : string,
    (isMeaningful v = true -> isYearStr v = false)
    /\ forall l : list string, find isYearStr (filter isMeaningful l) = None.
Proof.
  assert (H : forall v, isMeaningful v = true -> isYearStr v = false).
  { intros v. unfold isMeaningful, isYearStr.
    destruct (String.eqb_spec (trim v) EmptyString) as [->|_]; [discriminate|].
    destruct (allChars isDigit (trim v)); [discriminate|].
    intros _. apply andb_false_r. }
  intros v. split; [apply H|].
  induction l as [|x l IH]; simpl; [reflexivity|].
  destruct (isMeaningful x) eqn:E; [|exact IH].
  simpl. now rewrite (H x E).
Qed.

Lemma findIndexFrom_some {A : Type} (p : A -> nat -> bool) (l : list A) :
  forall i j, findIndexFrom p l i = Some j ->
              i <= j /\ j < i + length l
              /\ exists x, nth_error l (j - i) = Some x /\ p x j = true.
Proof.
  induction l as [|x l IH]; intros i j H; simpl in H; [discriminate|].
  destruct (p x i) eqn:E.
  - injection H as <-. simpl. repeat split; try lia.
    exists x. now rewrite Nat.sub_diag.
  - destruct (IH _ _ H) as [H1 [H2 [y [Hy Hp]]]]. simpl. repeat split; try lia.
    exists y. split; [|exact Hp].
    replace (j - i) with (S (j - S i)) by lia. exact Hy.
Qed.

Lemma findIndexFrom_none {A : Type} (p : A -> nat -> bool) (l : list A) :
  forall i, findIndexFrom p l i = None ->
            forall k x, nth_error l k = Some x -> p x (i + k) = false.
Proof.
  induction l as [|y l IH]; intros i H k x Hk; [destruct k; discriminate|].
  simpl in H. destruct (p y i) eqn:E; [discriminate|].
  destruct k as [|k]; simpl in Hk.
  - injection Hk as <-. now rewrite Nat.add_0_r.
  - replace (i + S k) with (S i + k) by lia. now apply (IH (S i) H).
Qed.

Lemma findIndex_range {A : Type} (p : A -> nat -> bool) (l : list A) i :
  findIndex p l = Some i -> i < length l.
Proof. intros H. apply findIndexFrom_some in H. lia. Qed.

Lemma findIndex_differs_some {A : Type} (l : list A) idx i :
  findIndex (fun _ i => differs i idx) l = Some i -> differs i idx = true /\ i < length l.
Proof.
  intros H. apply findIndexFrom_some in H. destruct H as [_ [H [x [_ Hx]]]].
  split; [exact Hx|lia].
Qed.

Lemma findIndex_differs_none {A : Type} (l : list A) j :
  2 <= length l -> findIndex (fun _ i => differs i (Some j)) l <> None.
Proof.
  intros Hlen H.
  destruct l as [|x [|y l]]; simpl in Hlen; try lia.
  pose proof (findIndexFrom_none _ _ 0 H 0 x eq_refl) as H0.
  pose proof (findIndexFrom_none _ _ 0 H 1 y eq_refl) as H1.
  cbv beta in H0, H1. unfold differs in H0, H1.
  apply negb_false_iff in H0, H1. apply Nat.eqb_eq in H0, H1. lia.
Qed.

Lemma nth_error_distinct (columns : list string) s t :
  NoDup columns -> s < length columns -> s <> t ->
  nth_error columns s <> nth_error columns t.
Proof.
  intros Hnd Hs Hne H. apply Hne. now apply (proj1 (NoDup_nth_error columns) Hnd).
Qed.

Lemma firstTwo_distinct (columns : list string) :
  NoDup columns -> 2 <= length columns ->
  truthy (nth_error columns 0) <> truthy (nth_error columns 1).
Proof.
  intros Hnd Hlen. destruct columns as [|c0 [|c1 cs]]; simpl in Hlen; try lia.
  assert (Hne : c0 <> c1).
  { intros ->. inversion Hnd as [|? ? Hin _]. apply Hin. now left. }
  simpl. destruct c0, c1; simpl; congruence.
Qed.

(** X15. The default columns are two different columns. Given at least
    two columns with distinct names, [chooseDefaultColumns] never proposes
    the same column as source and as target, whatever the names match. *)
Theorem default_columns_are_distinct :
  forall columns : list string,
    NoDup columns -> 2 <= length columns ->
    fst (chooseDefaultColumns columns) <> snd (chooseDefaultColumns columns).
Proof.
  intros columns Hnd Hlen. unfold chooseDefaultColumns.
  destruct columns as [|c0 cs] eqn:Ecols; [simpl in Hlen; lia|].
  rewrite <- Ecols in *. clear Ecols c0 cs.
  set (lowers := map toLowerCase columns).
  assert (Hl : length lowers = length columns) by apply length_map.
  set (S0 := match findIndex (fun k _ => isStageColumn k) lowers with
             | Some _ => findIndex (fun k _ => isStageColumn k) lowers
             | None => findIndex (fun k _ => includes k "stage in gastrulation") lowers
             end).
  set (T0 := findIndex (fun k _ => isDimensionColumn k) lowers).
  assert (HS : forall s, S0 = Some s -> s < length columns).
  { intros s. unfold S0. rewrite <- Hl.
    destruct (findIndex (fun k _ => isStageColumn k) lowers) eqn:E; intros H.
    - injection H as <-. now apply findIndex_range in E.
    - now apply findIndex_range in H. }
  assert (HT : forall t, T0 = Some t -> t < length columns).
  { intros t H. rewrite <- Hl. now apply findIndex_range in H. }
  clearbody S0 T0.
  pose proof (firstTwo_distinct columns Hnd Hlen) as H2.
  destruct S0 as [s|], T0 as [t|]; cbn [fst snd].
  - specialize (HS s eq_refl). specialize (HT t eq_refl).
    destruct (Nat.eqb_spec s t) as [<-|Hne]; cbn [fst snd].
    + destruct (findIndex (fun _ i => differs i (Some s)) lowers) as [alt|] eqn:E.
      * apply findIndex_differs_some in E. destruct E as [E _].
        apply negb_true_iff, Nat.eqb_neq in E.
        apply nth_error_distinct; try assumption. congruence.
      * exfalso. apply (findIndex_differs_none lowers s); [|exact E]. lia.
    + now apply nth_error_distinct.
  - specialize (HS s eq_refl).
    destruct (findIndex (fun _ i => differs i (Some s)) lowers) as [t|] eqn:E;
      cbn [fst snd]; [|exact H2].
    apply findIndex_differs_some in E. destruct E as [E Ht].
    apply negb_true_iff, Nat.eqb_neq in E.
    destruct (Nat.eqb_spec s t) as [->|Hne]; [contradiction|]. cbn [fst snd].
    now apply nth_error_distinct.
  - specialize (HT t eq_refl).
    destruct (findIndex (fun _ i => differs i (Some t)) lowers) as [s|] eqn:E;
      cbn [fst snd]; [|exact H2].
    apply findIndex_differs_some in E. destruct E as [E Hs].
    apply negb_true_iff, Nat.eqb_neq in E. rewrite Hl in Hs.
    destruct (Nat.eqb_spec s t) as [->|Hne]; [contradiction|]. cbn [fst snd].
    now apply nth_error_distinct.
  - exact H2.
Qed.

Lemma default_columns_are_distinct_witness :
  fst (chooseDefaultColumns ["Year"; "Stage in gastrulation"; "Model (2D/3D)"])
  <> snd (chooseDefaultColumns ["Year"; "Stage in gastrulation"; "Model (2D/3D)"]).
Proof.
  apply default_columns_are_distinct.
  - repeat constructor; simpl; intros C;
      repeat (destruct C as [C|C]; [discriminate|]); exact C.
  - simpl. lia.
Defined.

(** X16. The second search for the source column never finds anything: a
    name that contains "stage in gastrulation" contains "stage" and
    "gastrulation", so when the first search fails the second one does. *)
Theorem stage_fallback_never_fires :
  forall columns : list string,
    findIndex (fun k _ => isStageColumn k) (map toLowerCase columns) = None ->
    findIndex (fun k _ => includes k "stage in gastrulation") (map toLowerCase columns)
    = None.
Proof.
  intros columns H.
  destruct (findIndex (fun k _ => includes k "stage in gastrulation")
              (map toLowerCase columns)) as [i|] eqn:E; [|reflexivity].
  exfalso. apply findIndexFrom_some in E. destruct E as [_ [_ [x [Hx Hp]]]].
  pose proof (findIndexFrom_none _ _ 0 H _ _ Hx) as Hn. cbv beta in Hn.
  unfold isStageColumn in Hn.
  rewrite (includes_trans x _ "stage" Hp), (includes_trans x _ "gastrulation" Hp) in Hn
    by reflexivity.
  discriminate.
Qed.

Lemma stage_fallback_never_fires_witness :
  findIndex (fun k _ => includes k "stage in gastrulation")
    (map toLowerCase ["Year"; "Model (2D/3D)"]) = None.
Proof. apply stage_fallback_never_fires. reflexivity. Defined.

Lemma truthy_some o c : truthy o = Some c -> o = Some c /\ c <> EmptyString.
Proof. destruct o as [[|x s]|]; simpl; intros H; try discriminate. injection H as <-. now split. Qed.

Lemma orThen_some o o' c :
  orThen o o' = Some c -> (o = Some c /\ c <> EmptyString) \/ o' = Some c.
Proof.
  unfold orThen. destruct (truthy o) eqn:E.
  - intros [= <-]. left. now apply truthy_some.
  - now right.
Qed.

Lemma chooseDefaultColumns_members columns :
  forall c, fst (chooseDefaultColumns columns) = Some c
            \/ snd (chooseDefaultColumns columns) = Some c ->
            In c columns.
Proof.
  assert (Ht : forall i c, truthy (nth_error columns i) = Some c -> In c columns).
  { intros i c H. apply truthy_some in H. destruct H as [H _]. now apply nth_error_In in H. }
  intros c. unfold chooseDefaultColumns.
  destruct columns as [|c0 cs] eqn:Ecols; [cbn; intros [H|H]; discriminate|].
  rewrite <- Ecols in *. cbv zeta.
  repeat match goal with
         | |- context [findIndex ?p ?l] => destruct (findIndex p l)
         end;
    repeat match goal with
           | |- context [Nat.eqb ?a ?b] => destruct (Nat.eqb a b)
           end;
    cbn [fst snd]; intros [H|H];
    first [ now apply nth_error_In in H | now apply Ht in H ].
Qed.

(** The two indices [chooseDefaultColumns] ends with, given two columns
    or more. *)
Lemma chooseDefaultColumns_shape columns :
  2 <= length columns ->
  exists s t,
    s < length columns /\ t < length columns /\ s <> t
    /\ (chooseDefaultColumns columns = (nth_error columns s, nth_error columns t)
        \/ chooseDefaultColumns columns
           = (truthy (nth_error columns s), truthy (nth_error columns t))).
Proof.
  intros Hlen. unfold chooseDefaultColumns.
  destruct columns as [|c0 cs] eqn:Ecols; [simpl in Hlen; lia|].
  rewrite <- Ecols in *. clear Ecols c0 cs.
  set (lowers := map toLowerCase columns).
  assert (Hl : length lowers = length columns) by apply length_map.
  set (S0 := match findIndex (fun k _ => isStageColumn k) lowers with
             | Some _ => findIndex (fun k _ => isStageColumn k) lowers
             | None => findIndex (fun k _ => includes k "stage in gastrulation") lowers
             end).
  set (T0 := findIndex (fun k _ => isDimensionColumn k) lowers).
  assert (HS : forall s, S0 = Some s -> s < length columns).
  { intros s. unfold S0. rewrite <- Hl.
    destruct (findIndex (fun k _ => isStageColumn k) lowers) eqn:E; intros H.
    - injection H as <-. now apply findIndex_range in E.
    - now apply findIndex_range in H. }
  assert (HT : forall t, T0 = Some t -> t < length columns).
  { intros t H. rewrite <- Hl. now apply findIndex_range in H. }
  clearbody S0 T0.
  assert (H2 : exists s t, s < length columns /\ t < length columns /\ s <> t
                 /\ ((truthy (nth_error columns 0), truthy (nth_error columns 1))
                     = (nth_error columns s, nth_error columns t)
                     \/ (truthy (nth_error columns 0), truthy (nth_error columns 1))
                        = (truthy (nth_error columns s), truthy (nth_error columns t)))).
  { exists 0, 1. repeat split; try lia. now right. }
  destruct S0 as [s|], T0 as [t|].
  - specialize (HS s eq_refl). specialize (HT t eq_refl).
    destruct (Nat.eqb_spec s t) as [<-|Hne].
    + destruct (findIndex (fun _ i => differs i (Some s)) lowers) as [alt|] eqn:E.
      * apply findIndex_differs_some in E. destruct E as [E Ha].
        apply negb_true_iff, Nat.eqb_neq in E. rewrite Hl in Ha.
        exists s, alt. repeat split; try assumption; try congruence. now left.
      * exfalso. apply (findIndex_differs_none lowers s); [|exact E]. lia.
    + exists s, t. repeat split; try assumption. now left.
  - specialize (HS s eq_refl).
    destruct (findIndex (fun _ i => differs i (Some s)) lowers) as [t|] eqn:E;
      [|exact H2].
    apply findIndex_differs_some in E. destruct E as [E Ht].
    apply negb_true_iff, Nat.eqb_neq in E. rewrite Hl in Ht.
    destruct (Nat.eqb_spec s t) as [->|Hne]; [contradiction|].
    exists s, t. repeat split; try assumption. now left.
  - specialize (HT t eq_refl).
    destruct (findIndex (fun _ i => differs i (Some t)) lowers) as [s|] eqn:E;
      [|exact H2].
    apply findIndex_differs_some in E. destruct E as [E Hs].
    apply negb_true_iff, Nat.eqb_neq in E. rewrite Hl in Hs.
    destruct (Nat.eqb_spec s t) as [->|Hne]; [contradiction|].
    exists s, t. repeat split; try assumption. now left.
  - exact H2.
Qed.

(** X17. What a loaded data set selects. After [onDataLoaded] the
    selected source and target are each either unset or a non-empty name of
    a column of the first row that [isArticleNumberColumn] rejects. When
    the first row offers at least two such columns, with distinct non-empty
    names, both are set, to different columns, and [renderAll] hands the
    rows and this selection to [renderSankey]. *)
Theorem loaded_data_selects_two_columns :
  forall (state : State) (rows : list Row),
    let loaded := onDataLoaded state rows in
    let selectable := filterSelectableColumns (inferColumns rows) in
    stRows loaded = rows
    /\ (forall c, stSourceCol loaded = Some c \/ stTargetCol loaded = Some c ->
                  c <> EmptyString /\ In c (inferColumns rows)
                  /\ isArticleNumberColumn c = false)
    /\ (NoDup selectable -> 2 <= length selectable ->
        (forall c, In c selectable -> c <> EmptyString) ->
        exists a b,
          stSourceCol loaded = Some a /\ stTargetCol loaded = Some b /\ a <> b
          /\ forall d3g w h,
               renderAll d3g w h loaded
               = renderSankey d3g w h rows (mkConfig (Some a) (Some b) (stShowRefNums state))).
Proof.
  intros state rows loaded selectable. split; [reflexivity|]. split.
  - assert (Hsel : forall c, In c selectable ->
                     In c (inferColumns rows) /\ isArticleNumberColumn c = false).
    { intros c Hc. apply filter_In in Hc. destruct Hc as [H1 H2].
      split; [exact H1|]. now apply negb_true_iff in H2. }
    intros c [H|H]; unfold loaded, onDataLoaded in H; cbn [stSourceCol stTargetCol] in H;
      apply orThen_some in H; fold selectable in H; destruct H as [[H Hne]|H].
    + split; [exact Hne|]. apply Hsel. apply (chooseDefaultColumns_members selectable).
      now left.
    + apply truthy_some in H. destruct H as [H Hne]. split; [exact Hne|].
      apply Hsel. now apply nth_error_In in H.
    + split; [exact Hne|]. apply Hsel. apply (chooseDefaultColumns_members selectable).
      now right.
    + apply truthy_some in H. destruct H as [H Hne]. split; [exact Hne|].
      apply Hsel. now apply nth_error_In in H.
  - intros Hnd Hlen Hnames.
    destruct (chooseDefaultColumns_shape selectable Hlen) as [s [t [Hs [Ht [Hst Hsh]]]]].
    destruct (nth_error selectable s) as [a|] eqn:Ea;
      [|apply nth_error_None in Ea; lia].
    destruct (nth_error selectable t) as [b|] eqn:Eb;
      [|apply nth_error_None in Eb; lia].
    assert (Ha : a <> EmptyString) by (apply Hnames; now apply nth_error_In in Ea).
    assert (Hb : b <> EmptyString) by (apply Hnames; now apply nth_error_In in Eb).
    assert (Hta : truthy (Some a) = Some a) by (destruct a; [contradiction|reflexivity]).
    assert (Htb : truthy (Some b) = Some b) by (destruct b; [contradiction|reflexivity]).
    assert (Hcd : chooseDefaultColumns selectable = (Some a, Some b)).
    { destruct Hsh as [-> | ->]; [reflexivity|now rewrite Hta, Htb]. }
    assert (Hab : a <> b).
    { intros ->. apply Hst. apply (proj1 (NoDup_nth_error selectable) Hnd); [exact Hs|].
      now rewrite Ea, Eb. }
    assert (Hrows : rows <> []).
    { intros ->. unfold selectable in Hlen. simpl in Hlen. lia. }
    exists a, b.
    assert (Hsrc : stSourceCol loaded = Some a).
    { unfold loaded, onDataLoaded. cbn [stSourceCol]. fold selectable. rewrite Hcd.
      cbn [fst]. unfold orThen. now rewrite Hta. }
    assert (Htgt : stTargetCol loaded = Some b).
    { unfold loaded, onDataLoaded. cbn [stTargetCol]. fold selectable. rewrite Hcd.
      cbn [snd]. unfold orThen. now rewrite Htb. }
    split; [exact Hsrc|]. split; [exact Htgt|]. split; [exact Hab|].
    intros d3g w h. unfold renderAll. rewrite Hsrc, Htgt.
    assert (Hshow : stShowRefNums loaded = stShowRefNums state) by reflexivity.
    assert (Hr : stRows loaded = rows) by reflexivity.
    rewrite Hshow, Hr. cbn [unset].
    destruct rows as [|row rows']; [contradiction|].
    destruct (String.eqb_spec a EmptyString); [contradiction|].
    destruct (String.eqb_spec b EmptyString); [contradiction|].
    reflexivity.
Qed.

Lemma loaded_data_selects_two_columns_witness :
  exists a b,
    stSourceCol (onDataLoaded (mkState [] None None true)
                   [[("Year", SNumber 2020); ("Stage in gastrulation", SString "late");
                     ("Model (2D/3D)", SString "3D")]]) = Some a
    /\ stTargetCol (onDataLoaded (mkState [] None None true)
                      [[("Year", SNumber 2020); ("Stage in gastrulation", SString "late");
                        ("Model (2D/3D)", SString "3D")]]) = Some b
    /\ a <> b.
Proof.
  destruct (loaded_data_selects_two_columns (mkState [] None None true)
              [[("Year", SNumber 2020); ("Stage in gastrulation", SString "late");
                ("Model (2D/3D)", SString "3D")]]) as [_ [_ H]].
  destruct H as [a [b [Ha [Hb [Hab _]]]]].
  - vm_compute. repeat constructor; simpl; intros C;
      repeat (destruct C as [C|C]; [discriminate|]); exact C.
  - vm_compute. lia.
  - intros c Hc. vm_compute in Hc.
    repeat (destruct Hc as [<-|Hc]; [discriminate|]). contradiction.
  - exists a, b. repeat split; assumption.
Defined.

(* ================================================================= *)
(** ** The reference list and the reference numbers *)




Lemma ofList_get_In {V : Type} (l : list (string * V)) k v :
  JsMap.get (JsMap.ofList l) k = Some v -> In (k, v) l.
Proof.
  unfold JsMap.ofList.
  assert (G : forall m : JsMap.t V,
             JsMap.get (fold_left (fun m kv => JsMap.set m (fst kv) (snd kv)) l m) k = Some v ->
             In (k, v) l \/ JsMap.get m k = Some v).
  { induction l as [|[k0 v0] l IH]; intros m H; simpl in *; [now right|].
    destruct (IH _ H) as [Hin|Hm]; [left; now right|].
    rewrite get_set in Hm. destruct (String.eqb_spec k0 k) as [->|]; [|now right].
    injection Hm as ->. left. now left. }
  intros H. destruct (G _ H) as [Hin|Hm]; [exact Hin|discriminate].
Qed.

Lemma firstSome_some {A B : Type} (f : A -> option B) (l : list A) y :
  firstSome f l = Some y -> exists x, In x l /\ f x = Some y.
Proof.
  induction l as [|x l IH]; simpl; [discriminate|].
  destruct (f x) eqn:E.
  - intros [= <-]. exists x. split; [now left|exact E].
  - intros H. destruct (IH H) as [x' [Hx Hf]]. exists x'. split; [now right|exact Hf].
Qed.

(** X19. What [preferKey] returns. When it returns a key, the rows are not
    empty, the key is a property name of the first row, and it contains one
    of the candidates, letter case apart. *)
Theorem preferKey_returns_a_matching_key :
  forall (rows : list Row) (candidates : list string) (k : string),
    preferKey rows candidates = Some k ->
    exists row rest c,
      rows = row :: rest /\ In k (keysOf row) /\ In c candidates
      /\ includes (toLowerCase k) (toLowerCase c) = true.
Proof.
  intros rows candidates k H. unfold preferKey in H.
  destruct rows as [|row rest]; [discriminate|].
  exists row, rest.
  destruct (keysOf row) as [|k0 ks] eqn:Ek; [discriminate|].
  rewrite <- Ek in H |- *. set (keys := keysOf row) in *. clear Ek.
  unfold preferAmong in H.
  destruct (firstSome (fun c => truthy (JsMap.get
              (JsMap.ofList (map (fun k => (toLowerCase k, k)) keys)) (toLowerCase c)))
              candidates) as [k'|] eqn:E.
  - injection H as ->. apply firstSome_some in E. destruct E as [c [Hc Hg]].
    apply truthy_some in Hg. destruct Hg as [Hg _]. apply ofList_get_In in Hg.
    apply in_map_iff in Hg. destruct Hg as [k1 [Hk1 Hin]]. injection Hk1 as Hl ->.
    exists c. split; [reflexivity|]. split; [exact Hin|]. split; [exact Hc|].
    rewrite <- Hl. apply includes_refl.
  - apply firstSome_some in H. destruct H as [c [Hc Hf]].
    destruct (findIndex (fun k _ => includes k (toLowerCase c)) (map toLowerCase keys))
      as [idx|] eqn:Ei; [|discriminate].
    apply findIndexFrom_some in Ei. destruct Ei as [_ [_ [x [Hx Hp]]]].
    rewrite Nat.sub_0_r in Hx. rewrite nth_error_map, Hf in Hx. injection Hx as <-.
    exists c. split; [reflexivity|]. split; [now apply nth_error_In in Hf|].
    split; [exact Hc|exact Hp].
Qed.

Lemma preferKey_returns_a_matching_key_witness :
  exists row rest c,
    [[("Paper title", SString "x"); ("AUTHORS", SString "y")]] = row :: rest
    /\ In "AUTHORS" (keysOf row) /\ In c authorCandidates
    /\ includes (toLowerCase "AUTHORS") (toLowerCase c) = true.
Proof.
  apply (preferKey_returns_a_matching_key
           [[("Paper title", SString "x"); ("AUTHORS", SString "y")]] authorCandidates).
  reflexivity.
Defined.

(* ================================================================= *)
(** ** The highlight of a reference *)

(** X20. The highlight of the reference list. After any event on a
    reference token at most one list item is highlighted. Entering a token
    forgets the clicked reference for good: once the pointer has entered a
    token and left it, nothing is highlighted, whatever was clicked before.
    A click on a reference that has a list item keeps that item
    highlighted after the pointer leaves. *)
Theorem highlight_follows_hover_then_click :
  forall (items : nat) (h : Highlight) (events : list TokenEvent) (r : nat),
    let run := fun evs => fold_left (onToken items) evs h in
    (forall e, length (activeRefs (run (events ++ [e]))) <= 1)
    /\ (selectedRefId (run (events ++ [MouseEnter r; MouseLeave])) = None
        /\ activeRefs (run (events ++ [MouseEnter r; MouseLeave])) = [])
    /\ (1 <= r <= items ->
        activeRefs (run (events ++ [Click r; MouseLeave])) = [r]
        /\ activeRefs (run (events ++ [MouseEnter r])) = [r]).
Proof.
  intros items h events r run. unfold run. split; [|split].
  - intros e. rewrite fold_left_app. cbn [fold_left].
    destruct e; unfold onToken, updateHighlights; cbn [activeRefs hoverRefId selectedRefId];
      repeat match goal with
             | |- context [match ?x with _ => _ end] => destruct x
             end; simpl; lia.
  - rewrite fold_left_app. cbn [fold_left]. split; reflexivity.
  - intros Hr. rewrite !fold_left_app. cbn [fold_left].
    assert (E : (1 <=? r) && (r <=? items) = true).
    { apply andb_true_iff. split; apply Nat.leb_le; lia. }
    unfold onToken, updateHighlights. cbn [activeRefs hoverRefId selectedRefId].
    now rewrite E.
Qed.

(* ================================================================= *)
(** ** [renderSankey] without D3 *)

Lemma buildGraph_unloaded rows a b : buildGraph false rows a b = Throw TypeError.
Proof. reflexivity. Qed.

(** X21. The message about a missing D3 is never written. Without D3,
    [renderSankey] writes the placeholder of its first guard when a column
    is unset and throws a [TypeError] in every other case, also on no rows
    at all: [buildGraph] reads [d3g.max] before the test of [d3g] is
    reached. With D3 the test fails. *)
Theorem missing_d3_message_is_never_written :
  forall (d3g : bool) (w h : Q) (rows : list Row) (config : Config),
    renderSankeyToLayout d3g w h rows config
      <> Normal (Message (placeholder msgNoD3))
    /\ renderSankeyToLayout false w h rows config
       = (if unset (cfgSourceCol config) || unset (cfgTargetCol config)
          then Normal (Message (placeholder msgSelect))
          else Throw TypeError)
    /\ (renderSankeyToLayout d3g w h rows config = Throw TypeError
        <-> d3g = false
            /\ unset (cfgSourceCol config) = false
            /\ unset (cfgTargetCol config) = false).
Proof.
  intros d3g w h rows config.
  assert (Hsel : placeholder msgSelect <> placeholder msgNoD3)
    by (vm_compute; discriminate).
  assert (Hno : placeholder msgNoLinks <> placeholder msgNoD3)
    by (vm_compute; discriminate).
  unfold renderSankeyToLayout, renderSankey.
  destruct (unset (cfgSourceCol config) || unset (cfgTargetCol config)) eqn:Eu.
  - cbn [setup]. split; [congruence|]. split; [reflexivity|].
    split; [discriminate|].
    intros [_ [Ha Hb]]. rewrite Ha, Hb in Eu. discriminate.
  - apply orb_false_iff in Eu. destruct Eu as [Ha Hb].
    rewrite buildGraph_unloaded.
    destruct d3g.
    + destruct (buildGraph_loaded rows (orElse (cfgSourceCol config) EmptyString)
                  (orElse (cfgTargetCol config) EmptyString)) as [n ->].
      cbn [graph links].
      destruct (map linkOf _); cbn [setup negb];
        (split; [congruence|]); (split; [reflexivity|]);
        (split; [discriminate|]); intros [H _]; discriminate.
    + rewrite buildGraph_unloaded.
      split; [discriminate|]. split; [reflexivity|].
      split; [intros _; repeat split; assumption|reflexivity].
Qed.

